(** * theme-1: carousel, infinite slider and ray renderer mechanics

    A shallow embedding of the three scripts under
    [src/assets/js/theme-1/]:

    - [video-testimonials.js]: the infinite-loop slider (cursor, cloned
      track, loop check, pagination dots, drag handlers, polling init);
    - [theme-1.js], [initCircularTestimonials]: the circular carousel
      (padding of the item list, rotation order, ring placement, image
      gate);
    - [light-rays.js]: [hexToRgb] and [getAnchorAndDir].

    Conventions.  Pixel quantities that the scripts obtain from integer
    DOM properties ([offsetWidth], [innerWidth]) are in [Z]; quantities that
    are JavaScript numbers with fractional values (pointer coordinates,
    translate offsets, colour channels, ray anchors) are exact rationals
    [Q]; the trigonometric ring placement is over the real numbers [R].
    Timers ([setTimeout]) are a queue of pending callbacks held in the
    component state and fired explicitly. *)

From Stdlib Require Import ZArith NArith List Bool Lia QArith Qabs.
From Stdlib Require Import Ascii String.
From Stdlib Require Import Reals Lra.
From Equations Require Import Equations.
Import ListNotations.

Set Implicit Arguments.

(* ================================================================== *)
(** ** video-testimonials.js                                           *)
(* ================================================================== *)

Module VideoTestimonials.

Local Open Scope Z_scope.

(** [config] *)
Definition config_transition : Z := 500.
Definition config_delay : Z := 3000.
Definition config_autoplay : bool := true.

(** A child of the track: which original card it shows, and whether it
    carries the [cloned] class. *)
Record Card := { source : nat; cloned : bool }.

Definition cloneNode (c : Card) : Card := {| source := source c; cloned := true |}.

(** What the handlers read from the page at the time they run. *)
Record Env := {
  innerWidth : Z;        (* window.innerWidth *)
  offsetWidth0 : Z;      (* cards[0].offsetWidth *)
  isRTL : bool           (* document.documentElement.dir === 'rtl' *)
}.

(** The page at the time [init] looks its anchors up. *)
Record Dom := {
  domTrack : option (list Card);   (* #videoTestimonialsTrack and its children *)
  domSlider : bool;                (* .video-testimonials-slider *)
  domPagination : option (list bool)
                                   (* #videoTestimonialsPagination and the
                                      'active' flag of each child it has *)
}.

(** Callbacks handed to [setTimeout]. *)
Inductive Callback :=
| RetryInit                 (* setTimeout(init, 100) *)
| DeferredSetup             (* the 100 ms closure of init *)
| RehomeToStart             (* current = totalSlides; update(false) *)
| RehomeToEnd (maxIndex : Z)(* current = maxIndex - 1; update(false) *).

Record TrackStyle := {
  transform : Q;          (* translateX(<value>px) *)
  animated : bool         (* transition is the timed one, not 'none' *)
}.

Record DragVars := {
  isDragging : bool;
  startX : Q;
  currentTranslate : Q;
  prevTranslate : Q
}.

(** The module-level variables of the script, together with the parts of
    the page only this script writes. *)
Record Slider := {
  track : option (list Card);
  slider : bool;
  originalCards : list Card;
  totalSlides : Z;
  pagination : option (list bool);   (* per dot: has class 'active' *)
  cards : list Card;                 (* [] also stands for undefined *)
  current : Z;
  style : TrackStyle;
  dragv : DragVars;
  timeouts : list Callback;
  autoplayTimer : bool;
  resizeBound : nat                  (* resize listeners registered *)
}.

Definition initial : Slider :=
  {| track := None; slider := false; originalCards := []; totalSlides := 0;
     pagination := None; cards := []; current := 0;
     style := {| transform := 0%Q; animated := false |};
     dragv := {| isDragging := false; startX := 0%Q;
                 currentTranslate := 0%Q; prevTranslate := 0%Q |};
     timeouts := []; autoplayTimer := false; resizeBound := 0 |}.

(** Field updates. *)
Definition set_track (v : option (list Card)) (s : Slider) : Slider :=
  {| track := v; slider := slider s; originalCards := originalCards s;
     totalSlides := totalSlides s; pagination := pagination s;
     cards := cards s; current := current s; style := style s;
     dragv := dragv s; timeouts := timeouts s;
     autoplayTimer := autoplayTimer s; resizeBound := resizeBound s |}.

Definition set_slider (v : bool) (s : Slider) : Slider :=
  {| track := track s; slider := v; originalCards := originalCards s;
     totalSlides := totalSlides s; pagination := pagination s;
     cards := cards s; current := current s; style := style s;
     dragv := dragv s; timeouts := timeouts s;
     autoplayTimer := autoplayTimer s; resizeBound := resizeBound s |}.

Definition set_originalCards (v : list Card) (s : Slider) : Slider :=
  {| track := track s; slider := slider s; originalCards := v;
     totalSlides := totalSlides s; pagination := pagination s;
     cards := cards s; current := current s; style := style s;
     dragv := dragv s; timeouts := timeouts s;
     autoplayTimer := autoplayTimer s; resizeBound := resizeBound s |}.

Definition set_totalSlides (v : Z) (s : Slider) : Slider :=
  {| track := track s; slider := slider s; originalCards := originalCards s;
     totalSlides := v; pagination := pagination s; cards := cards s;
     current := current s; style := style s; dragv := dragv s;
     timeouts := timeouts s; autoplayTimer := autoplayTimer s;
     resizeBound := resizeBound s |}.

Definition set_pagination (v : option (list bool)) (s : Slider) : Slider :=
  {| track := track s; slider := slider s; originalCards := originalCards s;
     totalSlides := totalSlides s; pagination := v; cards := cards s;
     current := current s; style := style s; dragv := dragv s;
     timeouts := timeouts s; autoplayTimer := autoplayTimer s;
     resizeBound := resizeBound s |}.

Definition set_cards (v : list Card) (s : Slider) : Slider :=
  {| track := track s; slider := slider s; originalCards := originalCards s;
     totalSlides := totalSlides s; pagination := pagination s; cards := v;
     current := current s; style := style s; dragv := dragv s;
     timeouts := timeouts s; autoplayTimer := autoplayTimer s;
     resizeBound := resizeBound s |}.

Definition set_current (v : Z) (s : Slider) : Slider :=
  {| track := track s; slider := slider s; originalCards := originalCards s;
     totalSlides := totalSlides s; pagination := pagination s;
     cards := cards s; current := v; style := style s; dragv := dragv s;
     timeouts := timeouts s; autoplayTimer := autoplayTimer s;
     resizeBound := resizeBound s |}.

Definition set_style (v : TrackStyle) (s : Slider) : Slider :=
  {| track := track s; slider := slider s; originalCards := originalCards s;
     totalSlides := totalSlides s; pagination := pagination s;
     cards := cards s; current := current s; style := v; dragv := dragv s;
     timeouts := timeouts s; autoplayTimer := autoplayTimer s;
     resizeBound := resizeBound s |}.

Definition set_dragv (v : DragVars) (s : Slider) : Slider :=
  {| track := track s; slider := slider s; originalCards := originalCards s;
     totalSlides := totalSlides s; pagination := pagination s;
     cards := cards s; current := current s; style := style s; dragv := v;
     timeouts := timeouts s; autoplayTimer := autoplayTimer s;
     resizeBound := resizeBound s |}.

Definition set_timeouts (v : list Callback) (s : Slider) : Slider :=
  {| track := track s; slider := slider s; originalCards := originalCards s;
     totalSlides := totalSlides s; pagination := pagination s;
     cards := cards s; current := current s; style := style s;
     dragv := dragv s; timeouts := v; autoplayTimer := autoplayTimer s;
     resizeBound := resizeBound s |}.

Definition set_autoplayTimer (v : bool) (s : Slider) : Slider :=
  {| track := track s; slider := slider s; originalCards := originalCards s;
     totalSlides := totalSlides s; pagination := pagination s;
     cards := cards s; current := current s; style := style s;
     dragv := dragv s; timeouts := timeouts s; autoplayTimer := v;
     resizeBound := resizeBound s |}.

Definition set_resizeBound (v : nat) (s : Slider) : Slider :=
  {| track := track s; slider := slider s; originalCards := originalCards s;
     totalSlides := totalSlides s; pagination := pagination s;
     cards := cards s; current := current s; style := style s;
     dragv := dragv s; timeouts := timeouts s;
     autoplayTimer := autoplayTimer s; resizeBound := v |}.

Definition setTimeout (cb : Callback) (s : Slider) : Slider :=
  set_timeouts (timeouts s ++ [cb]) s.

(** *** Pagination *)

(** [getRealIndex]; JavaScript's [%] truncates toward zero ([Z.rem]). *)
Definition getRealIndex (totalSlides index : Z) : Z :=
  let realIdx := Z.rem (index - totalSlides) totalSlides in
  if realIdx <? 0 then realIdx + totalSlides else realIdx.

(** [dots[i].classList.toggle('active', i === realIndex)] over all dots. *)
Fixpoint toggle_dots (realIndex : Z) (i : Z) (dots : list bool) : list bool :=
  match dots with
  | [] => []
  | _ :: rest => (i =? realIndex) :: toggle_dots realIndex (i + 1) rest
  end.

Definition updatePagination (s : Slider) : Slider :=
  match pagination s with
  | None => s
  | Some dots =>
      let realIndex := getRealIndex (totalSlides s) (current s) in
      set_pagination (Some (toggle_dots realIndex 0 dots)) s
  end.

(** The [for (let i = 0; i < totalSlides; i++)] loop that appends one
    fresh, inactive dot per pass. *)
Definition fresh_dots (totalSlides : Z) : list bool :=
  repeat false (Z.to_nat totalSlides).

Definition createPagination (s : Slider) : Slider :=
  match pagination s with
  | None => s
  | Some _ => updatePagination (set_pagination (Some (fresh_dots (totalSlides s))) s)
  end.

(** *** Offset and loop check *)

Definition gap_of (w : Z) : Z :=
  if w <=? 480 then 0 else if w <=? 640 then 12 else 24.

(** The [offset] constant of [update]. *)
Definition offset_at (e : Env) (cur : Z) : Z :=
  (offsetWidth0 e + gap_of (innerWidth e)) * cur.

Definition update (e : Env) (animate : bool) (s : Slider) : Slider :=
  match cards s with
  | [] => s
  | _ :: _ =>
      let offset := offset_at e (current s) in
      let value := if isRTL e then offset else - offset in
      updatePagination
        (set_style {| transform := inject_Z value; animated := animate |} s)
  end.

Definition checkLoop (s : Slider) : Slider :=
  let maxIndex := Z.of_nat (List.length (cards s)) - totalSlides s in
  if current s >=? maxIndex then setTimeout RehomeToStart s
  else if current s <? totalSlides s then setTimeout (RehomeToEnd maxIndex) s
  else s.

Definition next (e : Env) (s : Slider) : Slider :=
  checkLoop (update e true (set_current (current s + 1) s)).

Definition prev (e : Env) (s : Slider) : Slider :=
  checkLoop (update e true (set_current (current s - 1) s)).

Definition goToSlide (e : Env) (index : Z) (s : Slider) : Slider :=
  update e true (set_current (index + totalSlides s) s).

(** *** Cloning *)

(** [cloneCards]: a clone of every original is appended in order, then a
    clone of every original, taken in reverse order, is inserted before
    the first child. *)
Definition cloneCards (s : Slider) : Slider :=
  match track s with
  | None => s
  | Some children =>
      if existsb cloned children then s
      else match originalCards s with
           | [] => s
           | _ :: _ =>
               let appended := fold_left (fun t c => t ++ [cloneNode c])
                                         (originalCards s) children in
               let prepended := fold_left (fun t c => cloneNode c :: t)
                                          (rev (originalCards s)) appended in
               set_cards prepended (set_track (Some prepended) s)
           end
  end.

(** *** Autoplay *)

Definition stopAutoplay (s : Slider) : Slider :=
  if autoplayTimer s then set_autoplayTimer false s else s.

Definition resetAutoplay (s : Slider) : Slider :=
  let s := stopAutoplay s in
  if config_autoplay then set_autoplayTimer true s else s.

Definition initAutoplay (s : Slider) : Slider :=
  if config_autoplay then set_autoplayTimer true s else s.

(** *** Drag *)

(** The matrix [new DOMMatrix(getComputedStyle(track).transform)], of
    which only [m41] is read.  The browser decides it: with no
    transition running it holds the translate last written, during a
    transition a value on the way to it. *)
Record DOMMatrix := { m41 : Q }.

Definition getTranslateX (matrix : DOMMatrix) : Q := m41 matrix.

(** The matrix of a track on which no transition is running. *)
Definition written (s : Slider) : DOMMatrix := {| m41 := transform (style s) |}.

(** [x] is [getX(e)], the pointer's clientX, and [matrix] what the
    computed style yields at the press. *)
Definition startDrag (x : Q) (matrix : DOMMatrix) (s : Slider) : Slider :=
  let d := {| isDragging := true; startX := x;
              currentTranslate := currentTranslate (dragv s);
              prevTranslate := getTranslateX matrix |} in
  stopAutoplay
    (set_style {| transform := transform (style s); animated := false |}
       (set_dragv d s)).

Definition drag (x : Q) (s : Slider) : Slider :=
  if isDragging (dragv s) then
    let deltaX := (x - startX (dragv s))%Q in
    let ct := (prevTranslate (dragv s) + deltaX)%Q in
    set_style {| transform := ct; animated := animated (style s) |}
      (set_dragv {| isDragging := true; startX := startX (dragv s);
                    currentTranslate := ct;
                    prevTranslate := prevTranslate (dragv s) |} s)
  else s.

Definition Qltb (x y : Q) : bool := negb (Qle_bool y x).

(** Which branch [endDrag] takes. *)
Inductive Release := CommitNext | CommitPrev | SnapBack.

Definition release_decision (e : Env) (s : Slider) : Release :=
  let moved := (currentTranslate (dragv s) - prevTranslate (dragv s))%Q in
  let cardWidth := inject_Z (offsetWidth0 e) in
  let threshold := (cardWidth / 3)%Q in
  if Qltb threshold (Qabs moved) then
    if Qltb moved 0 then (if isRTL e then CommitPrev else CommitNext)
    else (if isRTL e then CommitNext else CommitPrev)
  else SnapBack.

(** [endDrag]; [None] is the TypeError of [cards[0].offsetWidth] when
    there is no first card. *)
Definition endDrag (e : Env) (s : Slider) : option Slider :=
  if isDragging (dragv s) then
    let s := set_dragv {| isDragging := false; startX := startX (dragv s);
                          currentTranslate := currentTranslate (dragv s);
                          prevTranslate := prevTranslate (dragv s) |} s in
    match cards s with
    | [] => None
    | _ :: _ =>
        let s := match release_decision e s with
                 | CommitNext => next e s
                 | CommitPrev => prev e s
                 | SnapBack => update e true s
                 end in
        Some (resetAutoplay s)
    end
  else Some s.

(** *** Initialisation and timers *)

(** The closure [init] defers by 100 ms.  [setPerView],
    [createNavButtons], [initDrag] and [initVideoModal] only write card
    styles, add buttons and bind listeners; they touch none of the
    variables modelled here. *)
Definition deferredSetup (e : Env) (s : Slider) : Slider :=
  let s := cloneCards s in
  let s := createPagination s in
  let s := set_current (totalSlides s) s in
  let s := update e false s in
  initAutoplay s.

Definition init (d : Dom) (s : Slider) : Slider :=
  let s := set_slider (domSlider d) (set_track (domTrack d) s) in
  match track s with
  | Some children =>
      if slider s then
        let s := set_originalCards children s in
        match originalCards s with
        | [] => setTimeout RetryInit s
        | _ :: _ =>
            let s := set_pagination (domPagination d) s in
            let s := set_totalSlides (Z.of_nat (List.length (originalCards s))) s in
            let s := setTimeout DeferredSetup s in
            set_resizeBound (S (resizeBound s)) s
        end
      else setTimeout RetryInit s
  | None => setTimeout RetryInit s
  end.

Definition fire (d : Dom) (e : Env) (cb : Callback) (s : Slider) : Slider :=
  match cb with
  | RetryInit => init d s
  | DeferredSetup => deferredSetup e s
  | RehomeToStart => update e false (set_current (totalSlides s) s)
  | RehomeToEnd maxIndex => update e false (set_current (maxIndex - 1) s)
  end.

(** Let every pending timeout elapse, oldest first.  Timeouts that the
    fired callbacks schedule stay pending. *)
Definition settle (d : Dom) (e : Env) (s : Slider) : Slider :=
  fold_left (fun st cb => fire d e cb st) (timeouts s) (set_timeouts [] s).

(** [next()] followed by the wait for its loop check. *)
Definition next_settled (d : Dom) (e : Env) (s : Slider) : Slider :=
  settle d e (next e s).

Definition prev_settled (d : Dom) (e : Env) (s : Slider) : Slider :=
  settle d e (prev e s).

(** *** The handlers the script binds *)

(** What can reach the slider once [init]'s deferred closure has run:
    the two buttons of [createNavButtons], the dots of
    [createPagination], the interval and the hover listeners of
    [initAutoplay], the pointer listeners of [initDrag] (mouse or touch,
    [x] being [getX(e)] and [matrix] the computed transform the press
    reads) and the debounced closure of [handleResize]. *)
Inductive Input :=
| ClickPrev
| ClickNext
| ClickDot (i : Z)
| AutoplayTick
| MouseEnterSlider
| MouseLeaveSlider
| PointerDown (x : Q) (matrix : DOMMatrix)
| PointerMove (x : Q)
| PointerUp
| ResizeElapsed.

(** [None] is an uncaught TypeError. *)
Definition handle (e : Env) (i : Input) (s : Slider) : option Slider :=
  match i with
  | ClickPrev => Some (resetAutoplay (prev e s))
  | ClickNext => Some (resetAutoplay (next e s))
  | ClickDot i => Some (resetAutoplay (goToSlide e i s))
  | AutoplayTick => Some (if autoplayTimer s then next e s else s)
  | MouseEnterSlider => Some (stopAutoplay s)
  | MouseLeaveSlider => Some (resetAutoplay s)
  | PointerDown x matrix => Some (startDrag x matrix s)
  | PointerMove x => Some (drag x s)
  | PointerUp => endDrag e s
  | ResizeElapsed => Some (update e false (createPagination s))
  end.

Fixpoint handle_all (e : Env) (inputs : list Input) (s : Slider) : option Slider :=
  match inputs with
  | [] => Some s
  | i :: more =>
      match handle e i s with
      | Some s' => handle_all e more s'
      | None => None
      end
  end.

(** *** [setPerView] *)

(** The [perView] the breakpoints give a window width. *)
Definition perView_of (w : Z) : Z :=
  if w <? 640 then 1
  else if w <? 768 then 1
  else if w <? 1024 then 2
  else if w <? 1400 then 3
  else 4.

Inductive CssLength := Percent100 | Px (q : Q).

(** What [setPerView] writes on every card.  [direction] is only
    written under right-to-left layout. *)
Record CardStyle := {
  css_width : CssLength;
  css_minWidth : CssLength;
  css_maxWidth : option CssLength;
  css_marginRight : Z;
  css_marginLeft : Z;
  css_direction_rtl : bool
}.

(** [Math.max] *)
Definition Math_max (a b : Q) : Q := if Qle_bool a b then b else a.

(** [setPerView] for a window of width [w] and a slider whose
    [offsetWidth] is [sliderOffsetWidth]: the new [perView] and, when the
    slider and the cards exist, the style every card gets. *)
Definition setPerView (e : Env) (sliderOffsetWidth : Z) (s : Slider)
  : Z * option CardStyle :=
  let w := innerWidth e in
  let perView := perView_of w in
  if negb (slider s) || (List.length (cards s) =? 0)%nat then (perView, None)
  else
    let sliderWidth := if sliderOffsetWidth =? 0 then 1400 else sliderOffsetWidth in
    let gap := if w <=? 480 then 0 else if w <=? 640 then 12 else 24 in
    let totalGaps := perView * gap in
    let cardWidth := (inject_Z (sliderWidth - totalGaps) / inject_Z perView)%Q in
    let cardWidth := if w <=? 480
                     then Math_max cardWidth (inject_Z (sliderWidth - 60))
                     else cardWidth in
    let st :=
      if w <=? 480 then
        {| css_width := Percent100; css_minWidth := Percent100;
           css_maxWidth := Some Percent100;
           css_marginRight := 0; css_marginLeft := 0;
           css_direction_rtl := false |}
      else
        {| css_width := Px cardWidth;
           css_minWidth := if w <=? 640 then Percent100 else Px 280;
           css_maxWidth := None;
           css_marginRight := if isRTL e then 0 else (if 0 <? gap then gap else 0);
           css_marginLeft := if isRTL e then (if 0 <? gap then gap else 0) else 0;
           css_direction_rtl := isRTL e |} in
    (perView, Some st).

End VideoTestimonials.

(* ================================================================== *)
(** ** theme-1.js: initCircularTestimonials                            *)
(* ================================================================== *)

Module CircularTestimonials.

Local Open Scope nat_scope.

Definition AUTO_ROTATE_DELAY : nat := 3500.

(** A [.testimonial-circle-item] element.  [node] tells elements apart
    (a clone is a new element), [source] is the original it shows. *)
Record Item := { node : nat; source : nat; clone : bool }.

(** [baseItems[i].cloneNode(true)] with the clone class added; the new
    element is the one about to sit at index [pos] of [items]. *)
Definition cloneNode (b : Item) (pos : nat) : Item :=
  {| node := pos; source := source b; clone := true |}.

(** One run of the inner [for] loop: it walks [baseItems] and stops early
    as soon as [items.length < 10] fails. *)
Fixpoint clone_pass (baseItems items : list Item) : list Item :=
  match baseItems with
  | [] => items
  | b :: rest =>
      if List.length items <? 10
      then clone_pass rest (items ++ [cloneNode b (List.length items)])
      else items
  end.

Lemma clone_pass_grows (b0 : Item) (rest items : list Item) :
  List.length items < 10 ->
  List.length items < List.length (clone_pass (b0 :: rest) items).
Proof.
  intros H. simpl. apply Nat.ltb_lt in H. rewrite H.
  assert (G : forall bs l, List.length l <= List.length (clone_pass bs l)).
  { induction bs as [|b bs IH]; intros l; simpl; [lia|].
    destruct (List.length l <? 10); [|lia].
    specialize (IH (l ++ [cloneNode b (List.length l)])).
    rewrite length_app in IH. simpl in IH. lia. }
  specialize (G rest (items ++ [cloneNode b0 (List.length items)])).
  rewrite length_app in G. simpl in G. lia.
Qed.

(** The outer [while (items.length < 10)] loop.  [baseItems] is not empty
    here: the guard before it returned on [!items.length]. *)
Equations? pad_items (b0 : Item) (rest items : list Item) : list Item
  by wf (10 - List.length items) lt :=
  pad_items b0 rest items with lt_dec (List.length items) 10 => {
    | left _ := pad_items b0 rest (clone_pass (b0 :: rest) items);
    | right _ := items }.
Proof.
  match goal with H : List.length items < 10 |- _ =>
    pose proof (clone_pass_grows b0 rest items H) end.
  change (10 - List.length (clone_pass (b0 :: rest) items)
          < 10 - List.length items).
  lia.
Qed.

(** An [img] inside the circle, as [querySelectorAll('img')] finds it
    once the clones are in place. *)
Record Img := { img : nat; complete : bool }.

(** The anchors the carousel looks up, all inside the wrapper. *)
Record Page := {
  wrapper : bool;                 (* .testimonials-cards-wrapper *)
  circle : option (list Item);    (* .testimonial-circle and its items *)
  prevBtn : bool;                 (* .rotation-prev *)
  nextBtn : bool;                 (* .rotation-next *)
  images : list Img
}.

(** The variables of the closure, with counters for what it does to the
    page: [positioned] counts the calls of [positionItems], [listening]
    holds the images that carry the load and error listeners. *)
Record Carousel := {
  order : list Item;
  autoRotateTimer : bool;
  totalImages : nat;
  loadedImages : nat;
  listening : list nat;
  positioned : nat
}.

Definition positionItems_called (c : Carousel) : Carousel :=
  {| order := order c; autoRotateTimer := autoRotateTimer c;
     totalImages := totalImages c; loadedImages := loadedImages c;
     listening := listening c; positioned := S (positioned c) |}.

Definition set_order (o : list Item) (c : Carousel) : Carousel :=
  {| order := o; autoRotateTimer := autoRotateTimer c;
     totalImages := totalImages c; loadedImages := loadedImages c;
     listening := listening c; positioned := positioned c |}.

Definition set_timer (t : bool) (c : Carousel) : Carousel :=
  {| order := order c; autoRotateTimer := t;
     totalImages := totalImages c; loadedImages := loadedImages c;
     listening := listening c; positioned := positioned c |}.

Definition set_loaded (n : nat) (c : Carousel) : Carousel :=
  {| order := order c; autoRotateTimer := autoRotateTimer c;
     totalImages := totalImages c; loadedImages := n;
     listening := listening c; positioned := positioned c |}.

Definition listen (i : nat) (c : Carousel) : Carousel :=
  {| order := order c; autoRotateTimer := autoRotateTimer c;
     totalImages := totalImages c; loadedImages := loadedImages c;
     listening := listening c ++ [i]; positioned := positioned c |}.

(** *** Rotation *)

(** [Array.prototype.pop]: the last element, if any, and what is left. *)
Definition pop (l : list Item) : option Item * list Item :=
  match l with
  | [] => (None, [])
  | x :: r => (Some (last r x), removelast l)
  end.

(** [Array.prototype.shift]. *)
Definition shift (l : list Item) : option Item * list Item :=
  match l with
  | [] => (None, [])
  | x :: r => (Some x, r)
  end.

(** The effect of [rotate(direction)] on [order]; an element is always
    truthy, so the [if (last)] and [if (first)] guards fail only on an
    empty array. *)
Definition rotate_order (direction : string) (order : list Item) : list Item :=
  if String.eqb direction "next" then
    match pop order with
    | (Some last, rest) => last :: rest
    | (None, rest) => rest
    end
  else
    match shift order with
    | (Some first, rest) => rest ++ [first]
    | (None, rest) => rest
    end.

Definition rotate (direction : string) (c : Carousel) : Carousel :=
  positionItems_called (set_order (rotate_order direction (order c)) c).

(** *** Timer and image gate *)

Definition startAutoRotate (c : Carousel) : Carousel := set_timer true c.

Definition stopAutoRotate (c : Carousel) : Carousel :=
  if autoRotateTimer c then set_timer false c else c.

Definition onImageLoad (c : Carousel) : Carousel :=
  let c := set_loaded (loadedImages c + 1) c in
  if totalImages c <=? loadedImages c
  then startAutoRotate (positionItems_called c)
  else c.

(** The body of [images.forEach]. *)
Definition visit_image (c : Carousel) (i : Img) : Carousel :=
  if complete i then onImageLoad c else listen (img i) c.

Definition isSome {A} (o : option A) : bool :=
  match o with Some _ => true | None => false end.

(** [initCircularTestimonials]: the page afterwards (the circle has the
    clones appended) and the closure it leaves behind, [None] when it
    returned at the guard. *)
Definition initCircularTestimonials (p : Page) : Page * option Carousel :=
  let circle_ := if wrapper p then circle p else None in
  let items := match circle_ with Some its => its | None => [] end in
  let prevBtn_ := if wrapper p then prevBtn p else false in
  let nextBtn_ := if wrapper p then nextBtn p else false in
  if negb (wrapper p) || negb (isSome circle_) || (List.length items =? 0)
     || negb prevBtn_ || negb nextBtn_
  then (p, None)
  else
    match items with
    | [] => (p, None)
    | b0 :: rest =>
        let items := pad_items b0 rest items in
        let p' := {| wrapper := wrapper p; circle := Some items;
                     prevBtn := prevBtn p; nextBtn := nextBtn p;
                     images := images p |} in
        let c := {| order := items; autoRotateTimer := false;
                    totalImages := List.length (images p); loadedImages := 0;
                    listening := []; positioned := 0 |} in
        let c := if totalImages c =? 0
                 then startAutoRotate (positionItems_called c)
                 else fold_left visit_image (images p) c in
        (p', Some (positionItems_called c))
    end.

(** What can happen to an initialised carousel. *)
Inductive Event :=
| ClickPrev | ClickNext
| MouseEnter | MouseLeave
| VisibilityChange (hidden : bool)
| Resize
| Tick (hidden : bool)              (* the interval elapses *)
| ImgLoad (i : nat) | ImgError (i : nat).

Definition step (ev : Event) (c : Carousel) : Carousel :=
  match ev with
  | ClickPrev => startAutoRotate (rotate "prev" c)
  | ClickNext => startAutoRotate (rotate "next" c)
  | MouseEnter => stopAutoRotate c
  | MouseLeave => startAutoRotate c
  | VisibilityChange hidden => if hidden then stopAutoRotate c else startAutoRotate c
  | Resize => positionItems_called c
  | Tick hidden =>
      if autoRotateTimer c then (if hidden then c else rotate "next" c) else c
  | ImgLoad i | ImgError i =>
      if existsb (Nat.eqb i) (listening c) then onImageLoad c else c
  end.

Definition run (evs : list Event) (c : Carousel) : Carousel :=
  fold_left (fun st ev => step ev st) evs c.

End CircularTestimonials.

(** *** Ring placement: [positionItems] over the reals *)

Module RingPlacement.

Import CircularTestimonials.
Local Open Scope R_scope.

(** [circle.getBoundingClientRect()] *)
Record Rect := { width : R; height : R }.

Section Placement.

Variable rect : Rect.
(** [item.offsetWidth] and [item.offsetHeight] *)
Variables offsetWidth offsetHeight : Item -> Z.

Definition baseSize : R := Rmin (width rect) (height rect).
Definition radius : R := Rmax 210 (baseSize * 0.55).
Definition centerX : R := width rect / 2.
Definition centerY : R := height rect / 2.

(** [order.length] is [n]. *)
Definition angleStep (n : nat) : R := (2 * PI) / INR n.

Definition angle (n index : nat) : R := angleStep n * INR index - PI / 2.

(** The pair written into [translate(x px, y px)] for one item. *)
Definition place (n index : nat) (item : Item) : R * R :=
  let x := centerX + radius * cos (angle n index) - IZR (offsetWidth item) / 2 in
  let y := centerY + radius * sin (angle n index) - IZR (offsetHeight item) / 2 in
  (x, y).

(** [order.forEach((item, index) => ...)], from [index] on. *)
Fixpoint place_from (n index : nat) (items : list Item) : list (R * R) :=
  match items with
  | [] => []
  | item :: more => place n index item :: place_from n (S index) more
  end.

Definition positionItems (order : list Item) : list (R * R) :=
  place_from (List.length order) 0 order.

(** The point an item is centred on: its top-left corner moved back
    by half its size. *)
Definition anchor_point (item : Item) (xy : R * R) : R * R :=
  (fst xy + IZR (offsetWidth item) / 2, snd xy + IZR (offsetHeight item) / 2).

End Placement.

(** The sum of [n] angular steps. *)
Fixpoint sum_steps (step : R) (n : nat) : R :=
  match n with
  | O => 0
  | S k => step + sum_steps step k
  end.

End RingPlacement.

(* ================================================================== *)
(** ** light-rays.js                                                   *)
(* ================================================================== *)

Module LightRays.

(** A JavaScript string is a sequence of 16-bit code units; they are kept
    as numbers, so nothing below depends on an alphabet bound. *)
Definition JsString := list N.

Definition js (s : string) : JsString :=
  List.map N_of_ascii (list_ascii_of_string s).

Definition js_eqb (a b : JsString) : bool :=
  if list_eq_dec N.eq_dec a b then true else false.

Local Open Scope N_scope.

(** *** The pattern of [hexToRgb] *)

Definition in_range (lo hi c : N) : bool := (lo <=? c) && (c <=? hi).

Definition to_upper (c : N) : N := if in_range 97 122 c then c - 32 else c.
Definition to_lower (c : N) : N := if in_range 65 90 c then c + 32 else c.

(** [[a-f\d]] under the [i] flag.  Case folding never takes a unit above
    127 to one below 128, so only the ASCII letters need both cases. *)
Definition class_af_d_i (c : N) : bool :=
  let member x := in_range 97 102 x || in_range 48 57 x in
  member c || member (to_lower c) || member (to_upper c).

(** The pieces the pattern is a sequence of. *)
Inductive Piece :=
| OptUnit (c : N)                          (* c? *)
| Group (cls : N -> bool) (n : nat)        (* ([cls]{n}) *).

(** [^#?([a-f\d]{2})([a-f\d]{2})([a-f\d]{2})$] with flag [i]. *)
Definition hex_pattern : list Piece :=
  [OptUnit 35; Group class_af_d_i 2; Group class_af_d_i 2; Group class_af_d_i 2].

(** [n] units of the class at the head of [s]: the capture and the rest. *)
Fixpoint take_class (cls : N -> bool) (n : nat) (s : JsString)
  : option (JsString * JsString) :=
  match n with
  | O => Some ([], s)
  | S k =>
      match s with
      | [] => None
      | c :: s' =>
          if cls c then
            match take_class cls k s' with
            | Some (g, r) => Some (c :: g, r)
            | None => None
            end
          else None
      end
  end.

(** A backtracking matcher anchored at both ends; the result is the list
    of captures.  [c?] is greedy: it first tries to consume. *)
Fixpoint match_pieces (ps : list Piece) (s : JsString) : option (list JsString) :=
  match ps with
  | [] => match s with [] => Some [] | _ :: _ => None end
  | OptUnit c :: ps' =>
      let skip := match_pieces ps' s in
      match s with
      | x :: s' =>
          if x =? c then
            match match_pieces ps' s' with
            | Some caps => Some caps
            | None => skip
            end
          else skip
      | [] => skip
      end
  | Group cls n :: ps' =>
      match take_class cls n s with
      | Some (g, r) =>
          match match_pieces ps' r with
          | Some caps => Some (g :: caps)
          | None => None
          end
      | None => None
      end
  end.

(** *** [parseInt(s, 16)] *)

Definition hex_digit (c : N) : option N :=
  if in_range 48 57 c then Some (c - 48)
  else if in_range 97 102 c then Some (c - 87)
  else if in_range 65 70 c then Some (c - 55)
  else None.

(** White space and line terminators that [parseInt] skips. *)
Definition is_space (c : N) : bool :=
  in_range 9 13 c || (c =? 32) || (c =? 160) || (c =? 5760)
  || in_range 8192 8202 c || (c =? 8232) || (c =? 8233) || (c =? 8239)
  || (c =? 8287) || (c =? 12288) || (c =? 65279).

Fixpoint skip_spaces (s : JsString) : JsString :=
  match s with
  | c :: s' => if is_space c then skip_spaces s' else s
  | [] => []
  end.

(** The value of the longest prefix of hexadecimal digits. *)
Fixpoint digits16 (acc : N) (s : JsString) : N :=
  match s with
  | c :: s' =>
      match hex_digit c with
      | Some d => digits16 (16 * acc + d) s'
      | None => acc
      end
  | [] => acc
  end.

(** An optional sign at the head: the sign and the rest. *)
Definition strip_sign (s : JsString) : Z * JsString :=
  match s with
  | c :: r => if c =? 45 then ((-1)%Z, r)
              else if c =? 43 then (1%Z, r) else (1%Z, s)
  | [] => (1%Z, s)
  end.

(** An optional [0x] or [0X] at the head, dropped for radix 16. *)
Definition strip_0x (s : JsString) : JsString :=
  match s with
  | c1 :: c2 :: r => if (c1 =? 48) && ((c2 =? 120) || (c2 =? 88)) then r else s
  | _ => s
  end.

(** [None] is NaN. *)
Definition parseInt16 (s : JsString) : option Z :=
  let '(sign, s) := strip_sign (skip_spaces s) in
  let s := strip_0x s in
  match s with
  | c :: _ =>
      match hex_digit c with
      | Some _ => Some (sign * Z.of_N (digits16 0 s))%Z
      | None => None
      end
  | [] => None
  end.

(** A JavaScript number: a rational, or NaN as [None]. *)
Definition Num := option Q.

Definition div255 (v : option Z) : Num :=
  match v with
  | Some z => Some (inject_Z z / 255)%Q
  | None => None
  end.

Definition white : list Num := [Some 1%Q; Some 1%Q; Some 1%Q].

Definition hexToRgb (hex : JsString) : list Num :=
  match match_pieces hex_pattern hex with
  | Some [m1; m2; m3] =>
      [div255 (parseInt16 m1); div255 (parseInt16 m2); div255 (parseInt16 m3)]
  | _ => white
  end.

(** *** [getAnchorAndDir] *)

Local Open Scope Q_scope.

Record Placement := { anchor : Q * Q; dir : Q * Q }.

Definition outside : Q := 0.2.

Definition getAnchorAndDir (origin : JsString) (w h : Q) : Placement :=
  if js_eqb origin (js "top-left") then
    {| anchor := (0, - outside * h); dir := (0, 1) |}
  else if js_eqb origin (js "top-right") then
    {| anchor := (w, - outside * h); dir := (0, 1) |}
  else if js_eqb origin (js "left") then
    {| anchor := (- outside * w, 0.5 * h); dir := (1, 0) |}
  else if js_eqb origin (js "right") then
    {| anchor := ((1 + outside) * w, 0.5 * h); dir := (-1, 0) |}
  else if js_eqb origin (js "bottom-left") then
    {| anchor := (0, (1 + outside) * h); dir := (0, -1) |}
  else if js_eqb origin (js "bottom-center") then
    {| anchor := (0.5 * w, (1 + outside) * h); dir := (0, -1) |}
  else if js_eqb origin (js "bottom-right") then
    {| anchor := (w, (1 + outside) * h); dir := (0, -1) |}
  else (* default: "top-center" *)
    {| anchor := (0.5 * w, - outside * h); dir := (0, 1) |}.

(** *** The [LightRays] class *)

(** Values an option can hold.  Numbers are rationals; NaN and objects
    do not occur among the options. *)
Inductive JsVal :=
| VUndefined
| VNull
| VBool (b : bool)
| VNum (q : Q)
| VStr (s : string).

(** ToBoolean *)
Definition truthy (v : JsVal) : bool :=
  match v with
  | VUndefined | VNull => false
  | VBool b => b
  | VNum q => negb (Qeq_bool q 0)
  | VStr s => negb (String.eqb s EmptyString)
  end.

(** An object literal: its own properties in insertion order. *)
Definition Obj := list (string * JsVal).

(** [o.k]: [undefined] when [k] is not a property. *)
Fixpoint get (o : Obj) (k : string) : JsVal :=
  match o with
  | [] => VUndefined
  | (k', v) :: rest => if String.eqb k' k then v else get rest k
  end.

Fixpoint has (o : Obj) (k : string) : bool :=
  match o with
  | [] => false
  | (k', _) :: rest => String.eqb k' k || has rest k
  end.

(** Defining a property: the value of an existing key is replaced in
    place, a new key goes to the end. *)
Fixpoint set (o : Obj) (k : string) (v : JsVal) : Obj :=
  match o with
  | [] => [(k, v)]
  | (k', v') :: rest =>
      if String.eqb k' k then (k', v) :: rest else (k', v') :: set rest k v
  end.

(** [{ ...target, ...source }] onto an object already holding [target]. *)
Definition spread (target source : Obj) : Obj :=
  fold_left (fun o kv => set o (fst kv) (snd kv)) source target.

(** [a || b] *)
Definition js_or (a b : JsVal) : JsVal := if truthy a then a else b.

(** The [this.options] the constructor builds from its [options]
    argument. *)
Definition build_options (options : Obj) : Obj :=
  spread
    [("raysOrigin", js_or (get options "raysOrigin") (VStr "top-center"));
     ("raysColor", js_or (get options "raysColor") (VStr "#ffffff"));
     ("raysSpeed", js_or (get options "raysSpeed") (VNum 1));
     ("lightSpread", js_or (get options "lightSpread") (VNum 1));
     ("rayLength", js_or (get options "rayLength") (VNum 2));
     ("pulsating", js_or (get options "pulsating") (VBool false));
     ("fadeDistance", js_or (get options "fadeDistance") (VNum 1));
     ("saturation", js_or (get options "saturation") (VNum 1));
     ("followMouse",
       match get options "followMouse" with
       | VUndefined => VBool true
       | v => v
       end);
     ("mouseInfluence", js_or (get options "mouseInfluence") (VNum 0.1));
     ("noiseAmount", js_or (get options "noiseAmount") (VNum 0));
     ("distortion", js_or (get options "distortion") (VNum 0))]%string
    options.

(** The defaults: what [new LightRays(container)] gets. *)
Definition default_options : Obj := build_options [].

(** **** Life cycle *)

(** The closures pushed on [cleanupFunctions]. *)
Inductive Cleanup :=
| RemoveMouseMove               (* removes handleMouseMove from window *)
| RemoveResize (ctx : nat)      (* removes the updateSize of one canvas *).

(** What the browser answers during one [initializeWebGL]. *)
Record GlEnv := {
  context_ok : bool;     (* getContext('webgl') is not null *)
  vertex_ok : bool;      (* the vertex shader compiles *)
  fragment_ok : bool;    (* the fragment shader compiles *)
  link_ok : bool         (* the program links *)
}.

(** The fields of an instance, and the parts of the page and the browser
    that only this instance changes.  A rendering context is named by
    the number of the canvas it belongs to. *)
Record Rays := {
  container : bool;
  followMouse : bool;                (* options.followMouse is truthy *)
  mouseInfluence : Q;                (* options.mouseInfluence *)
  gl : option nat;
  program : bool;
  animationId : option nat;
  mouse : Q * Q;
  smoothMouse : Q * Q;
  isVisible : bool;
  observer : bool;
  cleanupFunctions : list Cleanup;
  time : Q;
  canvases : nat;                    (* canvases created; the last is shown *)
  lostContexts : list nat;           (* contexts given up by loseContext() *)
  mouseListener : bool;              (* handleMouseMove is on window *)
  resizeListeners : list nat;        (* updateSize closures on window *)
  frames : list (nat * nat);         (* pending animation frames: id, context
                                        of the loop closure *)
  frameCount : nat;                  (* ids handed out so far *)
  drawn : list nat                   (* contexts drawn on, newest first *)
}.

(** The constructor's field initialisers. *)
Definition new_rays (hasContainer follow : bool) (influence : Q) : Rays :=
  {| container := hasContainer; followMouse := follow;
     mouseInfluence := influence;
     gl := None; program := false; animationId := None;
     mouse := (0.5, 0.5)%Q; smoothMouse := (0.5, 0.5)%Q;
     isVisible := false; observer := false; cleanupFunctions := [];
     time := 0%Q; canvases := 0; lostContexts := [];
     mouseListener := false; resizeListeners := []; frames := [];
     frameCount := 0; drawn := [] |}.

Definition rays_init (r : Rays) : Rays :=
  if container r then
    if followMouse r then
      {| container := container r; followMouse := followMouse r;
         mouseInfluence := mouseInfluence r;
         gl := gl r; program := program r; animationId := animationId r;
         mouse := mouse r; smoothMouse := smoothMouse r;
         isVisible := isVisible r; observer := true;
         cleanupFunctions := cleanupFunctions r ++ [RemoveMouseMove];
         time := time r; canvases := canvases r;
         lostContexts := lostContexts r;
         mouseListener := true; resizeListeners := resizeListeners r;
         frames := frames r; frameCount := frameCount r; drawn := drawn r |}
    else
      {| container := container r; followMouse := followMouse r;
         mouseInfluence := mouseInfluence r;
         gl := gl r; program := program r; animationId := animationId r;
         mouse := mouse r; smoothMouse := smoothMouse r;
         isVisible := isVisible r; observer := true;
         cleanupFunctions := cleanupFunctions r;
         time := time r; canvases := canvases r;
         lostContexts := lostContexts r;
         mouseListener := mouseListener r; resizeListeners := resizeListeners r;
         frames := frames r; frameCount := frameCount r; drawn := drawn r |}
  else r.

(** [new LightRays(container, options)] *)
Definition construct (hasContainer follow : bool) (influence : Q) : Rays :=
  rays_init (new_rays hasContainer follow influence).

(** [requestAnimationFrame(loop)] from the loop closure of context
    [ctx]; the id goes to [animationId]. *)
Definition request_frame (ctx : nat) (r : Rays) : Rays :=
  let id := S (frameCount r) in
  {| container := container r; followMouse := followMouse r;
     mouseInfluence := mouseInfluence r;
     gl := gl r; program := program r; animationId := Some id;
     mouse := mouse r; smoothMouse := smoothMouse r;
     isVisible := isVisible r; observer := observer r;
     cleanupFunctions := cleanupFunctions r;
     time := time r; canvases := canvases r; lostContexts := lostContexts r;
     mouseListener := mouseListener r; resizeListeners := resizeListeners r;
     frames := frames r ++ [(id, ctx)]; frameCount := id; drawn := drawn r |}.

(** [initializeWebGL] *)
Definition initializeWebGL (env : GlEnv) (r : Rays) : Rays :=
  if container r then
    let ctx := S (canvases r) in
    if context_ok env then
      let compiled := vertex_ok env && fragment_ok env in
      let r1 :=
        {| container := container r; followMouse := followMouse r;
           mouseInfluence := mouseInfluence r;
           gl := Some ctx;
           program := if compiled then link_ok env else program r;
           animationId := animationId r;
           mouse := mouse r; smoothMouse := smoothMouse r;
           isVisible := isVisible r; observer := observer r;
           cleanupFunctions := cleanupFunctions r ++ [RemoveResize ctx];
           time := time r; canvases := ctx; lostContexts := lostContexts r;
           mouseListener := mouseListener r;
           resizeListeners := resizeListeners r ++ [ctx];
           frames := frames r; frameCount := frameCount r; drawn := drawn r |} in
      if compiled && link_ok env then request_frame ctx r1 else r1
    else
      {| container := container r; followMouse := followMouse r;
         mouseInfluence := mouseInfluence r;
         gl := gl r; program := program r; animationId := animationId r;
         mouse := mouse r; smoothMouse := smoothMouse r;
         isVisible := isVisible r; observer := observer r;
         cleanupFunctions := cleanupFunctions r;
         time := time r; canvases := ctx; lostContexts := lostContexts r;
         mouseListener := mouseListener r; resizeListeners := resizeListeners r;
         frames := frames r; frameCount := frameCount r; drawn := drawn r |}
  else r.

(** [q > 0.0] *)
Definition Qltb0 (q : Q) : bool := negb (Qle_bool q 0).

(** One step of the exponential smoothing in [loop]. *)
Definition smooth (s m : Q) : Q := (s * 0.92 + m * (1 - 0.92))%Q.

(** The body of [loop(currentTime)] of the closure of context [ctx]. *)
Definition loop (ctx : nat) (currentTime : Q) (r : Rays) : Rays :=
  match gl r with
  | None => r
  | Some _ =>
      if isVisible r then
        let follow := followMouse r && Qltb0 (mouseInfluence r) in
        let sm := if follow
                  then (smooth (fst (smoothMouse r)) (fst (mouse r)),
                        smooth (snd (smoothMouse r)) (snd (mouse r)))
                  else smoothMouse r in
        request_frame ctx
          {| container := container r; followMouse := followMouse r;
             mouseInfluence := mouseInfluence r;
             gl := gl r; program := program r; animationId := animationId r;
             mouse := mouse r; smoothMouse := sm;
             isVisible := isVisible r; observer := observer r;
             cleanupFunctions := cleanupFunctions r;
             time := (currentTime * 0.001)%Q; canvases := canvases r;
             lostContexts := lostContexts r;
             mouseListener := mouseListener r;
             resizeListeners := resizeListeners r;
             frames := frames r; frameCount := frameCount r;
             drawn := ctx :: drawn r |}
      else r
  end.

Definition run_cleanup (c : Cleanup) (listeners : bool * list nat)
  : bool * list nat :=
  match c with
  | RemoveMouseMove => (false, snd listeners)
  | RemoveResize ctx =>
      (fst listeners, filter (fun x => negb (Nat.eqb x ctx)) (snd listeners))
  end.

(** [cleanup()]; [lose_ext] says whether the context offers
    [WEBGL_lose_context]. *)
Definition cleanup (lose_ext : bool) (r : Rays) : Rays :=
  let frames' := match animationId r with
                 | Some id => filter (fun f => negb (Nat.eqb (fst f) id)) (frames r)
                 | None => frames r
                 end in
  let lost' := match gl r with
               | Some ctx => if lose_ext then lostContexts r ++ [ctx]
                             else lostContexts r
               | None => lostContexts r
               end in
  let listeners := fold_left (fun l c => run_cleanup c l) (cleanupFunctions r)
                             (mouseListener r, resizeListeners r) in
  {| container := container r; followMouse := followMouse r;
     mouseInfluence := mouseInfluence r;
     gl := None; program := false; animationId := None;
     mouse := mouse r; smoothMouse := smoothMouse r;
     isVisible := isVisible r; observer := observer r;
     cleanupFunctions := [];
     time := time r; canvases := canvases r; lostContexts := lost';
     mouseListener := fst listeners; resizeListeners := snd listeners;
     frames := frames'; frameCount := frameCount r; drawn := drawn r |}.

Definition set_visible (v : bool) (r : Rays) : Rays :=
  {| container := container r; followMouse := followMouse r;
     mouseInfluence := mouseInfluence r;
     gl := gl r; program := program r; animationId := animationId r;
     mouse := mouse r; smoothMouse := smoothMouse r;
     isVisible := v; observer := observer r;
     cleanupFunctions := cleanupFunctions r;
     time := time r; canvases := canvases r; lostContexts := lostContexts r;
     mouseListener := mouseListener r; resizeListeners := resizeListeners r;
     frames := frames r; frameCount := frameCount r; drawn := drawn r |}.

Definition set_mouse (m : Q * Q) (r : Rays) : Rays :=
  {| container := container r; followMouse := followMouse r;
     mouseInfluence := mouseInfluence r;
     gl := gl r; program := program r; animationId := animationId r;
     mouse := m; smoothMouse := smoothMouse r;
     isVisible := isVisible r; observer := observer r;
     cleanupFunctions := cleanupFunctions r;
     time := time r; canvases := canvases r; lostContexts := lostContexts r;
     mouseListener := mouseListener r; resizeListeners := resizeListeners r;
     frames := frames r; frameCount := frameCount r; drawn := drawn r |}.

Definition disconnect (r : Rays) : Rays :=
  {| container := container r; followMouse := followMouse r;
     mouseInfluence := mouseInfluence r;
     gl := gl r; program := program r; animationId := animationId r;
     mouse := mouse r; smoothMouse := smoothMouse r;
     isVisible := isVisible r; observer := false;
     cleanupFunctions := cleanupFunctions r;
     time := time r; canvases := canvases r; lostContexts := lostContexts r;
     mouseListener := mouseListener r; resizeListeners := resizeListeners r;
     frames := frames r; frameCount := frameCount r; drawn := drawn r |}.

Definition take_frame (id : nat) (r : Rays) : Rays :=
  {| container := container r; followMouse := followMouse r;
     mouseInfluence := mouseInfluence r;
     gl := gl r; program := program r; animationId := animationId r;
     mouse := mouse r; smoothMouse := smoothMouse r;
     isVisible := isVisible r; observer := observer r;
     cleanupFunctions := cleanupFunctions r;
     time := time r; canvases := canvases r; lostContexts := lostContexts r;
     mouseListener := mouseListener r; resizeListeners := resizeListeners r;
     frames := filter (fun f => negb (Nat.eqb (fst f) id)) (frames r);
     frameCount := frameCount r; drawn := drawn r |}.

(** [destroy()] *)
Definition destroy (lose_ext : bool) (r : Rays) : Rays :=
  cleanup lose_ext (if observer r then disconnect r else r).

(** The container's bounding rectangle at a mouse move. *)
Record ClientRect := { rect_left : Q; rect_top : Q; rect_width : Q; rect_height : Q }.

(** [handleMouseMove] *)
Definition handleMouseMove (clientX clientY : Q) (rect : ClientRect) (r : Rays) : Rays :=
  if container r then
    set_mouse (((clientX - rect_left rect) / rect_width rect)%Q,
               ((clientY - rect_top rect) / rect_height rect)%Q) r
  else r.

(** What the browser delivers to an instance. *)
Inductive RaysEvent :=
| Intersect (isIntersecting : bool) (env : GlEnv) (lose_ext : bool)
| Frame (id : nat) (currentTime : Q)
| MouseMoved (clientX clientY : Q) (rect : ClientRect)
| Destroy (lose_ext : bool).

Definition rays_step (ev : RaysEvent) (r : Rays) : Rays :=
  match ev with
  | Intersect v env lose_ext =>
      if observer r then
        let r := set_visible v r in
        if v then initializeWebGL env r else cleanup lose_ext r
      else r
  | Frame id t =>
      match find (fun f => Nat.eqb (fst f) id) (frames r) with
      | Some (_, ctx) => loop ctx t (take_frame id r)
      | None => r
      end
  | MouseMoved x y rect =>
      if mouseListener r then handleMouseMove x y rect r else r
  | Destroy lose_ext => destroy lose_ext r
  end.

Definition rays_run (evs : list RaysEvent) (r : Rays) : Rays :=
  fold_left (fun st ev => rays_step ev st) evs r.

End LightRays.

(* ================================================================== *)
(** ** theme-1.js: the page's other handlers                           *)
(* ================================================================== *)

Module Theme1.

Import LightRays.

Local Open Scope N_scope.

(** *** String helpers of the script *)

(** [s.split('/')] *)
Fixpoint split_slash (s : JsString) : list JsString :=
  match s with
  | [] => [[]]
  | c :: r =>
      match split_slash r with
      | hd :: tl => if c =? 47 then [] :: hd :: tl else (c :: hd) :: tl
      | [] => [[c]]
      end
  end.

(** [parts.join('/')] *)
Fixpoint join_slash (parts : list JsString) : JsString :=
  match parts with
  | [] => []
  | [p] => p
  | p :: rest => p ++ 47 :: join_slash rest
  end.

(** [s.startsWith(prefix)] *)
Fixpoint startsWith (prefix s : JsString) : bool :=
  match prefix, s with
  | [], _ => true
  | p :: ps, c :: cs => (c =? p) && startsWith ps cs
  | _ :: _, [] => false
  end.

(** [s.includes(needle)] *)
Fixpoint includes (needle s : JsString) : bool :=
  startsWith needle s ||
  match s with
  | [] => false
  | _ :: cs => includes needle cs
  end.

(** A string is truthy when it is not empty. *)
Definition nonempty (s : JsString) : bool :=
  match s with [] => false | _ :: _ => true end.

(** *** [loadLanguageFile] *)

(** The computation of [fullPath] from [window.location.pathname] and
    the [filePath] argument. *)
Definition full_path (currentPath filePath : JsString) : JsString :=
  if startsWith [47] filePath then filePath
  else
    let pathParts := filter nonempty (split_slash currentPath) in
    let popped :=
      match rev pathParts with
      | fileName :: _ =>
          if nonempty fileName && includes (js ".html") fileName
          then removelast pathParts else pathParts
      | [] => pathParts
      end in
    let basePath :=
      if (0 <? List.length popped)%nat then 47 :: join_slash popped ++ [47]
      else [] in
    basePath ++ filePath.

(** How the fetch of the language file ends. *)
Inductive Fetched :=
| NetworkError
| HttpStatus                  (* [response.ok] is false *)
| Document (hasSection : bool)(* whether a [.theme-1] or section is found *).

Inductive LoadOutcome :=
| NothingDone                 (* no [.theme-1] on the page: only logged *)
| Replaced (path : JsString)  (* section swapped, [init] scheduled *)
| Restored (path : JsString)  (* loading state undone, page as before *)
| Navigated (path : JsString) (* [window.location.href = fullPath] *).

Definition loadLanguageFile (hasTheme : bool) (currentPath filePath : JsString)
  (fetched : Fetched) : LoadOutcome :=
  if hasTheme then
    let fullPath := full_path currentPath filePath in
    match fetched with
    | NetworkError | HttpStatus => Navigated fullPath
    | Document true => Replaced fullPath
    | Document false => Restored fullPath
    end
  else NothingDone.

(** *** [initLanguageDropdown] *)

(** [localStorage], as far as the script uses it; [None] is a key that
    is not set. *)
Record Storage := {
  selectedLanguage : option JsString;
  selectedLanguageName : option JsString
}.

(** An [a] of the language menu with the attributes the script reads. *)
Record LangOption := {
  data_lang : option JsString;
  data_lang_name : option JsString;
  href : option JsString;
  option_active : bool
}.

Record LangState := {
  storage : Storage;
  currentLang : option JsString;
  langCurrentText : JsString;        (* langCurrent.textContent *)
  dir : JsString;                    (* dir of the document element *)
  lang : JsString;                   (* lang of the document element *)
  dropdownActive : bool;
  options : list LangOption;
  loads : list JsString              (* arguments of loadLanguageFile, newest first *)
}.

(** A value used as a condition: [null] and the empty string are falsy. *)
Definition truthy_string (v : option JsString) : bool :=
  match v with Some s => nonempty s | None => false end.

(** Assigning to [textContent]: [null] gives the empty text. *)
Definition text_of (v : option JsString) : JsString :=
  match v with Some s => s | None => [] end.

(** [localStorage.setItem(key, v)] stores the string form of [v]. *)
Definition stored (v : option JsString) : option JsString :=
  match v with Some s => Some s | None => Some (js "null") end.

Definition opt_eqb (a b : option JsString) : bool :=
  match a, b with
  | Some x, Some y => js_eqb x y
  | None, None => true
  | _, _ => false
  end.

Definition arabic_name : JsString := [1575; 1604; 1593; 1585; 1576; 1610; 1577].

Definition mark_current (cur : option JsString) (o : LangOption) : LangOption :=
  if opt_eqb (data_lang o) cur
  then {| data_lang := data_lang o; data_lang_name := data_lang_name o;
          href := href o; option_active := true |}
  else o.

(** [initLanguageDropdown] with every anchor present: [pathname] is
    [window.location.pathname], [st] the storage found, [dropdown]
    whether the dropdown carries [active], [opts] the menu's links. *)
Definition initLanguageDropdown (pathname : JsString) (st : Storage)
  (dropdown : bool) (opts : list LangOption) : LangState :=
  let '(cur, name, st') :=
    if truthy_string (selectedLanguage st)
    then (selectedLanguage st, selectedLanguageName st, st)
    else
      let '(l, n) := if includes (js "index-en.html") pathname
                     then (js "en", js "English")
                     else (js "ar", arabic_name) in
      (Some l, Some n,
       {| selectedLanguage := Some l; selectedLanguageName := Some n |}) in
  let rtl := opt_eqb cur (Some (js "ar")) in
  {| storage := st'; currentLang := cur; langCurrentText := text_of name;
     dir := if rtl then js "rtl" else js "ltr";
     lang := if rtl then js "ar" else js "en";
     dropdownActive := dropdown;
     options := List.map (mark_current cur) opts;
     loads := [] |}.

Definition deactivate (o : LangOption) : LangOption :=
  {| data_lang := data_lang o; data_lang_name := data_lang_name o;
     href := href o; option_active := false |}.

(** The options after a click on the [k]th: all lose [active], then
    the clicked one gets it. *)
Fixpoint activate_only (k : nat) (opts : list LangOption) : list LangOption :=
  match opts with
  | [] => []
  | o :: rest =>
      match k with
      | O => {| data_lang := data_lang o; data_lang_name := data_lang_name o;
                href := href o; option_active := true |}
             :: List.map deactivate rest
      | S k' => deactivate o :: activate_only k' rest
      end
  end.

(** The click handler of the [k]th option. *)
Definition select_language (k : nat) (s : LangState) : LangState :=
  match nth_error (options s) k with
  | None => s
  | Some o =>
      if opt_eqb (data_lang o) (currentLang s) then
        {| storage := storage s; currentLang := currentLang s;
           langCurrentText := langCurrentText s; dir := dir s; lang := lang s;
           dropdownActive := false; options := options s; loads := loads s |}
      else
        let filePath :=
          if truthy_string (href o) then text_of (href o)
          else if opt_eqb (data_lang o) (Some (js "ar"))
               then js "index.html" else js "index-en.html" in
        {| storage := {| selectedLanguage := stored (data_lang o);
                         selectedLanguageName := stored (data_lang_name o) |};
           currentLang := data_lang o;
           langCurrentText := text_of (data_lang_name o);
           dir := dir s; lang := lang s;
           dropdownActive := false;
           options := activate_only k (options s);
           loads := filePath :: loads s |}
  end.

(** *** [initContactForm] *)

(** [[^\s@]]: neither white space nor [@]. *)
Definition email_unit (c : N) : bool := negb (is_space c) && negb (c =? 64).

(** The atoms the e-mail pattern is a sequence of. *)
Inductive Atom :=
| Lit (c : N)                 (* one given unit *)
| Plus (cls : N -> bool)      (* [cls]+ *).

(** A backtracking matcher, anchored at both ends. *)
Fixpoint match_atoms (atoms : list Atom) (s : JsString) : bool :=
  match atoms with
  | [] => match s with [] => true | _ :: _ => false end
  | Lit c :: atoms' =>
      match s with
      | x :: s' => (x =? c) && match_atoms atoms' s'
      | [] => false
      end
  | Plus cls :: atoms' =>
      (fix more (s : JsString) : bool :=
         match s with
         | x :: s' => cls x && (more s' || match_atoms atoms' s')
         | [] => false
         end) s
  end.

(** [/^[^\s@]+@[^\s@]+\.[^\s@]+$/] *)
Definition emailRegex : list Atom :=
  [Plus email_unit; Lit 64; Plus email_unit; Lit 46; Plus email_unit].

(** The fields read from the form; [None] is a missing field. *)
Record FormData := {
  form_name : option JsString;
  form_email : option JsString;
  form_phone : option JsString;
  form_message : option JsString
}.

Inductive Submitted :=
| AlertFillAll            (* 'Please fill in all fields' *)
| AlertInvalidEmail       (* 'Please enter a valid email address' *)
| ThankedAndReset         (* logged, thanked, form reset *).

(** The submit handler. *)
Definition submit (data : FormData) : Submitted :=
  if negb (truthy_string (form_name data)) || negb (truthy_string (form_email data))
     || negb (truthy_string (form_phone data))
     || negb (truthy_string (form_message data))
  then AlertFillAll
  else if negb (match_atoms emailRegex (text_of (form_email data)))
       then AlertInvalidEmail
       else ThankedAndReset.

(** *** [initCourseModules] *)

(** A [.module-card]: whether it is [active], and the text of its
    [.toggle-icon] when it has one. *)
Record ModuleCard := { card_active : bool; icon : option JsString }.

Definition plus_sign : JsString := [43].
Definition minus_sign : JsString := [8722].

Definition set_icon (t : JsString) (c : ModuleCard) : option JsString :=
  match icon c with Some _ => Some t | None => None end.

Definition close_card (c : ModuleCard) : ModuleCard :=
  {| card_active := false; icon := set_icon plus_sign c |}.

Definition open_card (c : ModuleCard) : ModuleCard :=
  {| card_active := true; icon := set_icon minus_sign c |}.

(** [moduleCards.forEach] closing the active cards other than [index]. *)
Fixpoint close_others (index : nat) (pos : nat) (cards : list ModuleCard)
  : list ModuleCard :=
  match cards with
  | [] => []
  | c :: rest =>
      (if negb (Nat.eqb pos index) && card_active c then close_card c else c)
      :: close_others index (S pos) rest
  end.

Fixpoint update_nth (k : nat) (f : ModuleCard -> ModuleCard)
  (cards : list ModuleCard) : list ModuleCard :=
  match cards, k with
  | [], _ => []
  | c :: rest, O => f c :: rest
  | c :: rest, S k' => c :: update_nth k' f rest
  end.

(** The click handler of header (or toggle) [index]; [None] is the
    TypeError when there is no card of that index. *)
Definition toggle_module (index : nat) (cards : list ModuleCard)
  : option (list ModuleCard) :=
  match nth_error cards index with
  | None => None
  | Some card =>
      if card_active card then Some (update_nth index close_card cards)
      else Some (update_nth index open_card (close_others index 0 cards))
  end.

(** *** [initFAQ] *)

(** A [.faq-item] holding one [.faq-question]: whether the item is
    [active], and the question's [aria-expanded] ([None]: not set). *)
Record FaqItem := { faq_active : bool; aria_expanded : option bool }.

Definition faq_close (i : FaqItem) : FaqItem :=
  {| faq_active := false; aria_expanded := Some false |}.

Definition faq_open (i : FaqItem) : FaqItem :=
  {| faq_active := true; aria_expanded := Some true |}.

Fixpoint faq_update (k : nat) (f : FaqItem -> FaqItem) (items : list FaqItem)
  : list FaqItem :=
  match items, k with
  | [], _ => []
  | i :: rest, O => f i :: rest
  | i :: rest, S k' => i :: faq_update k' f rest
  end.

(** The click handler of the question of item [k]. *)
Definition toggle_faq (k : nat) (items : list FaqItem) : list FaqItem :=
  match nth_error items k with
  | None => items
  | Some item =>
      let closed := List.map faq_close items in
      if faq_active item then closed else faq_update k faq_open closed
  end.

(** *** [initPricingToggle] *)

(** A [.price-amount] with its two attributes and its text. *)
Record Price := {
  data_monthly : option JsString;
  data_yearly : option JsString;
  price_text : JsString
}.

Record Pricing := {
  monthly_active : bool;
  yearly_active : bool;
  prices : list Price
}.

Inductive Period := Monthly | Yearly.

Definition show (p : Period) (x : Price) : Price :=
  {| data_monthly := data_monthly x; data_yearly := data_yearly x;
     price_text := match p with
                   | Monthly => text_of (data_monthly x)
                   | Yearly => text_of (data_yearly x)
                   end |}.

Definition updatePrices (p : Period) (s : Pricing) : list Price :=
  List.map (show p) (prices s).

(** [initPricingToggle] when both buttons and a price exist; [rtl] is
    whether the document's [dir] is ['rtl']. *)
Definition initPricingToggle (rtl : bool) (s : Pricing) : Pricing :=
  match prices s with
  | [] => s
  | _ :: _ =>
      if rtl
      then {| monthly_active := false; yearly_active := true;
              prices := updatePrices Yearly s |}
      else {| monthly_active := true; yearly_active := false;
              prices := updatePrices Monthly s |}
  end.

(** The click handlers of the two buttons. *)
Definition click_period (p : Period) (s : Pricing) : Pricing :=
  match p with
  | Monthly =>
      if monthly_active s then s
      else {| monthly_active := true; yearly_active := false;
              prices := updatePrices Monthly s |}
  | Yearly =>
      if yearly_active s then s
      else {| monthly_active := false; yearly_active := true;
              prices := updatePrices Yearly s |}
  end.

(** *** The language menu over a session *)

(** [loadLanguageFile] swaps the loaded section in and, 100 ms later,
    runs [init] again, and with it [initLanguageDropdown], with no
    page load in between.  Every run has its own [currentLang] and
    adds its own click handlers; the handlers of an earlier run stay
    on the elements that are still in the document.  [page] holds the
    document, the storage and the variable of the newest run; [older]
    the variables of the earlier runs whose handlers are still
    attached, oldest first. *)
Record MenuSession := {
  page : LangState;
  older : list (option JsString)
}.

Definition with_currentLang (cur : option JsString) (s : LangState) : LangState :=
  {| storage := storage s; currentLang := cur;
     langCurrentText := langCurrentText s; dir := dir s; lang := lang s;
     dropdownActive := dropdownActive s; options := options s;
     loads := loads s |}.

Definition with_loads (l : list JsString) (s : LangState) : LangState :=
  {| storage := storage s; currentLang := currentLang s;
     langCurrentText := langCurrentText s; dir := dir s; lang := lang s;
     dropdownActive := dropdownActive s; options := options s;
     loads := l |}.

Definition with_options (opts : list LangOption) (s : LangState) : LangState :=
  {| storage := storage s; currentLang := currentLang s;
     langCurrentText := langCurrentText s; dir := dir s; lang := lang s;
     dropdownActive := dropdownActive s; options := opts;
     loads := loads s |}.

(** The click handler of a run whose variable holds [cur], on the
    document [s]: what it leaves in its variable, and the document. *)
Definition handler (k : nat) (cur : option JsString) (s : LangState)
  : option JsString * LangState :=
  let s' := select_language k (with_currentLang cur s) in
  (currentLang s', with_currentLang (currentLang s) s').

(** The handlers of the earlier runs, in the order they were added. *)
Fixpoint run_older (k : nat) (olds : list (option JsString)) (s : LangState)
  : list (option JsString) * LangState :=
  match olds with
  | [] => ([], s)
  | cur :: rest =>
      let '(cur', s1) := handler k cur s in
      let '(rest', s2) := run_older k rest s1 in
      (cur' :: rest', s2)
  end.

(** A click on option [k]: every handler on it runs, the newest last. *)
Definition click_option (k : nat) (m : MenuSession) : MenuSession :=
  let '(olds, s1) := run_older k (older m) (page m) in
  {| page := select_language k s1; older := olds |}.

(** What the next run of [init] finds: the menu that was there (it
    lies outside the swapped section), a new one that came with the
    section, or none. *)
Inductive Menu :=
| SameMenu
| NewMenu (dropdown : bool) (opts : list LangOption)
| NoMenu.

(** [initLanguageDropdown] run again; [pathname] has not changed. *)
Definition init_again (pathname : JsString) (menu : Menu) (m : MenuSession)
  : MenuSession :=
  let s := page m in
  match menu with
  | SameMenu =>
      {| page := with_loads (loads s)
                   (initLanguageDropdown pathname (storage s)
                      (dropdownActive s) (options s));
         older := older m ++ [currentLang s] |}
  | NewMenu dropdown opts =>
      {| page := with_loads (loads s)
                   (initLanguageDropdown pathname (storage s) dropdown opts);
         older := [] |}
  | NoMenu => {| page := with_options [] s; older := [] |}
  end.

Inductive MenuEvent :=
| ClickOption (k : nat)
| InitAgain (menu : Menu).

Definition menu_step (pathname : JsString) (ev : MenuEvent) (m : MenuSession)
  : MenuSession :=
  match ev with
  | ClickOption k => click_option k m
  | InitAgain menu => init_again pathname menu m
  end.

Definition menu_run (pathname : JsString) (evs : list MenuEvent)
  (m : MenuSession) : MenuSession :=
  fold_left (fun m ev => menu_step pathname ev m) evs m.

(** The first run, at the load of the page. *)
Definition menu_start (pathname : JsString) (st : Storage) (dropdown : bool)
  (opts : list LangOption) : MenuSession :=
  {| page := initLanguageDropdown pathname st dropdown opts; older := [] |}.

End Theme1.

(* ================================================================== *)
(** * Properties                                                       *)
(* ================================================================== *)

(** ** The video-testimonial slider *)

Module SliderFacts.

Import VideoTestimonials.
Local Open Scope Z_scope.

(** The track is cloned, the slide count is [N], no timeout is pending. *)
Definition Ready (N : Z) (s : Slider) : Prop :=
  totalSlides s = N /\ Z.of_nat (List.length (cards s)) = 3 * N /\ timeouts s = [].

(** The translate value [update] writes for a cursor. *)
Definition translate_of (e : Env) (cur : Z) : Q :=
  inject_Z (if isRTL e then offset_at e cur else - offset_at e cur).

(** Where a settled loop check leaves a cursor that [next] or [prev]
    moved to [c]. *)
Definition rehomed (N c : Z) : Z :=
  if 2 * N <=? c then N else if c <? N then 2 * N - 1 else c.

(** *** Fields that [updatePagination] and [update] leave alone *)

Ltac unfold_update :=
  unfold update, updatePagination;
  repeat match goal with
         | |- context [match cards ?s with _ => _ end] => destruct (cards s) eqn:?
         | |- context [match pagination ?s with _ => _ end] =>
             destruct (pagination s) eqn:?
         end; cbn; try reflexivity; try congruence.

Lemma updatePagination_current s : current (updatePagination s) = current s.
Proof. unfold_update. Qed.

Lemma updatePagination_cards s : cards (updatePagination s) = cards s.
Proof. unfold_update. Qed.

Lemma updatePagination_totalSlides s :
  totalSlides (updatePagination s) = totalSlides s.
Proof. unfold_update. Qed.

Lemma updatePagination_timeouts s : timeouts (updatePagination s) = timeouts s.
Proof. unfold_update. Qed.

Lemma updatePagination_style s : style (updatePagination s) = style s.
Proof. unfold_update. Qed.

Lemma update_current e a s : current (update e a s) = current s.
Proof. unfold_update. Qed.

Lemma update_cards e a s : cards (update e a s) = cards s.
Proof. unfold_update. Qed.

Lemma update_totalSlides e a s : totalSlides (update e a s) = totalSlides s.
Proof. unfold_update. Qed.

Lemma update_timeouts e a s : timeouts (update e a s) = timeouts s.
Proof. unfold_update. Qed.

Lemma update_transform e a s :
  cards s <> [] ->
  transform (style (update e a s)) = translate_of e (current s).
Proof.
  intros H. unfold update. destruct (cards s); [congruence|].
  rewrite updatePagination_style. reflexivity.
Qed.

Lemma Ready_cards N s : 0 < N -> Ready N s -> cards s <> [].
Proof.
  intros HN (_ & Hl & _) E. rewrite E in Hl. change (0 = 3 * N) in Hl. lia.
Qed.

(** *** One loop check, settled *)

Lemma checkLoop_settled d e N s :
  0 < N -> Ready N s ->
  let s' := settle d e (checkLoop s) in
  Ready N s' /\ current s' = rehomed N (current s) /\
  (transform (style s) = translate_of e (current s) ->
   transform (style s') = translate_of e (current s')).
Proof.
  intros HN HR. pose proof (Ready_cards HN HR) as Hc.
  destruct HR as (HT & HL & HQ).
  unfold checkLoop, rehomed, settle, setTimeout. rewrite HL, HT, HQ.
  replace (3 * N - N) with (2 * N) by lia.
  rewrite Z.geb_leb.
  destruct (2 * N <=? current s) eqn:E1; [|destruct (current s <? N) eqn:E2];
    cbn [timeouts set_timeouts app fold_left fire].
  - split; [repeat split|split].
    + rewrite update_totalSlides. exact HT.
    + rewrite update_cards. exact HL.
    + rewrite update_timeouts. reflexivity.
    + rewrite update_current. cbn. exact HT.
    + intros _. rewrite update_transform by exact Hc.
      rewrite update_current. reflexivity.
  - split; [repeat split|split].
    + rewrite update_totalSlides. exact HT.
    + rewrite update_cards. exact HL.
    + rewrite update_timeouts. reflexivity.
    + rewrite update_current. cbn. reflexivity.
    + intros _. rewrite update_transform by exact Hc.
      rewrite update_current. reflexivity.
  - rewrite HQ. cbn. unfold Ready. auto.
Qed.

Lemma moved_settled d e N s c :
  0 < N -> Ready N s ->
  let s' := settle d e (checkLoop (update e true (set_current c s))) in
  Ready N s' /\ current s' = rehomed N c /\
  transform (style s') = translate_of e (current s').
Proof.
  intros HN HR. pose proof (Ready_cards HN HR) as Hc.
  destruct HR as (HT & HL & HQ).
  assert (HR' : Ready N (update e true (set_current c s))).
  { repeat split.
    - rewrite update_totalSlides. exact HT.
    - rewrite update_cards. exact HL.
    - rewrite update_timeouts. exact HQ. }
  pose proof (@checkLoop_settled d e N _ HN HR') as H.
  rewrite update_transform, update_current in H by exact Hc.
  cbn [current set_current] in H.
  destruct H as (H1 & H2 & H3). auto.
Qed.

Lemma next_settled_spec d e N s :
  0 < N -> Ready N s ->
  Ready N (next_settled d e s) /\
  current (next_settled d e s) = rehomed N (current s + 1) /\
  transform (style (next_settled d e s)) =
    translate_of e (current (next_settled d e s)).
Proof. intros HN HR. exact (moved_settled d e (current s + 1) HN HR). Qed.

Lemma prev_settled_spec d e N s :
  0 < N -> Ready N s ->
  Ready N (prev_settled d e s) /\
  current (prev_settled d e s) = rehomed N (current s - 1) /\
  transform (style (prev_settled d e s)) =
    translate_of e (current (prev_settled d e s)).
Proof. intros HN HR. exact (moved_settled d e (current s - 1) HN HR). Qed.

(** *** The state [init] reaches once its deferred closure has run *)

Lemma fold_append_clones (os t : list Card) :
  fold_left (fun t c => t ++ [cloneNode c]) os t = t ++ List.map cloneNode os.
Proof.
  revert t. induction os as [|o os IH]; intros t; simpl.
  - now rewrite app_nil_r.
  - rewrite IH, <- app_assoc. reflexivity.
Qed.

Lemma fold_prepend_clones (os t : list Card) :
  fold_left (fun t c => cloneNode c :: t) (rev os) t = List.map cloneNode os ++ t.
Proof.
  revert t. induction os as [|o os IH]; intros t; simpl; [reflexivity|].
  rewrite fold_left_app, IH. reflexivity.
Qed.

(** The cloned track is [clones of the originals] ++ [originals] ++
    [clones of the originals], each block in the original order. *)
Lemma cloneCards_layout s originals :
  track s = Some originals -> originalCards s = originals ->
  originals <> [] -> existsb cloned originals = false ->
  cloneCards s =
    let t := List.map cloneNode originals ++ originals ++ List.map cloneNode originals in
    set_cards t (set_track (Some t) s).
Proof.
  intros Ht Ho Hne Hcl. unfold cloneCards. rewrite Ht, Hcl, Ho.
  destruct originals as [|o os] eqn:Eo; [congruence|]. rewrite <- Eo.
  rewrite fold_prepend_clones, fold_append_clones. reflexivity.
Qed.

Lemma createPagination_frame s :
  totalSlides (createPagination s) = totalSlides s /\
  timeouts (createPagination s) = timeouts s /\
  cards (createPagination s) = cards s.
Proof.
  unfold createPagination. destruct (pagination s); [|auto].
  rewrite updatePagination_totalSlides, updatePagination_timeouts,
    updatePagination_cards. auto.
Qed.

Lemma deferredSetup_ready e s originals :
  track s = Some originals -> originalCards s = originals ->
  originals <> [] -> existsb cloned originals = false ->
  totalSlides s = Z.of_nat (List.length originals) -> timeouts s = [] ->
  let N := Z.of_nat (List.length originals) in
  let s0 := deferredSetup e s in
  Ready N s0 /\ current s0 = N /\
  transform (style s0) = translate_of e (current s0).
Proof.
  intros Ht Ho Hne Hcl HT HQ N s0. subst s0. unfold deferredSetup.
  rewrite (cloneCards_layout s Ht Ho Hne Hcl). cbv zeta.
  set (t := List.map cloneNode originals ++ originals ++ List.map cloneNode originals).
  set (s1 := set_cards t (set_track (Some t) s)).
  assert (Hlen : Z.of_nat (List.length t) = 3 * N).
  { subst t N. rewrite !length_app, !length_map. lia. }
  assert (Hc : t <> []).
  { intros E. rewrite E in Hlen. change (0 = 3 * N) in Hlen.
    destruct originals; [congruence|]. subst N. simpl List.length in Hlen. lia. }
  destruct (createPagination_frame s1) as (H2T & H2Q & H2C).
  set (s2 := createPagination s1) in *.
  unfold initAutoplay, Ready. cbn [config_autoplay].
  cbn [totalSlides timeouts cards current style set_autoplayTimer].
  rewrite update_totalSlides, update_cards, update_timeouts, update_current.
  rewrite update_transform by (cbn [cards set_current]; rewrite H2C; exact Hc).
  cbn [totalSlides timeouts cards current set_current].
  rewrite H2T, H2Q, H2C. subst s1.
  cbn [totalSlides timeouts cards set_cards set_track]. auto.
Qed.

Lemma init_found d originals :
  domTrack d = Some originals -> domSlider d = true -> originals <> [] ->
  init d initial =
    setTimeout DeferredSetup
      (set_resizeBound 1
         (set_totalSlides (Z.of_nat (List.length originals))
            (set_pagination (domPagination d)
               (set_originalCards originals
                  (set_slider true (set_track (Some originals) initial)))))).
Proof.
  intros Ht Hs Hne. unfold init. cbn [track set_slider set_track slider].
  rewrite Ht, Hs. cbn [originalCards set_originalCards].
  destruct originals; [congruence|]. reflexivity.
Qed.

Lemma init_settled d e originals :
  domTrack d = Some originals -> domSlider d = true ->
  originals <> [] -> existsb cloned originals = false ->
  let N := Z.of_nat (List.length originals) in
  let s0 := settle d e (init d initial) in
  Ready N s0 /\ current s0 = N /\
  transform (style s0) = translate_of e (current s0).
Proof.
  intros Ht Hs Hne Hcl N s0. subst s0 N.
  rewrite (init_found d Ht Hs Hne).
  unfold settle, setTimeout.
  cbn [timeouts set_timeouts set_resizeBound set_totalSlides set_pagination
       set_originalCards set_slider set_track initial app fold_left fire].
  apply deferredSetup_ready; auto.
Qed.

(** *** The cursor after [k] settled steps *)

Lemma iter_next_settled d e N s (k : nat) :
  0 < N -> Ready N s -> current s = N ->
  transform (style s) = translate_of e (current s) ->
  let sk := Nat.iter k (next_settled d e) s in
  Ready N sk /\ N <= current sk < 2 * N /\
  (exists q, current sk = N + Z.of_nat k - q * N) /\
  transform (style sk) = translate_of e (current sk).
Proof.
  intros HN HR Hc Ht. cbv zeta. induction k as [|k IH].
  - simpl Nat.iter. split; [exact HR|]. split; [lia|]. split; [|exact Ht].
    exists 0. rewrite Hc. cbn. lia.
  - simpl Nat.iter. destruct IH as (IR & Irange & (q & Iq) & _).
    destruct (next_settled_spec d e HN IR) as (R' & C' & T').
    set (sk := Nat.iter k (next_settled d e) s) in *.
    assert (Hcases : (current sk + 1 = 2 * N /\ rehomed N (current sk + 1) = N)
                     \/ (current sk + 1 < 2 * N
                         /\ rehomed N (current sk + 1) = current sk + 1)).
    { unfold rehomed. destruct (2 * N <=? current sk + 1) eqn:E1.
      - apply Z.leb_le in E1. left. lia.
      - apply Z.leb_gt in E1. right.
        destruct (current sk + 1 <? N) eqn:E2; [apply Z.ltb_lt in E2; lia|].
        lia. }
    split; [exact R'|]. split; [|split; [|exact T']]; rewrite C'.
    + destruct Hcases as [(? & ->)|(? & ->)]; lia.
    + destruct Hcases as [(? & ->)|(? & ->)]; [exists (q + 1)|exists q]; lia.
Qed.

(** C1.  From the state [init] reaches (cursor [N], track of [3N] cards),
    after each of the first [N] calls of [next()] has settled, the cursor
    is in [[N, 2N)], its offset [(cardWidth + gap) * current] is congruent
    modulo the period [(cardWidth + gap) * N] to the offset of the cursor
    [N + k] that was never re-homed, and the track shows exactly that
    offset.  A settled loop check moves a cursor at or above [2N] to [N]
    and a cursor below [N] to [2N - 1]. *)
Theorem rehoming_invisible (d : Dom) (e : Env) (originals : list Card) (k : nat) :
  domTrack d = Some originals -> domSlider d = true ->
  originals <> [] -> existsb cloned originals = false ->
  (1 <= k <= List.length originals)%nat ->
  let N := Z.of_nat (List.length originals) in
  let s0 := settle d e (init d initial) in
  let sk := Nat.iter k (next_settled d e) s0 in
  let cardWidth := offsetWidth0 e in
  let gap := gap_of (innerWidth e) in
  let period := (cardWidth + gap) * N in
  (Z.of_nat (List.length (cards s0)) = 3 * N /\ current s0 = N) /\
  N <= current sk < 2 * N /\
  ((cardWidth + gap) * current sk) mod period
    = ((cardWidth + gap) * (N + Z.of_nat k)) mod period /\
  transform (style sk)
    = inject_Z (if isRTL e then (cardWidth + gap) * current sk
                else - ((cardWidth + gap) * current sk)) /\
  (forall s, Ready N s ->
     (2 * N <= current s -> current (settle d e (checkLoop s)) = N) /\
     (current s < N -> current (settle d e (checkLoop s)) = 2 * N - 1)).
Proof.
  intros Ht Hs Hne Hcl Hk N s0 sk cardWidth gap period.
  assert (HN : 0 < N) by (subst N; lia).
  destruct (init_settled d e Ht Hs Hne Hcl) as (HR & Hc & Htr).
  fold N in HR, Hc. fold s0 in HR, Hc, Htr.
  destruct (@iter_next_settled d e N s0 k HN HR Hc Htr)
    as (_ & Hrange & (q & Hq) & Htk).
  fold sk in Hrange, Hq, Htk.
  split; [split; [apply HR | exact Hc]|].
  split; [exact Hrange|]. split; [|split; [exact Htk|]].
  - rewrite Hq. subst period.
    set (a := cardWidth + gap).
    replace (a * (N + Z.of_nat k - q * N))
      with (a * (N + Z.of_nat k) + (- q) * (a * N)) by ring.
    apply Z_mod_plus_full.
  - intros s H. destruct (@checkLoop_settled d e N s HN H) as (_ & C & _).
    rewrite C. unfold rehomed. split; intros Hcur.
    + destruct (2 * N <=? current s) eqn:E; [reflexivity|].
      apply Z.leb_gt in E. lia.
    + destruct (2 * N <=? current s) eqn:E; [apply Z.leb_le in E; lia|].
      destruct (current s <? N) eqn:E2; [reflexivity|].
      apply Z.ltb_ge in E2. lia.
Qed.

Definition card (n : nat) : Card := {| source := n; cloned := false |}.

Definition page3 : Dom :=
  {| domTrack := Some [card 0; card 1; card 2]; domSlider := true;
     domPagination := Some [] |}.

Definition desktop : Env :=
  {| innerWidth := 1200; offsetWidth0 := 300; isRTL := false |}.

Lemma rehoming_invisible_witness :
  let s3 := Nat.iter 3 (next_settled page3 desktop)
              (settle page3 desktop (init page3 initial)) in
  3 <= current s3 < 6 /\
  ((300 + 24) * current s3) mod 972 = ((300 + 24) * 6) mod 972 /\
  transform (style s3) = inject_Z (- ((300 + 24) * current s3)).
Proof.
  pose proof (@rehoming_invisible page3 desktop [card 0; card 1; card 2] 3
                eq_refl eq_refl) as H.
  assert (Hne : [card 0; card 1; card 2] <> []) by discriminate.
  specialize (H Hne eq_refl).
  assert (Hk : (1 <= 3 <= List.length [card 0; card 1; card 2])%nat)
    by (simpl; lia).
  specialize (H Hk). cbv zeta in H.
  destruct H as (_ & Hr & Hm & Ht & _).
  split; [exact Hr|]. split; [exact Hm | exact Ht].
Defined.

(** *** Pagination *)

(** The dots of the pagination container; none when it is absent. *)
Definition dots_of (s : Slider) : list bool :=
  match pagination s with Some dots => dots | None => [] end.

Lemma toggle_dots_length r i dots :
  List.length (toggle_dots r i dots) = List.length dots.
Proof.
  revert i. induction dots as [|b dots IH]; intros i; simpl; [reflexivity|].
  now rewrite IH.
Qed.

Lemma toggle_dots_nth r dots : forall i (j : nat),
  (j < List.length dots)%nat ->
  nth j (toggle_dots r i dots) false = (i + Z.of_nat j =? r).
Proof.
  induction dots as [|b dots IH]; intros i j Hj; simpl in Hj; [lia|].
  destruct j as [|j]; cbn [toggle_dots nth].
  - f_equal. change (Z.of_nat 0) with 0. lia.
  - rewrite IH by lia. f_equal. lia.
Qed.

Lemma getRealIndex_mod N c : 0 < N -> getRealIndex N c = (c - N) mod N.
Proof.
  intros HN. unfold getRealIndex. cbv zeta.
  set (a := c - N).
  pose proof (Z.quot_rem' a N) as Hqr.
  pose proof (Z.rem_bound_abs a N ltac:(lia)) as Habs.
  destruct (Z.rem a N <? 0) eqn:E.
  - apply Z.ltb_lt in E.
    apply Z.mod_unique_pos with (q := Z.quot a N - 1); lia.
  - apply Z.ltb_ge in E.
    apply Z.mod_unique_pos with (q := Z.quot a N); lia.
Qed.

Lemma updatePagination_dots s dots :
  pagination s = Some dots ->
  dots_of (updatePagination s)
  = toggle_dots (getRealIndex (totalSlides s) (current s)) 0 dots.
Proof. intros H. unfold updatePagination, dots_of. rewrite H. reflexivity. Qed.

(** C4.  [createPagination] makes exactly [N] dots, and after any
    [update] with the cursor at [c] the dot at index [i] is the active one
    exactly when [i = (c - N) mod N], an index in [[0, N)]; so the cursor
    [N + k] with [k] in [[0, N)] lights dot [k] and the cursor [N - 1]
    lights dot [N - 1]. *)
Theorem pagination_mapping (s : Slider) (old : list bool) (N : Z) :
  0 < N -> totalSlides s = N -> pagination s = Some old -> cards s <> [] ->
  let s1 := createPagination s in
  List.length (dots_of s1) = Z.to_nat N /\
  (forall e animate c,
     let s2 := update e animate (set_current c s1) in
     List.length (dots_of s2) = Z.to_nat N /\
     0 <= (c - N) mod N < N /\
     getRealIndex N c = (c - N) mod N /\
     forall i, (i < Z.to_nat N)%nat ->
       nth i (dots_of s2) false = (Z.of_nat i =? (c - N) mod N)) /\
  (forall k, 0 <= k < N -> getRealIndex N (N + k) = k) /\
  getRealIndex N (N - 1) = N - 1.
Proof.
  intros HN HT Hp Hc s1.
  assert (Hp1 : pagination s1 = Some (toggle_dots
                  (getRealIndex N (current s)) 0 (fresh_dots N))).
  { subst s1. unfold createPagination. rewrite Hp.
    unfold updatePagination. cbn [pagination set_pagination totalSlides current].
    rewrite HT. reflexivity. }
  assert (HT1 : totalSlides s1 = N /\ cards s1 = cards s).
  { destruct (createPagination_frame s) as (A & _ & C). fold s1 in A, C.
    split; congruence. }
  destruct HT1 as (HT1 & HC1).
  assert (Hfresh : List.length (fresh_dots N) = Z.to_nat N)
    by (unfold fresh_dots; apply repeat_length).
  split; [|split; [|split]].
  - unfold dots_of. rewrite Hp1, toggle_dots_length. exact Hfresh.
  - intros e animate c s2.
    assert (Hd : dots_of s2 = toggle_dots (getRealIndex N c) 0
                   (toggle_dots (getRealIndex N (current s)) 0 (fresh_dots N))).
    { subst s2. unfold update. cbn [cards set_current]. rewrite HC1.
      destruct (cards s) as [|x xs]; [congruence|].
      erewrite updatePagination_dots
        by (cbn [pagination set_style set_current]; exact Hp1).
      cbn [totalSlides current set_style set_current]. rewrite HT1.
      reflexivity. }
    rewrite Hd, !toggle_dots_length, Hfresh.
    split; [reflexivity|]. split; [apply Z.mod_pos_bound; exact HN|].
    split; [apply getRealIndex_mod; exact HN|].
    intros i Hi. rewrite toggle_dots_nth
      by (rewrite toggle_dots_length, Hfresh; exact Hi).
    rewrite getRealIndex_mod by exact HN. reflexivity.
  - intros k Hk. rewrite getRealIndex_mod by exact HN.
    replace (N + k - N) with k by lia. apply Z.mod_small. exact Hk.
  - rewrite getRealIndex_mod by exact HN.
    replace (N - 1 - N) with (-1 + 1 * N - N + 0) by lia.
    replace (-1 + 1 * N - N + 0) with ((N - 1) + (-1) * N) by lia.
    rewrite Z_mod_plus_full. apply Z.mod_small. lia.
Qed.

Lemma pagination_mapping_witness :
  let s1 := createPagination (settle page3 desktop (init page3 initial)) in
  List.length (dots_of s1) = 3%nat /\ getRealIndex 3 (3 - 1) = 3 - 1.
Proof.
  pose proof (@pagination_mapping
                (settle page3 desktop (init page3 initial))
                [true; false; false] 3 eq_refl eq_refl eq_refl) as H.
  assert (Hc : cards (settle page3 desktop (init page3 initial)) <> [])
    by (vm_compute; discriminate).
  specialize (H Hc). cbv zeta in H. destruct H as (H1 & _ & _ & H4).
  split; [exact H1 | exact H4].
Defined.

(** *** Drag *)

(** After a press at [x0], every move to [x] leaves
    [currentTranslate - prevTranslate] equal to [x - x0]. *)
Lemma drag_moved (x0 x : Q) (m : DOMMatrix) (s : Slider) :
  let s' := drag x (startDrag x0 m s) in
  (currentTranslate (dragv s') - prevTranslate (dragv s') == x - x0)%Q /\
  isDragging (dragv s') = true.
Proof.
  cbv zeta. unfold drag, startDrag, stopAutoplay, getTranslateX.
  destruct (autoplayTimer _); cbn; split; try reflexivity; ring.
Qed.

Lemma drag_again (x : Q) (s : Slider) :
  isDragging (dragv s) = true ->
  let s' := drag x s in
  (currentTranslate (dragv s') - prevTranslate (dragv s') == x - startX (dragv s))%Q
  /\ isDragging (dragv s') = true /\ startX (dragv s') = startX (dragv s)
  /\ current s' = current s /\ cards s' = cards s.
Proof.
  intros H. cbv zeta. unfold drag. rewrite H. cbn.
  repeat split; try reflexivity. ring.
Qed.

Lemma resetAutoplay_current s : current (resetAutoplay s) = current s.
Proof.
  unfold resetAutoplay, stopAutoplay.
  destruct (autoplayTimer s); reflexivity.
Qed.

Lemma checkLoop_current s : current (checkLoop s) = current s.
Proof.
  unfold checkLoop, setTimeout.
  destruct (_ >=? _); [reflexivity|]. destruct (_ <? _); reflexivity.
Qed.

Ltac q_absurd :=
  match goal with
  | H1 : (?x < ?y)%Q, H2 : (?y <= ?x)%Q |- _ =>
      exact (False_ind _ (Qlt_not_le _ _ H1 H2))
  end.

(** What [endDrag] does with the value it computes as [moved]: beyond
    the threshold it commits one step, otherwise the cursor stays. *)
Lemma endDrag_on_moved (e : Env) (s : Slider) :
  isDragging (dragv s) = true -> cards s <> [] ->
  let moved := (currentTranslate (dragv s) - prevTranslate (dragv s))%Q in
  let threshold := (inject_Z (offsetWidth0 e) / 3)%Q in
  exists s', endDrag e s = Some s' /\
    isDragging (dragv s') = false /\
    ((threshold < Qabs moved)%Q -> (moved < 0)%Q ->
       current s' = if isRTL e then current s - 1 else current s + 1) /\
    ((threshold < Qabs moved)%Q -> (0 <= moved)%Q ->
       current s' = if isRTL e then current s + 1 else current s - 1) /\
    ((Qabs moved <= threshold)%Q -> current s' = current s).
Proof.
  intros Hd Hc moved threshold. unfold endDrag. rewrite Hd.
  cbn [cards set_dragv]. destruct (cards s) as [|x xs] eqn:Ec; [congruence|].
  eexists. split; [reflexivity|].
  assert (Hdrag : forall t, isDragging (dragv (resetAutoplay t)) = isDragging (dragv t)).
  { intros t. unfold resetAutoplay, stopAutoplay. destruct (autoplayTimer t); reflexivity. }
  assert (Hdu : forall a t, isDragging (dragv (update e a t)) = isDragging (dragv t)).
  { intros a t. unfold update, updatePagination.
    destruct (cards t); [reflexivity|]. cbn. destruct (pagination t); reflexivity. }
  assert (Hdc : forall t, isDragging (dragv (checkLoop t)) = isDragging (dragv t)).
  { intros t. unfold checkLoop, setTimeout.
    destruct (_ >=? _); [reflexivity|]. destruct (_ <? _); reflexivity. }
  unfold release_decision. cbn [dragv set_dragv currentTranslate prevTranslate].
  fold moved. fold threshold. unfold Qltb.
  destruct (Qle_bool (Qabs moved) threshold) eqn:E1; cbn [negb].
  - apply Qle_bool_iff in E1.
    split; [rewrite Hdrag, Hdu; reflexivity|].
    rewrite resetAutoplay_current, update_current. cbn [current set_dragv].
    split; [intros; q_absurd|]. split; [intros; q_absurd|]. reflexivity.
  - assert (E1' : (threshold < Qabs moved)%Q).
    { apply Qnot_le_lt. intros C. apply Qle_bool_iff in C. congruence. }
    destruct (Qle_bool 0 moved) eqn:E2; cbn [negb].
    + apply Qle_bool_iff in E2.
      split; [destruct (isRTL e); unfold next, prev;
              rewrite Hdrag, Hdc, Hdu; reflexivity|].
      split; [intros; q_absurd|]. split; [intros _ _|intros; q_absurd].
      destruct (isRTL e); unfold next, prev;
        rewrite resetAutoplay_current, checkLoop_current, update_current;
        reflexivity.
    + assert (E2' : (moved < 0)%Q).
      { apply Qnot_le_lt. intros C. apply Qle_bool_iff in C. congruence. }
      split; [destruct (isRTL e); unfold next, prev;
              rewrite Hdrag, Hdc, Hdu; reflexivity|].
      split; [intros _ _|split; intros; q_absurd].
      destruct (isRTL e); unfold next, prev;
        rewrite resetAutoplay_current, checkLoop_current, update_current;
        reflexivity.
Qed.

Lemma press_move_frame (x0 x : Q) (m : DOMMatrix) (s : Slider) :
  current (drag x (startDrag x0 m s)) = current s /\
  cards (drag x (startDrag x0 m s)) = cards s.
Proof.
  unfold drag, startDrag, stopAutoplay.
  destruct (autoplayTimer _); cbn; split; reflexivity.
Qed.

(** A gesture with at least one move event: press at [x0], last move at
    [x], release.  The release is decided by the pointer's displacement
    [x - x0]. *)
Lemma endDrag_after_move (e : Env) (s : Slider) (x0 x : Q) (m : DOMMatrix) :
  cards s <> [] ->
  let delta := (x - x0)%Q in
  let threshold := (inject_Z (offsetWidth0 e) / 3)%Q in
  exists s', endDrag e (drag x (startDrag x0 m s)) = Some s' /\
    ((threshold < Qabs delta)%Q -> (delta < 0)%Q ->
       current s' = if isRTL e then current s - 1 else current s + 1) /\
    ((threshold < Qabs delta)%Q -> (0 <= delta)%Q ->
       current s' = if isRTL e then current s + 1 else current s - 1) /\
    ((Qabs delta <= threshold)%Q -> current s' = current s).
Proof.
  intros Hc delta threshold.
  destruct (drag_moved x0 x m s) as (Hm & Hd).
  destruct (press_move_frame x0 x m s) as (Hcur & Hcards).
  set (s1 := drag x (startDrag x0 m s)) in *.
  assert (Hc1 : cards s1 <> []) by (rewrite Hcards; exact Hc).
  destruct (endDrag_on_moved e s1 Hd Hc1) as (s' & He & _ & Hneg & Hpos & Hsnap).
  fold threshold in Hneg, Hpos, Hsnap. fold delta in Hm.
  rewrite Hcur in Hneg, Hpos, Hsnap.
  exists s'. split; [exact He|].
  split; [|split].
  - intros A B. apply Hneg; rewrite Hm; assumption.
  - intros A B. apply Hpos; rewrite Hm; assumption.
  - intros A. apply Hsnap; rewrite Hm; assumption.
Qed.

(** C3, at a press released with no move in between.  On the page of
    three cards right after [init], a press at x = 500 followed by the
    release has pointer displacement 0, which is below the threshold
    300 / 3, so the gesture should snap back with the cursor still at 3.
    No transition has run, so the press reads the translate last
    written.  [startDrag] refreshes [prevTranslate] (-972) but not
    [currentTranslate] (still 0 from before the press), so [endDrag]
    computes [moved] = 972 and commits [prev()]: the cursor becomes 2.
    The same press with one move event of displacement 0 snaps back. *)
Theorem press_release_without_move :
  let s0 := settle page3 desktop (init page3 initial) in
  let pressed := startDrag 500 (written s0) s0 in
  current s0 = 3 /\
  isDragging (dragv pressed) = true /\
  (currentTranslate (dragv pressed) - prevTranslate (dragv pressed) == 972)%Q /\
  release_decision desktop pressed = CommitPrev /\
  option_map current (endDrag desktop pressed) = Some 2 /\
  option_map current (endDrag desktop (drag 500 pressed)) = Some 3.
Proof. vm_compute. repeat split; reflexivity. Qed.

(** *** Polling for the anchors *)

(** Some anchor of the slider is missing: the track, the slider
    container, or the cards inside the track. *)
Definition slider_anchor_missing (d : Dom) : Prop :=
  domTrack d = None \/ domSlider d = false \/ domTrack d = Some [].

(** With an anchor missing, [init] changes nothing but the anchor
    variables, and leaves one retry of itself pending. *)
Lemma init_polls (d : Dom) (s : Slider) :
  slider_anchor_missing d ->
  let s' := init d s in
  timeouts s' = timeouts s ++ [RetryInit] /\
  track s' = domTrack d /\ slider s' = domSlider d /\
  current s' = current s /\ cards s' = cards s /\
  totalSlides s' = totalSlides s /\ pagination s' = pagination s /\
  style s' = style s /\ dragv s' = dragv s /\
  autoplayTimer s' = autoplayTimer s /\ resizeBound s' = resizeBound s.
Proof.
  intros H. cbv zeta. unfold init. cbn [track slider set_slider set_track].
  destruct (domTrack d) as [[|c cs]|] eqn:Et, (domSlider d) eqn:Es;
    cbn; try (repeat split; reflexivity).
  all: exfalso; destruct H as [H|[H|H]]; congruence.
Qed.

(** While the anchor stays missing, every elapsed retry schedules the
    next one: the polling never stops by itself. *)
Lemma polling_continues (d : Dom) (e : Env) (n : nat) :
  slider_anchor_missing d ->
  let s := Nat.iter n (settle d e) (init d initial) in
  timeouts s = [RetryInit] /\ current s = 0 /\ cards s = [] /\
  autoplayTimer s = false /\ resizeBound s = 0%nat.
Proof.
  intros H. cbv zeta. induction n as [|n IH]; simpl Nat.iter.
  - destruct (init_polls initial H) as (A & _ & _ & B & C & _ & _ & _ & _ & D & E).
    rewrite A, B, C, D, E. cbn. auto.
  - destruct IH as (A & B & C & D & E).
    set (s := Nat.iter n (settle d e) (init d initial)) in *.
    unfold settle. rewrite A. cbn [fold_left fire].
    destruct (init_polls (set_timeouts [] s) H)
      as (A' & _ & _ & B' & C' & _ & _ & _ & _ & D' & E').
    rewrite A', B', C', D', E'. cbn. auto.
Qed.

End SliderFacts.

(** ** The circular carousel *)

Module CarouselFacts.

Import CircularTestimonials.
Local Open Scope nat_scope.

(** *** Padding *)

Lemma clone_pass_bounded (bs items : list Item) :
  List.length items <= 10 -> List.length (clone_pass bs items) <= 10.
Proof.
  revert items. induction bs as [|b bs IH]; intros items H; simpl; [exact H|].
  destruct (List.length items <? 10) eqn:E; [|exact H].
  apply Nat.ltb_lt in E. apply IH. rewrite length_app. simpl. lia.
Qed.

Lemma clone_pass_prefix (bs items : list Item) :
  exists added, clone_pass bs items = items ++ added.
Proof.
  revert items. induction bs as [|b bs IH]; intros items; simpl.
  - exists []. now rewrite app_nil_r.
  - destruct (List.length items <? 10).
    + destruct (IH (items ++ [cloneNode b (List.length items)])) as (a & ->).
      eexists. rewrite <- app_assoc. reflexivity.
    + exists []. now rewrite app_nil_r.
Qed.

Lemma pad_items_length (b0 : Item) (rest items : list Item) :
  List.length items <= 10 -> List.length (pad_items b0 rest items) = 10.
Proof.
  funelim (pad_items b0 rest items); intros Hle.
  - match goal with IH : _ -> List.length (pad_items _ _ _) = 10 |- _ =>
      apply IH end.
    apply clone_pass_bounded. exact Hle.
  - lia.
Qed.

Lemma pad_items_long (b0 : Item) (rest items : list Item) :
  10 <= List.length items -> pad_items b0 rest items = items.
Proof.
  intros H. rewrite pad_items_equation_1.
  destruct (lt_dec (List.length items) 10); [lia|reflexivity].
Qed.

Lemma pad_items_prefix (b0 : Item) (rest items : list Item) :
  exists added, pad_items b0 rest items = items ++ added.
Proof.
  funelim (pad_items b0 rest items).
  - match goal with IH : exists _, pad_items _ _ _ = _ |- _ =>
      destruct IH as (a & ->) end.
    destruct (clone_pass_prefix (b0 :: rest) items) as (a' & ->).
    exists (a' ++ a). now rewrite app_assoc.
  - exists []. now rewrite app_nil_r.
Qed.

(** Every anchor of the carousel is on the page. *)
Definition anchored (p : Page) (items : list Item) : Prop :=
  wrapper p = true /\ circle p = Some items /\ items <> [] /\
  prevBtn p = true /\ nextBtn p = true.

(** The closure [initCircularTestimonials] leaves behind, if any. *)
Definition carousel_of (p : Page) : option Carousel :=
  snd (initCircularTestimonials p).

(** The closure before the image gate and the final draw. *)
Definition fresh (b0 : Item) (rest : list Item) (imgs : list Img) : Carousel :=
  {| order := pad_items b0 rest (b0 :: rest); autoRotateTimer := false;
     totalImages := List.length imgs; loadedImages := 0;
     listening := []; positioned := 0 |}.

Lemma init_anchored (p : Page) (b0 : Item) (rest : list Item) :
  anchored p (b0 :: rest) ->
  carousel_of p =
    Some (positionItems_called
            (if List.length (images p) =? 0
             then startAutoRotate (positionItems_called (fresh b0 rest (images p)))
             else fold_left visit_image (images p) (fresh b0 rest (images p)))).
Proof.
  intros (Hw & Hc & _ & Hp & Hn).
  unfold carousel_of, initCircularTestimonials. rewrite Hw, Hc, Hp, Hn.
  reflexivity.
Qed.

(** The length the spec's words give: whole passes over the [n]
    originals until there are at least 10 items. *)
Definition whole_passes_length (n : nat) : nat := n * ((10 + n - 1) / n).

Definition item (n : nat) : Item := {| node := n; source := n; clone := false |}.

Definition page_of (items : list Item) (imgs : list Img) : Page :=
  {| wrapper := true; circle := Some items; prevBtn := true; nextBtn := true;
     images := imgs |}.

Definition order_length (p : Page) : nat :=
  match carousel_of p with Some c => List.length (order c) | None => 0 end.

(** C2, as stated, fails for three originals: the spec's whole passes
    give 12 items, the code stops cloning at 10. *)
Lemma three_items_pad_to_ten :
  whole_passes_length 3 = 12 /\
  order_length (page_of [item 0; item 1; item 2] []) = 10 /\
  order_length (page_of [item 0; item 1; item 2] []) <> whole_passes_length 3.
Proof. vm_compute. repeat split; try reflexivity. discriminate. Qed.

(** C2, amended.  With [N] originals, [0 < N <= 10], and every anchor
    present, the rotation order after init has exactly 10 elements and
    starts with the originals; cloning stops as soon as there are 10
    items, in the middle of a pass if need be. *)
Theorem padded_order_length (p : Page) (items : list Item) :
  anchored p items -> 0 < List.length items <= 10 ->
  exists c, carousel_of p = Some c /\
    List.length (order c) = 10 /\
    (exists clones, order c = items ++ clones) /\
    fst (initCircularTestimonials p) = page_of (order c) (images p).
Proof.
  intros Ha Hn. destruct items as [|b0 rest]; [simpl in Hn; lia|].
  pose proof (init_anchored Ha) as Hi.
  assert (Ho : forall imgs c,
             order c = pad_items b0 rest (b0 :: rest) ->
             order (fold_left visit_image imgs c) = pad_items b0 rest (b0 :: rest)).
  { induction imgs as [|i imgs IH]; intros c Hc; simpl; [exact Hc|].
    apply IH. unfold visit_image, onImageLoad.
    destruct (complete i); [|exact Hc]. cbn.
    destruct (totalImages c <=? loadedImages c + 1); exact Hc. }
  eexists. split; [exact Hi|].
  assert (E : order (positionItems_called
            (if List.length (images p) =? 0
             then startAutoRotate (positionItems_called (fresh b0 rest (images p)))
             else fold_left visit_image (images p) (fresh b0 rest (images p))))
          = pad_items b0 rest (b0 :: rest)).
  { destruct (List.length (images p) =? 0); cbn [order positionItems_called];
      [reflexivity|]. apply Ho. reflexivity. }
  rewrite E. split; [apply pad_items_length; exact (proj2 Hn)|].
  split; [apply pad_items_prefix|].
  destruct Ha as (Hw & Hc & _ & Hp & Hb).
  unfold initCircularTestimonials. rewrite Hw, Hc, Hp, Hb. reflexivity.
Qed.

Lemma padded_order_length_witness :
  exists c, carousel_of (page_of [item 0; item 1; item 2; item 3; item 4] [])
            = Some c /\ List.length (order c) = 10.
Proof.
  assert (Ha : anchored (page_of [item 0; item 1; item 2; item 3; item 4] [])
                 [item 0; item 1; item 2; item 3; item 4]).
  { unfold anchored. cbn. repeat split; try reflexivity. discriminate. }
  assert (Hn : 0 < List.length [item 0; item 1; item 2; item 3; item 4] <= 10)
    by (simpl; lia).
  destruct (padded_order_length Ha Hn) as (c & Hc & Hl & _).
  exists c. split; [exact Hc | exact Hl].
Defined.

(** *** Rotation *)

Lemma last_any_default (l : list Item) (d d' : Item) :
  l <> [] -> last l d = last l d'.
Proof.
  induction l as [|a l IH]; intros H; [congruence|].
  destruct l as [|b l]; [reflexivity|].
  change (last (b :: l) d = last (b :: l) d'). apply IH. discriminate.
Qed.

Lemma last_head_default (r : list Item) (x d : Item) :
  last r x = last (x :: r) d.
Proof.
  destruct r as [|y r]; [reflexivity|].
  change (last (y :: r) x = last (y :: r) d).
  apply last_any_default. discriminate.
Qed.

Lemma pop_snoc (r : list Item) (x : Item) : pop (r ++ [x]) = (Some x, r).
Proof.
  unfold pop. destruct (r ++ [x]) as [|y l] eqn:E.
  - destruct r; discriminate.
  - rewrite (last_head_default l y x), <- E, last_last, removelast_last.
    reflexivity.
Qed.

Lemma snoc_cases (o : list Item) : o = [] \/ exists r x, o = r ++ [x].
Proof.
  destruct o as [|y l]; [left; reflexivity|right].
  exists (removelast (y :: l)), (last (y :: l) y).
  apply app_removelast_last. discriminate.
Qed.

Lemma rotate_next_snoc (r : list Item) (x : Item) :
  rotate_order "next" (r ++ [x]) = x :: r.
Proof. unfold rotate_order. cbn [String.eqb]. simpl. now rewrite pop_snoc. Qed.

Lemma rotate_prev_cons (r : list Item) (x : Item) :
  rotate_order "prev" (x :: r) = r ++ [x].
Proof. reflexivity. Qed.

(** C7.  [rotate('next')] moves the last element of the order to the
    front and [rotate('prev')] moves the first element to the end; both
    keep the length, both are cyclic shifts of the order (a suffix moved
    in front of the prefix it followed), each undoes the other, and
    [rotate] changes the order of the carousel in no other way. *)
Theorem rotation_is_cyclic (o r : list Item) (x : Item) (c : Carousel) :
  rotate_order "next" (r ++ [x]) = x :: r /\
  rotate_order "prev" (x :: r) = r ++ [x] /\
  rotate_order "next" [] = [] /\ rotate_order "prev" [] = [] /\
  List.length (rotate_order "next" o) = List.length o /\
  List.length (rotate_order "prev" o) = List.length o /\
  rotate_order "next" o
    = skipn (List.length o - 1) o ++ firstn (List.length o - 1) o /\
  rotate_order "prev" o = skipn 1 o ++ firstn 1 o /\
  rotate_order "prev" (rotate_order "next" o) = o /\
  rotate_order "next" (rotate_order "prev" o) = o /\
  order (rotate "next" c) = rotate_order "next" (order c) /\
  order (rotate "prev" c) = rotate_order "prev" (order c).
Proof.
  split; [apply rotate_next_snoc|]. split; [reflexivity|].
  split; [reflexivity|]. split; [reflexivity|].
  destruct (snoc_cases o) as [->|(r' & x' & ->)].
  - repeat split; reflexivity.
  - rewrite rotate_next_snoc.
    split; [rewrite length_app; simpl; lia|].
    assert (Hp : rotate_order "prev" (r' ++ [x'])
                 = skipn 1 (r' ++ [x']) ++ firstn 1 (r' ++ [x'])).
    { destruct r' as [|y r']; reflexivity. }
    split; [rewrite Hp, length_app, length_skipn, length_firstn; lia|].
    split.
    { rewrite length_app. simpl List.length.
      replace (List.length r' + 1 - 1) with (List.length r' + 0) by lia.
      rewrite skipn_app, firstn_app.
      replace (List.length r' + 0 - List.length r') with 0 by lia.
      rewrite Nat.add_0_r, skipn_all, firstn_all. simpl.
      now rewrite app_nil_r. }
    split; [exact Hp|]. split; [reflexivity|].
    split; [|split; reflexivity].
    destruct r' as [|y r'].
    + reflexivity.
    + change (rotate_order "next" (rotate_order "prev" (y :: (r' ++ [x'])))
              = y :: r' ++ [x']).
      rewrite rotate_prev_cons, rotate_next_snoc. reflexivity.
Qed.

(** *** The image gate *)

Definition count_complete (imgs : list Img) : nat :=
  List.length (filter complete imgs).

(** The images that were not complete when [init] visited them. *)
Definition pending_ids (imgs : list Img) : list nat :=
  List.map img (filter (fun i => negb (complete i)) imgs).

(** A load ([false]) or error ([true]) event of image [i]. *)
Definition image_event (f : nat * bool) : Event :=
  if snd f then ImgError (fst f) else ImgLoad (fst f).

Lemma count_pending_total (imgs : list Img) :
  count_complete imgs + List.length (pending_ids imgs) = List.length imgs.
Proof.
  unfold count_complete, pending_ids. rewrite length_map.
  induction imgs as [|i imgs IH]; simpl; [reflexivity|].
  destruct (complete i); simpl; lia.
Qed.

Lemma pending_ids_NoDup (imgs : list Img) :
  NoDup (List.map img imgs) -> NoDup (pending_ids imgs).
Proof.
  unfold pending_ids. induction imgs as [|i imgs IH]; simpl; intros H.
  - constructor.
  - inversion H as [|? ? Hn Hr]; subst.
    destruct (complete i); simpl; [auto|].
    constructor; [|auto]. intros Hin. apply Hn.
    apply in_map_iff in Hin. destruct Hin as (j & Hj & Hf).
    apply filter_In in Hf. apply in_map_iff. exists j. tauto.
Qed.

(** The [forEach] over the images, from a closure that has not yet
    counted every image. *)
Lemma gate_fold (imgs : list Img) : forall c,
  autoRotateTimer c = false ->
  loadedImages c < totalImages c ->
  loadedImages c + List.length imgs <= totalImages c ->
  let c' := fold_left visit_image imgs c in
  loadedImages c' = loadedImages c + count_complete imgs /\
  listening c' = listening c ++ pending_ids imgs /\
  totalImages c' = totalImages c /\
  autoRotateTimer c' = (totalImages c <=? loadedImages c') /\
  positioned c' = positioned c + (if totalImages c <=? loadedImages c' then 1 else 0) /\
  order c' = order c.
Proof.
  unfold count_complete, pending_ids.
  induction imgs as [|i imgs IH]; intros c Ht Hlt Hle; cbv zeta.
  - simpl. rewrite Nat.add_0_r, app_nil_r.
    assert (E : (totalImages c <=? loadedImages c) = false)
      by (apply Nat.leb_gt; exact Hlt).
    rewrite E, Nat.add_0_r. repeat split; auto.
  - simpl in Hle. cbn [fold_left filter]. 
    destruct (complete i) eqn:Ec; cbn [negb List.map List.length].
    + destruct (totalImages c <=? loadedImages c + 1) eqn:E.
      * assert (Hv : visit_image c i
                     = startAutoRotate (positionItems_called
                                          (set_loaded (loadedImages c + 1) c))).
        { unfold visit_image, onImageLoad. rewrite Ec.
          cbn [totalImages loadedImages set_loaded]. rewrite E. reflexivity. }
        apply Nat.leb_le in E.
        destruct imgs as [|i' imgs]; [|simpl in Hle; lia].
        rewrite Hv. cbn. rewrite app_nil_r.
        assert (E' : (totalImages c <=? loadedImages c + 1) = true)
          by (apply Nat.leb_le; exact E).
        rewrite E'. repeat split; try reflexivity. lia.
      * assert (Hv : visit_image c i = set_loaded (loadedImages c + 1) c).
        { unfold visit_image, onImageLoad. rewrite Ec.
          cbn [totalImages loadedImages set_loaded]. rewrite E. reflexivity. }
        apply Nat.leb_gt in E. rewrite Hv.
        destruct (IH (set_loaded (loadedImages c + 1) c)) as (A & B & C & D & F & G).
        { exact Ht. }
        { cbn. exact E. }
        { cbn. lia. }
        cbn [loadedImages totalImages listening positioned order
             autoRotateTimer set_loaded] in A, B, C, D, F, G.
        rewrite B, C, D, F, G, A.
        replace (loadedImages c + 1 + List.length (filter complete imgs))
          with (loadedImages c + S (List.length (filter complete imgs))) by lia.
        repeat split; auto.
    + assert (Hv : visit_image c i = listen (img i) c).
      { unfold visit_image. rewrite Ec. reflexivity. }
      rewrite Hv.
      destruct (IH (listen (img i) c)) as (A & B & C & D & F & G).
      { exact Ht. }
      { exact Hlt. }
      { cbn. lia. }
      cbn [loadedImages totalImages listening positioned order
           autoRotateTimer listen] in A, B, C, D, F, G.
      rewrite B, C, D, F, G, A, <- app_assoc. repeat split; auto.
Qed.

(** Image events on a closure whose timer agrees with its counter. *)
Lemma run_image_events (fired : list (nat * bool)) : forall c,
  (forall i, In i (List.map fst fired) ->
             existsb (Nat.eqb i) (listening c) = true) ->
  autoRotateTimer c = (totalImages c <=? loadedImages c) ->
  let c' := run (List.map image_event fired) c in
  loadedImages c' = loadedImages c + List.length fired /\
  autoRotateTimer c' = (totalImages c <=? loadedImages c') /\
  totalImages c' = totalImages c /\ order c' = order c /\
  positioned c <= positioned c'.
Proof.
  unfold run. induction fired as [|[i err] fired IH]; intros c Hin Ht; cbv zeta.
  - simpl. rewrite Nat.add_0_r. repeat split; auto.
  - cbn [List.map fold_left List.length].
    assert (Hstep : step (image_event (i, err)) c = onImageLoad c).
    { unfold image_event. cbn [fst snd].
      destruct err; cbn [step]; rewrite (Hin i); try reflexivity;
        left; reflexivity. }
    rewrite Hstep.
    assert (Hon : loadedImages (onImageLoad c) = loadedImages c + 1 /\
                  totalImages (onImageLoad c) = totalImages c /\
                  listening (onImageLoad c) = listening c /\
                  order (onImageLoad c) = order c /\
                  positioned c <= positioned (onImageLoad c) /\
                  autoRotateTimer (onImageLoad c)
                  = (totalImages c <=? loadedImages c + 1)).
    { unfold onImageLoad. cbn [totalImages loadedImages set_loaded].
      destruct (totalImages c <=? loadedImages c + 1) eqn:E; cbn.
      - repeat split; try reflexivity. lia.
      - repeat split; try reflexivity.
        rewrite Ht. apply Nat.leb_gt in E. apply Nat.leb_gt. lia. }
    destruct Hon as (A & B & C & D & F & G).
    destruct (IH (onImageLoad c)) as (A' & B' & C' & D' & F').
    { intros j Hj. rewrite C. apply Hin. right. exact Hj. }
    { rewrite B, A. exact G. }
    rewrite B', C', D', A', A, B, D.
    repeat split; try reflexivity; try lia.
Qed.

(** How often the items are positioned by image events that do not
    outnumber the images still missing: once more exactly if the last
    of the events completes the count. *)
Lemma run_image_events_positioned (fired : list (nat * bool)) : forall c,
  (forall i, In i (List.map fst fired) ->
             existsb (Nat.eqb i) (listening c) = true) ->
  loadedImages c + List.length fired <= totalImages c ->
  let c' := run (List.map image_event fired) c in
  positioned c' + (if totalImages c <=? loadedImages c then 1 else 0)
  = positioned c
    + (if totalImages c <=? loadedImages c + List.length fired then 1 else 0).
Proof.
  unfold run. induction fired as [|[i err] fired IH]; intros c Hin Hle; cbv zeta.
  - simpl. now rewrite Nat.add_0_r.
  - cbn [List.map fold_left List.length] in *.
    assert (Hstep : step (image_event (i, err)) c = onImageLoad c).
    { unfold image_event. cbn [fst snd].
      destruct err; cbn [step]; rewrite (Hin i); try reflexivity;
        left; reflexivity. }
    rewrite Hstep.
    assert (Hon : loadedImages (onImageLoad c) = loadedImages c + 1 /\
                  totalImages (onImageLoad c) = totalImages c /\
                  listening (onImageLoad c) = listening c /\
                  positioned (onImageLoad c)
                  = positioned c
                    + (if totalImages c <=? loadedImages c + 1 then 1 else 0)).
    { unfold onImageLoad. cbn [totalImages loadedImages set_loaded].
      destruct (totalImages c <=? loadedImages c + 1) eqn:E; cbn;
        repeat split; lia. }
    destruct Hon as (A & B & C & D).
    assert (H := IH (onImageLoad c)). cbv zeta in H.
    rewrite A, B, C, D in H.
    assert (Hin' : forall j, In j (List.map fst fired) ->
                             existsb (Nat.eqb j) (listening c) = true).
    { intros j Hj. apply Hin. right. exact Hj. }
    specialize (H Hin'). assert (Hle' : loadedImages c + 1 + List.length fired
                                        <= totalImages c) by lia.
    specialize (H Hle').
    assert (E0 : (totalImages c <=? loadedImages c) = false)
      by (apply Nat.leb_gt; lia).
    rewrite E0.
    replace (loadedImages c + S (List.length fired))
      with (loadedImages c + 1 + List.length fired) by lia.
    lia.
Qed.

(** C8, as stated, fails: with one image that is still loading, the
    items are positioned during init although no image has loaded or
    errored; only the timer waits. *)
Lemma positioning_not_deferred :
  exists c0,
    carousel_of (page_of [item 0] [{| img := 0; complete := false |}]) = Some c0 /\
    loadedImages c0 = 0 /\ totalImages c0 = 1 /\
    autoRotateTimer c0 = false /\ positioned c0 = 1.
Proof. eexists. split; [reflexivity|]. cbn. repeat split; reflexivity. Qed.

(** C8, amended.  After init on a page with every anchor the items have
    been positioned at least once, whatever the images do.  With no
    image the timer runs at once and the items were positioned twice.
    With images, and only load and error events arriving, one per image
    that was not complete at init, the counter is the number of images
    complete at init plus the number of events, and the timer runs
    exactly when every image was complete at init or has fired.  The
    items are positioned once by the end of init and a second time
    when the last image is counted, be that during init or at an
    event: at the end of init and after the events the number of
    positionings is two if the timer runs and one if it does not. *)
Theorem image_gate (p : Page) (items : list Item) (fired : list (nat * bool)) :
  anchored p items ->
  NoDup (List.map img (images p)) ->
  NoDup (List.map fst fired) ->
  incl (List.map fst fired) (pending_ids (images p)) ->
  exists c0, carousel_of p = Some c0 /\
    1 <= positioned c0 /\
    positioned c0 = (if autoRotateTimer c0 then 2 else 1) /\
    (images p = [] -> autoRotateTimer c0 = true /\ positioned c0 = 2) /\
    (images p <> [] ->
       let c := run (List.map image_event fired) c0 in
       loadedImages c = count_complete (images p) + List.length fired /\
       totalImages c = List.length (images p) /\
       (autoRotateTimer c = true <->
        forall i, In i (images p) ->
                  complete i = true \/ In (img i) (List.map fst fired)) /\
       positioned c = (if autoRotateTimer c then 2 else 1)).
Proof.
  intros Ha Hnd Hfd Hincl.
  destruct items as [|b0 rest]; [destruct Ha as (_ & _ & H & _); congruence|].
  rewrite (init_anchored Ha).
  destruct (images p) as [|i0 imgs] eqn:Ei.
  - eexists. split; [reflexivity|]. cbn.
    split; [lia|]. split; [reflexivity|]. split; [auto|]. intros H. congruence.
  - rewrite <- Ei in *.
    assert (Hlen : (List.length (images p) =? 0) = false)
      by (rewrite Ei; reflexivity).
    rewrite Hlen.
    destruct (@gate_fold (images p) (fresh b0 rest (images p)))
      as (A & B & C & D & F & G).
    { reflexivity. }
    { cbn. rewrite Ei. simpl. lia. }
    { cbn. lia. }
    set (g := fold_left visit_image (images p) (fresh b0 rest (images p))) in *.
    cbn [loadedImages listening totalImages positioned fresh app Nat.add] in A, B, C, D, F.
    pose proof (count_pending_total (images p)) as Htot.
    pose proof (pending_ids_NoDup (images p) Hnd) as Hpnd.
    assert (Hfl : List.length (List.map fst fired) = List.length fired)
      by apply length_map.
    pose proof (NoDup_incl_length Hfd Hincl) as Hfew.
    assert (Hlisten : forall i, In i (List.map fst fired) ->
              existsb (Nat.eqb i) (listening (positionItems_called g)) = true).
    { intros i Hi. cbn [listening positionItems_called]. rewrite B.
      apply existsb_exists. exists i. split; [apply Hincl; exact Hi|].
      apply Nat.eqb_refl. }
    eexists. split; [reflexivity|].
    split; [cbn; lia|].
    split.
    { cbn [positioned autoRotateTimer positionItems_called]. rewrite F, D.
      destruct (_ <=? _); reflexivity. }
    split; [intros H; rewrite Ei in H; discriminate|].
    intros _. cbv zeta.
    destruct (@run_image_events fired (positionItems_called g))
      as (A' & B' & C' & _).
    { exact Hlisten. }
    { cbn [autoRotateTimer totalImages loadedImages positionItems_called].
      rewrite D, C. reflexivity. }
    pose proof (@run_image_events_positioned fired (positionItems_called g)
                  Hlisten) as P'.
    cbv zeta in P'.
    cbn [loadedImages totalImages positioned positionItems_called] in A', B', C', P'.
    assert (P : positioned (run (List.map image_event fired) (positionItems_called g))
                = if autoRotateTimer
                       (run (List.map image_event fired) (positionItems_called g))
                  then 2 else 1).
    { assert (Hb : loadedImages g + List.length fired <= totalImages g)
        by (rewrite A, C; lia).
      specialize (P' Hb). rewrite B', A'. rewrite F in P'.
      rewrite ?C, ?A in P' |- *.
      destruct (List.length (images p) <=? count_complete (images p));
        destruct (List.length (images p)
                  <=? count_complete (images p) + List.length fired); lia. }
    rewrite A', C', C, A. split; [reflexivity|]. split; [reflexivity|].
    split; [|exact P].
    rewrite B', A', C, A.
    rewrite Nat.leb_le. split.
    + intros Hle i Hi. destruct (complete i) eqn:Ec; [left; reflexivity|right].
      assert (Hsub : incl (pending_ids (images p)) (List.map fst fired)).
      { apply NoDup_length_incl; [exact Hfd| lia | exact Hincl]. }
      apply Hsub. unfold pending_ids. apply in_map. apply filter_In.
      split; [exact Hi|]. rewrite Ec. reflexivity.
    + intros Hall.
      assert (Hsub : incl (pending_ids (images p)) (List.map fst fired)).
      { intros n Hn. unfold pending_ids in Hn. apply in_map_iff in Hn.
        destruct Hn as (i & <- & Hf). apply filter_In in Hf.
        destruct Hf as (Hi & Hc). destruct (Hall i Hi) as [Hcomp|Hin]; [|exact Hin].
        rewrite Hcomp in Hc. discriminate. }
      pose proof (NoDup_incl_length Hpnd Hsub). lia.
Qed.

Definition two_images : list Img :=
  [{| img := 0; complete := true |}; {| img := 1; complete := false |}].

Lemma image_gate_witness :
  exists c0, carousel_of (page_of [item 0] two_images) = Some c0 /\
    autoRotateTimer c0 = false /\
    autoRotateTimer (run [ImgLoad 1] c0) = true /\
    positioned c0 = 1 /\
    positioned (run [ImgLoad 1] c0) = 2.
Proof.
  assert (Ha : anchored (page_of [item 0] two_images) [item 0]).
  { unfold anchored. cbn. repeat split; try reflexivity. discriminate. }
  assert (Hnd : NoDup (List.map img (images (page_of [item 0] two_images)))).
  { cbn. repeat constructor; simpl; intuition discriminate. }
  assert (Hfd : NoDup (List.map fst [(1, false)])).
  { cbn. repeat constructor; simpl; intuition. }
  assert (Hincl : incl (List.map fst [(1, false)])
                       (pending_ids (images (page_of [item 0] two_images)))).
  { cbn. intros n Hn. exact Hn. }
  destruct (@image_gate _ _ [(1, false)] Ha Hnd Hfd Hincl)
    as (c0 & Hc0 & _ & Hp0 & _ & Himg).
  exists c0. split; [exact Hc0|].
  assert (Hne : images (page_of [item 0] two_images) <> []) by (cbn; discriminate).
  destruct (Himg Hne) as (_ & _ & Hiff & Hp).
  assert (Ht0 : autoRotateTimer c0 = false).
  { cbv in Hc0. injection Hc0 as <-. reflexivity. }
  assert (Ht : autoRotateTimer (run [ImgLoad 1] c0) = true).
  { apply Hiff. cbn. intros i [<-|[<-|[]]]; cbn; auto. }
  split; [exact Ht0|]. split; [exact Ht|].
  split.
  - rewrite Hp0, Ht0. reflexivity.
  - change (run [ImgLoad 1] c0)
      with (run (List.map image_event [(1, false)]) c0).
    rewrite Hp.
    change (run (List.map image_event [(1, false)]) c0)
      with (run [ImgLoad 1] c0).
    rewrite Ht. reflexivity.
Defined.

(** User and page events are not held back by the gate: leaving the
    widget with the pointer starts the timer while an image is pending. *)
Lemma mouseleave_starts_timer :
  exists c0,
    carousel_of (page_of [item 0] [{| img := 0; complete := false |}]) = Some c0 /\
    loadedImages (step MouseLeave c0) = 0 /\
    autoRotateTimer (step MouseLeave c0) = true.
Proof. eexists. split; [reflexivity|]. cbn. split; reflexivity. Qed.

(** *** Missing anchors *)

Definition carousel_anchor_missing (p : Page) : Prop :=
  wrapper p = false \/ circle p = None \/ circle p = Some [] \/
  prevBtn p = false \/ nextBtn p = false.

Lemma init_without_anchor (p : Page) :
  carousel_anchor_missing p -> initCircularTestimonials p = (p, None).
Proof.
  intros H. unfold initCircularTestimonials.
  destruct (wrapper p) eqn:Hw; [|reflexivity].
  destruct (circle p) as [[|b0 rest]|] eqn:Hc; try reflexivity.
  destruct (prevBtn p) eqn:Hp; [|reflexivity].
  destruct (nextBtn p) eqn:Hn; [|reflexivity].
  exfalso. destruct H as [H|[H|[H|[H|H]]]]; congruence.
Qed.

End CarouselFacts.

(** ** Ring placement *)

Module RingFacts.

Import CircularTestimonials RingPlacement.
Local Open Scope R_scope.

Lemma place_from_nth rect ow oh (n : nat) (items : list Item) :
  forall (k i : nat),
    nth_error (place_from rect ow oh n k items) i
    = option_map (place rect ow oh n (k + i)) (nth_error items i).
Proof.
  induction items as [|it items IH]; intros k i.
  - destruct i; reflexivity.
  - destruct i as [|i]; cbn [place_from nth_error option_map].
    + now rewrite Nat.add_0_r.
    + rewrite IH. now rewrite Nat.add_succ_r.
Qed.

Lemma place_from_length rect ow oh (n : nat) (items : list Item) :
  forall k, List.length (place_from rect ow oh n k items) = List.length items.
Proof.
  induction items as [|it items IH]; intros k; simpl; [reflexivity|].
  now rewrite IH.
Qed.

Lemma sum_steps_total (step : R) (n : nat) : sum_steps step n = INR n * step.
Proof.
  induction n as [|n IH].
  - simpl. ring.
  - cbn [sum_steps]. rewrite IH, S_INR. ring.
Qed.

Lemma radius_floor rect : 210 <= radius rect.
Proof. unfold radius. apply Rmax_l. Qed.

Lemma on_circle (r a : R) :
  0 <= r -> sqrt (Rsqr (r * cos a) + Rsqr (r * sin a)) = r.
Proof.
  intros Hr.
  replace (Rsqr (r * cos a) + Rsqr (r * sin a))
    with (Rsqr r * (Rsqr (sin a) + Rsqr (cos a))) by (unfold Rsqr; ring).
  rewrite sin2_cos2, Rmult_1_r. apply sqrt_Rsqr. exact Hr.
Qed.

(** C5.  For the item [it] at index [i] of an order of [n] elements,
    [positionItems] writes the point
    [(cx + R cos t - w/2, cy + R sin t - h/2)] with
    [R = max 210 (0.55 * min width height)], [t = (2 pi / n) i - pi / 2],
    [(cx, cy)] the centre of the container and [w], [h] the item's size.
    The point the item is centred on is at distance [R] from the centre,
    [R] is at least 210, and [n] angular steps add up to [2 pi]. *)
Theorem ring_placement (rect : Rect) (ow oh : Item -> Z)
  (order : list Item) (i : nat) (it : Item) :
  nth_error order i = Some it ->
  let n := List.length order in
  let R := Rmax 210 (0.55 * Rmin (width rect) (height rect)) in
  let t := (2 * PI / INR n) * INR i - PI / 2 in
  let cx := width rect / 2 in
  let cy := height rect / 2 in
  exists xy,
    nth_error (positionItems rect ow oh order) i = Some xy /\
    xy = (cx + R * cos t - IZR (ow it) / 2, cy + R * sin t - IZR (oh it) / 2) /\
    (let a := anchor_point ow oh it xy in
     sqrt (Rsqr (fst a - cx) + Rsqr (snd a - cy)) = R) /\
    210 <= R /\
    sum_steps (angleStep n) n = 2 * PI /\
    List.length (positionItems rect ow oh order) = n.
Proof.
  intros Hi n R t cx cy.
  assert (HR : R = radius rect).
  { subst R. unfold radius, baseSize. f_equal. apply Rmult_comm. }
  assert (Hn : INR n <> 0).
  { apply not_0_INR. subst n. destruct order; [destruct i; discriminate|].
    discriminate. }
  exists (place rect ow oh n i it).
  split.
  { unfold positionItems. rewrite place_from_nth, Hi. reflexivity. }
  split.
  { unfold place, angle, angleStep, centerX, centerY. rewrite <- HR.
    reflexivity. }
  split.
  { cbv zeta. unfold anchor_point, place. cbn [fst snd].
    fold cx cy. rewrite <- HR.
    replace (centerX rect + R * cos (angle n i) - IZR (ow it) / 2
             + IZR (ow it) / 2 - cx)
      with (R * cos (angle n i)) by (unfold centerX, cx; field).
    replace (centerY rect + R * sin (angle n i) - IZR (oh it) / 2
             + IZR (oh it) / 2 - cy)
      with (R * sin (angle n i)) by (unfold centerY, cy; field).
    apply on_circle. rewrite HR.
    apply Rle_trans with 210; [lra | apply radius_floor]. }
  split; [rewrite HR; apply radius_floor|].
  split.
  { rewrite sum_steps_total. unfold angleStep. field. exact Hn. }
  unfold positionItems. apply place_from_length.
Qed.

Definition unit_rect : Rect := {| width := 800; height := 600 |}.

Lemma ring_placement_witness :
  exists xy,
    nth_error (positionItems unit_rect (fun _ => 100%Z) (fun _ => 80%Z)
                 [CarouselFacts.item 0; CarouselFacts.item 1]) 1 = Some xy /\
    sqrt (Rsqr (fst (anchor_point (fun _ => 100%Z) (fun _ => 80%Z)
                       (CarouselFacts.item 1) xy) - 800 / 2)
          + Rsqr (snd (anchor_point (fun _ => 100%Z) (fun _ => 80%Z)
                         (CarouselFacts.item 1) xy) - 600 / 2))
    = Rmax 210 (0.55 * Rmin 800 600).
Proof.
  destruct (@ring_placement unit_rect (fun _ => 100%Z) (fun _ => 80%Z)
              [CarouselFacts.item 0; CarouselFacts.item 1] 1
              (CarouselFacts.item 1) eq_refl)
    as (xy & Hnth & _ & Hdist & _).
  exists xy. split; [exact Hnth | exact Hdist].
Defined.

End RingFacts.

(** ** The ray renderer's helpers *)

Module RaysFacts.

Import LightRays.

(** *** Anchors and directions *)

Local Open Scope string_scope.
Local Open Scope Q_scope.

Inductive Edge := Top | Bottom | Left | Right.

(** The point at fraction [along] of the viewport edge [ed], moved away
    from the viewport by 20% of the viewport's extent across that edge. *)
Definition outside_edge (ed : Edge) (along w h : Q) : Q * Q :=
  match ed with
  | Top => (along * w, 0 - 0.2 * h)
  | Bottom => (along * w, h + 0.2 * h)
  | Left => (0 - 0.2 * w, along * h)
  | Right => (w + 0.2 * w, along * h)
  end.

(** The unit normal of the edge that points into the viewport. *)
Definition inward (ed : Edge) : Q * Q :=
  match ed with
  | Top => (0, 1)
  | Bottom => (0, -1)
  | Left => (1, 0)
  | Right => (-1, 0)
  end.

Definition same_point (a b : Q * Q) : Prop :=
  fst a == fst b /\ snd a == snd b.

Definition placed (pl : Placement) (ed : Edge) (along w h : Q) : Prop :=
  same_point (anchor pl) (outside_edge ed along w h) /\ dir pl = inward ed.

(** The names the [switch] has a [case] for. *)
Definition case_names : list JsString :=
  [js "top-left"; js "top-right"; js "left"; js "right";
   js "bottom-left"; js "bottom-center"; js "bottom-right"].

Definition has_case (origin : JsString) : bool :=
  existsb (js_eqb origin) case_names.

(** C6.  Each named origin gets the anchor 20% outside its viewport edge
    and the unit direction perpendicular to that edge, pointing in:
    the top presets point (0, 1), the bottom presets (0, -1), "left"
    (1, 0) and "right" (-1, 0).  "top-center", like every origin without
    a case of its own, takes the default: (0.5 w, -0.2 h) with (0, 1).
    In particular "left" gives (-0.2 w, 0.5 h) with (1, 0) and
    "bottom-right" gives (w, 1.2 h) with (0, -1). *)
Theorem ray_anchor_presets (w h : Q) (origin : JsString) :
  let at_ name := getAnchorAndDir (js name) w h in
  (same_point (anchor (at_ "left")) (- (0.2) * w, 0.5 * h)
   /\ dir (at_ "left") = (1, 0)) /\
  (same_point (anchor (at_ "bottom-right")) (w, 1.2 * h)
   /\ dir (at_ "bottom-right") = (0, -1)) /\
  placed (at_ "top-left") Top 0 w h /\
  placed (at_ "top-center") Top 0.5 w h /\
  placed (at_ "top-right") Top 1 w h /\
  placed (at_ "left") Left 0.5 w h /\
  placed (at_ "right") Right 0.5 w h /\
  placed (at_ "bottom-left") Bottom 0 w h /\
  placed (at_ "bottom-center") Bottom 0.5 w h /\
  placed (at_ "bottom-right") Bottom 1 w h /\
  (has_case origin = true \/
   (placed (getAnchorAndDir origin w h) Top 0.5 w h /\
    same_point (anchor (getAnchorAndDir origin w h)) (0.5 * w, - (0.2) * h))) /\
  (let d := dir (getAnchorAndDir origin w h) in
   fst d * fst d + snd d * snd d == 1).
Proof.
  cbv zeta.
  repeat match goal with
         | |- _ /\ _ => split
         end;
    try (unfold placed, same_point; cbn [getAnchorAndDir]; vm_compute js_eqb);
    try (cbn -[Qmult Qplus Qminus Qopp Qeq]; unfold outside;
         repeat split; try reflexivity; ring).
  - unfold has_case, case_names, getAnchorAndDir. cbn [existsb].
    repeat match goal with
           | |- context [js_eqb origin ?n] => destruct (js_eqb origin n)
           end; cbn [orb]; try (left; reflexivity).
    right. unfold placed, same_point. cbn -[Qmult Qplus Qminus Qopp Qeq].
    unfold outside. repeat split; try reflexivity; ring.
  - unfold getAnchorAndDir.
    repeat match goal with
           | |- context [js_eqb origin ?n] => destruct (js_eqb origin n)
           end; reflexivity.
Qed.

(** *** Colours *)

Local Close Scope Q_scope.
Local Open Scope N_scope.

(** The specification's side: an optional [#], then six hexadecimal
    digits, each pair a channel value over 255. *)
Definition hex_digits : list (N * Z) :=
  combine (js "0123456789abcdefABCDEF")
          [0; 1; 2; 3; 4; 5; 6; 7; 8; 9; 10; 11; 12; 13; 14; 15;
           10; 11; 12; 13; 14; 15]%Z.

Definition lookup_digit (c : N) : option Z :=
  option_map snd (find (fun p => fst p =? c) hex_digits).

Definition is_hex_digit (c : N) : bool :=
  match lookup_digit c with Some _ => true | None => false end.

Definition body (s : JsString) : JsString :=
  match s with
  | c :: r => if c =? 35 then r else s
  | [] => s
  end.

Definition is_hex_color (s : JsString) : bool :=
  (List.length (body s) =? 6)%nat && forallb is_hex_digit (body s).

Definition digit_value (c : N) : Z :=
  match lookup_digit c with Some v => v | None => 0 end.

Definition channel (hi lo : N) : Q :=
  (inject_Z (16 * digit_value hi + digit_value lo) / 255)%Q.

Definition spec_rgb (s : JsString) : list Num :=
  match body s with
  | [a; b; c; d; e; f] =>
      [Some (channel a b); Some (channel c d); Some (channel e f)]
  | _ => [Some 1%Q; Some 1%Q; Some 1%Q]
  end.

(** Every component is a number between 0 and 1. *)
Definition unit_channels (l : list Num) : Prop :=
  exists r g b : Q, l = [Some r; Some g; Some b] /\
    (0 <= r <= 1 /\ 0 <= g <= 1 /\ 0 <= b <= 1)%Q.

(** A test that holds on every ASCII unit, checked by running it. *)
Lemma ascii_check (P : N -> bool) :
  forallb P (List.map N.of_nat (seq 0 128)) = true ->
  forall c, c < 128 -> P c = true.
Proof.
  intros H c Hc. rewrite forallb_forall in H. apply H.
  apply in_map_iff. exists (N.to_nat c). split; [apply N2Nat.id|].
  apply in_seq. lia.
Qed.

Lemma in_range_above (lo hi c : N) : hi < c -> in_range lo hi c = false.
Proof.
  intros H. unfold in_range. apply andb_false_iff. right.
  apply N.leb_gt. exact H.
Qed.

(** The digits of the table are ASCII units. *)
Lemma is_hex_digit_ascii (c : N) : is_hex_digit c = true -> c < 128.
Proof.
  unfold is_hex_digit, lookup_digit.
  let t := eval vm_compute in hex_digits in change hex_digits with t.
  cbn [find fst].
  repeat match goal with
         | |- context [?k =? c] =>
             destruct (N.eqb_spec k c) as [<-|_]; [intros _; reflexivity|]
         end.
  discriminate.
Qed.

Lemma class_is_hex (c : N) : class_af_d_i c = is_hex_digit c.
Proof.
  destruct (N.lt_ge_cases c 128) as [Hc|Hc].
  - apply Bool.eqb_prop.
    apply (ascii_check (fun c => Bool.eqb (class_af_d_i c) (is_hex_digit c)));
      [vm_compute; reflexivity | exact Hc].
  - destruct (is_hex_digit c) eqn:E.
    + apply is_hex_digit_ascii in E. lia.
    + unfold class_af_d_i, to_lower, to_upper.
      rewrite !(@in_range_above _ _ c) by lia. reflexivity.
Qed.

Lemma hex_digit_facts (c : N) :
  is_hex_digit c = true ->
  c < 128 /\ is_space c = false /\ (c =? 45) = false /\ (c =? 43) = false /\
  (c =? 120) = false /\ (c =? 88) = false /\ (c =? 35) = false /\
  exists v, hex_digit c = Some v /\ Z.of_N v = digit_value c /\ v < 16.
Proof.
  intros H.
  assert (Hc : c < 128).
  { exact (is_hex_digit_ascii c H). }
  pose proof (@ascii_check
    (fun c => implb (is_hex_digit c)
       (negb (is_space c) && negb (c =? 45) && negb (c =? 43)
        && negb (c =? 120) && negb (c =? 88) && negb (c =? 35)
        && match hex_digit c with
           | Some v => (Z.of_N v =? digit_value c)%Z && (v <? 16)
           | None => false
           end)) ltac:(vm_compute; reflexivity) c Hc) as K.
  cbv beta in K. rewrite H in K. cbn [implb] in K.
  repeat (apply andb_prop in K; destruct K as (K & ?)).
  repeat match goal with
         | Hn : negb _ = true |- _ => apply negb_true_iff in Hn
         end.
  repeat split; try assumption.
  destruct (hex_digit c) as [v|]; [|discriminate].
  exists v. split; [reflexivity|].
  match goal with
  | Hv : (_ && _)%bool = true |- _ =>
      apply andb_prop in Hv; destruct Hv as (Hv1 & Hv2)
  end.
  split; [apply Z.eqb_eq; assumption | apply N.ltb_lt; assumption].
Qed.

Lemma parse_pair (hi lo : N) :
  is_hex_digit hi = true -> is_hex_digit lo = true ->
  parseInt16 [hi; lo] = Some (16 * digit_value hi + digit_value lo)%Z /\
  (0 <= 16 * digit_value hi + digit_value lo <= 255)%Z.
Proof.
  intros Hh Hl.
  destruct (hex_digit_facts hi Hh)
    as (_ & Hs & Hm & Hp & _ & _ & _ & vh & Eh & Vh & Bh).
  destruct (hex_digit_facts lo Hl)
    as (_ & _ & _ & _ & Hx & HX & _ & vl & El & Vl & Bl).
  unfold parseInt16. cbn [skip_spaces]. rewrite Hs.
  unfold strip_sign. rewrite Hm, Hp. unfold strip_0x. rewrite Hx, HX.
  cbn [orb]. rewrite andb_false_r, Eh. cbn [digits16]. rewrite Eh, El.
  split; [|lia]. f_equal. rewrite <- Vh, <- Vl. lia.
Qed.

Section Groups.

Variable cls : N -> bool.

(** Three groups of two units of a class, anchored at both ends. *)
Lemma three_groups (b : JsString) :
  match_pieces [Group cls 2; Group cls 2; Group cls 2] b
  = if (List.length b =? 6)%nat && forallb cls b
    then match b with
         | [d1; d2; d3; d4; d5; d6] => Some [[d1; d2]; [d3; d4]; [d5; d6]]
         | _ => None
         end
    else None.
Proof.
  destruct b as [|d1 [|d2 [|d3 [|d4 [|d5 [|d6 [|d7 b]]]]]]];
    cbn [match_pieces take_class List.length Nat.eqb andb forallb];
    repeat match goal with
           | |- context [cls ?d] => destruct (cls d)
           end; reflexivity.
Qed.

Lemma group_rejects (c : N) (n : nat) (ps : list Piece) (r : JsString) :
  cls c = false -> match_pieces (Group cls (S n) :: ps) (c :: r) = None.
Proof. intros H. cbn [match_pieces take_class]. rewrite H. reflexivity. Qed.

End Groups.

Lemma opt_unit_step (c : N) (ps : list Piece) (s : JsString) :
  match_pieces (OptUnit c :: ps) s
  = match s with
    | x :: s' =>
        if x =? c then
          match match_pieces ps s' with
          | Some caps => Some caps
          | None => match_pieces ps s
          end
        else match_pieces ps s
    | [] => match_pieces ps s
    end.
Proof. destruct s; reflexivity. Qed.

Lemma hex_pattern_body (s : JsString) :
  match_pieces hex_pattern s
  = match_pieces [Group class_af_d_i 2; Group class_af_d_i 2;
                  Group class_af_d_i 2] (body s).
Proof.
  unfold hex_pattern, body. rewrite opt_unit_step.
  destruct s as [|c r]; [reflexivity|].
  destruct (c =? 35) eqn:E; [|reflexivity].
  apply N.eqb_eq in E. subst c.
  rewrite (@group_rejects class_af_d_i 35 1 _ r) by reflexivity.
  destruct (match_pieces _ r); reflexivity.
Qed.

Lemma forallb_class (b : JsString) :
  forallb class_af_d_i b = forallb is_hex_digit b.
Proof.
  induction b as [|c b IH]; simpl; [reflexivity|].
  now rewrite class_is_hex, IH.
Qed.

Lemma unit_channel (hi lo : N) :
  (0 <= 16 * digit_value hi + digit_value lo <= 255)%Z ->
  (0 <= channel hi lo <= 1)%Q.
Proof.
  intros (H0 & H1). unfold channel.
  set (z := (16 * digit_value hi + digit_value lo)%Z) in *.
  unfold Qdiv, Qmult, Qinv, Qle, inject_Z. cbn. lia.
Qed.

(** C10.  [hexToRgb] is defined on every string.  On an optional [#]
    followed by exactly six hexadecimal digits it is the three channel
    values, each over 255; on every other string it is [1, 1, 1].
    Every component of the result is a number between 0 and 1.  So
    [#ff8000] gives 255/255, 128/255 and 0/255, [1A2b3C] gives 26/255,
    43/255 and 60/255, and the three-digit [#fff], the empty string and
    a colour name give [1, 1, 1]. *)
Theorem hexToRgb_total (hex : JsString) :
  hexToRgb hex = (if is_hex_color hex then spec_rgb hex
                  else [Some 1%Q; Some 1%Q; Some 1%Q]) /\
  unit_channels (hexToRgb hex) /\
  hexToRgb (js "#ff8000")
  = [Some (255 # 255)%Q; Some (128 # 255)%Q; Some (0 # 255)%Q] /\
  hexToRgb (js "1A2b3C")
  = [Some (26 # 255)%Q; Some (43 # 255)%Q; Some (60 # 255)%Q] /\
  hexToRgb (js "#fff") = [Some 1%Q; Some 1%Q; Some 1%Q] /\
  hexToRgb (js "") = [Some 1%Q; Some 1%Q; Some 1%Q] /\
  hexToRgb (js "white") = [Some 1%Q; Some 1%Q; Some 1%Q].
Proof.
  apply (proj1 (and_assoc _ _ _)). split; [|vm_compute; repeat split; reflexivity].
  assert (Hw : unit_channels white).
  { exists 1%Q, 1%Q, 1%Q. split; [reflexivity|].
    repeat split; discriminate. }
  unfold hexToRgb, is_hex_color, spec_rgb.
  rewrite hex_pattern_body, three_groups, forallb_class.
  destruct ((List.length (body hex) =? 6)%nat && forallb is_hex_digit (body hex))
    eqn:E; [|split; [reflexivity|exact Hw]].
  apply andb_prop in E. destruct E as (El & Ef).
  destruct (body hex) as [|a [|b [|c [|d [|e [|f [|g rest]]]]]]];
    try discriminate El.
  cbn [forallb] in Ef.
  repeat (apply andb_prop in Ef; let H := fresh "D" in destruct Ef as (H & Ef)).
  destruct (parse_pair a b) as (P1 & B1); try assumption.
  destruct (parse_pair c d) as (P2 & B2); try assumption.
  destruct (parse_pair e f) as (P3 & B3); try assumption.
  rewrite P1, P2, P3. cbn [div255]. fold (channel a b) (channel c d) (channel e f).
  split; [reflexivity|].
  exists (channel a b), (channel c d), (channel e f).
  split; [reflexivity|].
  split; [apply unit_channel; exact B1|].
  split; apply unit_channel; assumption.
Qed.

End RaysFacts.

(** ** Initialisation with anchors missing *)

Module AnchorFacts.

Definition no_track : VideoTestimonials.Dom :=
  {| VideoTestimonials.domTrack := None;
     VideoTestimonials.domSlider := true;
     VideoTestimonials.domPagination := None |}.

(** C9, as stated, fails for the slider: with the track missing, [init]
    is not a no-op.  It stores what it found and schedules itself again. *)
Lemma slider_init_not_noop :
  SliderFacts.slider_anchor_missing no_track /\
  VideoTestimonials.init no_track VideoTestimonials.initial
    <> VideoTestimonials.initial /\
  VideoTestimonials.timeouts
    (VideoTestimonials.init no_track VideoTestimonials.initial)
    = [VideoTestimonials.RetryInit] /\
  VideoTestimonials.slider
    (VideoTestimonials.init no_track VideoTestimonials.initial) = true.
Proof.
  split; [left; reflexivity|]. split; [|split; reflexivity].
  intros E. apply (f_equal VideoTestimonials.timeouts) in E. discriminate.
Qed.

(** C9, amended.  With a carousel anchor missing,
    [initCircularTestimonials] returns at its guard: the page is as
    before and no closure exists.  With a slider anchor missing, [init]
    does not throw and starts nothing (cursor, cards, slide count, dots,
    track style, drag variables, autoplay timer and resize listeners are
    as before), but it is not a no-op: it stores the anchors it found and
    leaves one retry of itself pending, and each retry that still finds an
    anchor missing schedules the next. *)
Theorem missing_anchor_behaviour
  (p : CircularTestimonials.Page)
  (d : VideoTestimonials.Dom) (e : VideoTestimonials.Env)
  (s : VideoTestimonials.Slider) (n : nat) :
  CarouselFacts.carousel_anchor_missing p -> SliderFacts.slider_anchor_missing d ->
  CircularTestimonials.initCircularTestimonials p = (p, None) /\
  (let s' := VideoTestimonials.init d s in
   VideoTestimonials.timeouts s'
     = VideoTestimonials.timeouts s ++ [VideoTestimonials.RetryInit] /\
   VideoTestimonials.track s' = VideoTestimonials.domTrack d /\
   VideoTestimonials.slider s' = VideoTestimonials.domSlider d /\
   VideoTestimonials.current s' = VideoTestimonials.current s /\
   VideoTestimonials.cards s' = VideoTestimonials.cards s /\
   VideoTestimonials.totalSlides s' = VideoTestimonials.totalSlides s /\
   VideoTestimonials.pagination s' = VideoTestimonials.pagination s /\
   VideoTestimonials.style s' = VideoTestimonials.style s /\
   VideoTestimonials.dragv s' = VideoTestimonials.dragv s /\
   VideoTestimonials.autoplayTimer s' = VideoTestimonials.autoplayTimer s /\
   VideoTestimonials.resizeBound s' = VideoTestimonials.resizeBound s) /\
  (let polled := Nat.iter n (VideoTestimonials.settle d e)
                   (VideoTestimonials.init d VideoTestimonials.initial) in
   VideoTestimonials.timeouts polled = [VideoTestimonials.RetryInit] /\
   VideoTestimonials.current polled = 0%Z /\
   VideoTestimonials.cards polled = [] /\
   VideoTestimonials.autoplayTimer polled = false).
Proof.
  intros Hp Hd. split; [apply CarouselFacts.init_without_anchor; exact Hp|].
  split; [apply SliderFacts.init_polls; exact Hd|].
  destruct (SliderFacts.polling_continues e n Hd) as (A & B & C & D & _).
  cbv zeta. auto.
Qed.

Definition no_wrapper : CircularTestimonials.Page :=
  {| CircularTestimonials.wrapper := false;
     CircularTestimonials.circle := None;
     CircularTestimonials.prevBtn := false;
     CircularTestimonials.nextBtn := false;
     CircularTestimonials.images := [] |}.

Lemma missing_anchor_behaviour_witness :
  CircularTestimonials.initCircularTestimonials no_wrapper = (no_wrapper, None) /\
  VideoTestimonials.timeouts
    (Nat.iter 3 (VideoTestimonials.settle no_track SliderFacts.desktop)
       (VideoTestimonials.init no_track VideoTestimonials.initial))
  = [VideoTestimonials.RetryInit].
Proof.
  assert (Hp : CarouselFacts.carousel_anchor_missing no_wrapper) by (left; reflexivity).
  assert (Hd : SliderFacts.slider_anchor_missing no_track) by (left; reflexivity).
  destruct (@missing_anchor_behaviour no_wrapper no_track SliderFacts.desktop
              VideoTestimonials.initial 3 Hp Hd) as (A & _ & B & _).
  split; [exact A | exact B].
Defined.

End AnchorFacts.

(* ================================================================== *)
(** * Further properties                                               *)
(* ================================================================== *)

(** ** The slider under arbitrary input *)

Module SliderExtra.

Import VideoTestimonials SliderFacts.
Local Open Scope Z_scope.

(** A pending loop check of a track of [3N] cards. *)
Definition rehome (N : Z) (cb : Callback) : Prop :=
  cb = RehomeToStart \/ cb = RehomeToEnd (2 * N).

(** The track is cloned and only loop checks are pending. *)
Definition Core (N : Z) (s : Slider) : Prop :=
  totalSlides s = N /\ Z.of_nat (List.length (cards s)) = 3 * N /\
  Forall (rehome N) (timeouts s).

(** With no loop check pending the cursor is on an original card. *)
Definition Inv (N : Z) (s : Slider) : Prop :=
  Core N s /\ (timeouts s = [] -> N <= current s < 2 * N).

(** Dots exist for the indices [0 .. N-1] only. *)
Definition valid_input (N : Z) (i : Input) : Prop :=
  match i with
  | ClickDot k => 0 <= k < N
  | _ => True
  end.

(** The parts of the state the loop check depends on. *)
Definition same_core (s s' : Slider) : Prop :=
  totalSlides s' = totalSlides s /\ cards s' = cards s /\
  timeouts s' = timeouts s /\ current s' = current s.

Lemma same_core_Inv N s s' : same_core s s' -> Inv N s -> Inv N s'.
Proof.
  intros (A & B & C & D) ((HT & HL & HF) & Hr).
  unfold Inv, Core. rewrite A, B, C, D. auto.
Qed.

Lemma stopAutoplay_core s : same_core s (stopAutoplay s).
Proof. unfold stopAutoplay, same_core. destruct (autoplayTimer s); cbn; auto. Qed.

Lemma resetAutoplay_core s : same_core s (resetAutoplay s).
Proof.
  unfold resetAutoplay, stopAutoplay, same_core.
  destruct (autoplayTimer s); cbn; auto.
Qed.

Lemma startDrag_core x m s : same_core s (startDrag x m s).
Proof.
  unfold startDrag, stopAutoplay, same_core.
  destruct (autoplayTimer _); cbn; auto.
Qed.

Lemma drag_core x s : same_core s (drag x s).
Proof. unfold drag, same_core. destruct (isDragging _); cbn; auto. Qed.

Lemma update_core e a s : same_core s (update e a s).
Proof.
  unfold same_core.
  rewrite update_totalSlides, update_cards, update_timeouts, update_current.
  auto.
Qed.

Lemma createPagination_core s : same_core s (createPagination s).
Proof.
  destruct (createPagination_frame s) as (A & B & C).
  unfold same_core. rewrite A, B, C. repeat split.
  unfold createPagination. destruct (pagination s); [|reflexivity].
  rewrite updatePagination_current. reflexivity.
Qed.

Lemma same_core_trans s1 s2 s3 :
  same_core s1 s2 -> same_core s2 s3 -> same_core s1 s3.
Proof.
  intros (A & B & C & D) (A' & B' & C' & D'). unfold same_core.
  rewrite A', B', C', D'. auto.
Qed.

Lemma Core_cards N s : 0 < N -> Core N s -> cards s <> [].
Proof.
  intros HN (_ & Hl & _) E. rewrite E in Hl. change (0 = 3 * N) in Hl. lia.
Qed.

(** Moving the cursor anywhere and running the loop check keeps the
    invariant: out of range, a loop check is now pending. *)
Lemma moved_Inv e N s c :
  Core N s -> Inv N (checkLoop (update e true (set_current c s))).
Proof.
  intros (HT & HL & HF).
  unfold checkLoop, setTimeout.
  rewrite update_totalSlides, update_cards, update_current.
  cbn [totalSlides cards current set_current]. rewrite HL, HT.
  replace (3 * N - N) with (2 * N) by lia.
  destruct (c >=? 2 * N) eqn:E1; [|destruct (c <? N) eqn:E2].
  - split.
    + unfold Core. cbn [totalSlides cards timeouts set_timeouts].
      rewrite update_totalSlides, update_cards, update_timeouts.
      cbn [totalSlides cards timeouts set_current].
      repeat split; auto. apply Forall_app. split; [exact HF|].
      constructor; [left; reflexivity|constructor].
    + cbn [timeouts set_timeouts]. intros E.
      apply app_eq_nil in E. destruct E as (_ & E). discriminate.
  - split.
    + unfold Core. cbn [totalSlides cards timeouts set_timeouts].
      rewrite update_totalSlides, update_cards, update_timeouts.
      cbn [totalSlides cards timeouts set_current].
      repeat split; auto. apply Forall_app. split; [exact HF|].
      constructor; [right; reflexivity|constructor].
    + cbn [timeouts set_timeouts]. intros E.
      apply app_eq_nil in E. destruct E as (_ & E). discriminate.
  - split.
    + unfold Core.
      rewrite update_totalSlides, update_cards, update_timeouts.
      cbn [totalSlides cards timeouts set_current]. auto.
    + intros _. rewrite update_current. cbn [current set_current].
      rewrite Z.geb_leb in E1. apply Z.leb_gt in E1. apply Z.ltb_ge in E2. lia.
Qed.

Lemma handle_Inv e N i s :
  0 < N -> Inv N s -> valid_input N i ->
  exists s', handle e i s = Some s' /\ Inv N s'.
Proof.
  intros HN HI Hv. pose proof (Core_cards HN (proj1 HI)) as Hc.
  destruct i; cbn [handle].
  - eexists. split; [reflexivity|].
    apply (same_core_Inv (resetAutoplay_core _)). apply moved_Inv, HI.
  - eexists. split; [reflexivity|].
    apply (same_core_Inv (resetAutoplay_core _)). apply moved_Inv, HI.
  - eexists. split; [reflexivity|].
    apply (same_core_Inv (resetAutoplay_core _)).
    destruct HI as ((HT & HL & HF) & _). unfold goToSlide. split.
    + unfold Core. rewrite update_totalSlides, update_cards, update_timeouts.
      cbn [totalSlides cards timeouts set_current]. auto.
    + intros _. rewrite update_current. cbn [current set_current].
      rewrite HT. cbn in Hv. lia.
  - eexists. split; [reflexivity|].
    destruct (autoplayTimer s); [apply moved_Inv, HI|exact HI].
  - eexists. split; [reflexivity|].
    apply (same_core_Inv (stopAutoplay_core _)). exact HI.
  - eexists. split; [reflexivity|].
    apply (same_core_Inv (resetAutoplay_core _)). exact HI.
  - eexists. split; [reflexivity|].
    apply (same_core_Inv (startDrag_core _ _ _)). exact HI.
  - eexists. split; [reflexivity|].
    apply (same_core_Inv (drag_core _ _)). exact HI.
  - unfold endDrag. destruct (isDragging (dragv s)) eqn:Ed.
    + cbn [cards set_dragv]. destruct (cards s) as [|c0 cs] eqn:Ec; [congruence|].
      eexists. split; [reflexivity|].
      apply (same_core_Inv (resetAutoplay_core _)).
      set (s1 := set_dragv _ s).
      assert (H1 : Inv N s1).
      { apply (@same_core_Inv N s); [|exact HI]. unfold same_core. cbn. auto. }
      destruct (release_decision e s1).
      * apply moved_Inv, H1.
      * apply moved_Inv, H1.
      * apply (same_core_Inv (update_core _ _ _)). exact H1.
    + eexists. split; [reflexivity|exact HI].
  - eexists. split; [reflexivity|].
    apply (same_core_Inv (update_core _ _ _)).
    apply (same_core_Inv (createPagination_core _)). exact HI.
Qed.

Lemma handle_all_Inv e N inputs : forall s,
  0 < N -> Inv N s -> Forall (valid_input N) inputs ->
  exists s', handle_all e inputs s = Some s' /\ Inv N s'.
Proof.
  induction inputs as [|i inputs IH]; intros s HN HI Hv; cbn [handle_all].
  - exists s. auto.
  - inversion Hv as [|? ? Hi Hrest]; subst.
    destruct (@handle_Inv e N i s HN HI Hi) as (s1 & E1 & I1). rewrite E1.
    apply IH; assumption.
Qed.

(** Firing loop checks leaves none pending and puts the cursor on the
    first or the last original card. *)
Lemma fire_rehomes d e N (l : list Callback) : forall s,
  Forall (rehome N) l ->
  totalSlides s = N -> Z.of_nat (List.length (cards s)) = 3 * N ->
  timeouts s = [] ->
  let t := fold_left (fun st cb => fire d e cb st) l s in
  Ready N t /\
  (l = [] -> current t = current s) /\
  (l <> [] -> current t = N \/ current t = 2 * N - 1).
Proof.
  induction l as [|cb l IH]; intros s HF HT HL HQ; cbv zeta.
  - cbn. unfold Ready. repeat split; auto. intros H; congruence.
  - inversion HF as [|? ? Hcb Hl]; subst. cbn [fold_left].
    set (s1 := fire d e cb s).
    assert (H1 : totalSlides s1 = totalSlides s /\
                 Z.of_nat (List.length (cards s1)) = 3 * totalSlides s /\
                 timeouts s1 = [] /\
                 (current s1 = totalSlides s \/ current s1 = 2 * totalSlides s - 1)).
    { subst s1. destruct Hcb as [->| ->]; cbn [fire];
        rewrite update_totalSlides, update_cards, update_timeouts, update_current;
        cbn [totalSlides cards timeouts current set_current]; auto. }
    destruct H1 as (A & B & C & D).
    destruct (IH s1 Hl A B C) as (R & E0 & E1).
    split; [exact R|]. split; [intros H; discriminate|]. intros _.
    destruct l as [|cb' l'].
    + rewrite (E0 eq_refl). exact D.
    + apply E1. discriminate.
Qed.

Lemma settle_Inv d e N s :
  0 < N -> Inv N s ->
  Ready N (settle d e s) /\ N <= current (settle d e s) < 2 * N.
Proof.
  intros HN ((HT & HL & HF) & Hr). unfold settle.
  destruct (@fire_rehomes d e N (timeouts s) (set_timeouts [] s) HF HT HL eq_refl)
    as (R & E0 & E1).
  split; [exact R|].
  destruct (timeouts s) as [|cb l] eqn:Eq.
  - rewrite (E0 eq_refl). cbn. apply Hr. reflexivity.
  - destruct E1 as [-> | ->]; [discriminate| |]; lia.
Qed.

(** X1.  From a settled state (cursor in [[N, 2N)], no loop check
    pending), whatever buttons, dots, autoplay ticks, hover, pointer
    gestures and resizes arrive and in whatever order, no handler throws,
    and once the pending loop checks have fired the cursor is again in
    [[N, 2N)] with nothing pending. *)
Theorem settled_cursor_invariant (d : Dom) (e : Env) (N : Z) (s : Slider)
  (inputs : list Input) :
  0 < N -> Ready N s -> N <= current s < 2 * N ->
  Forall (valid_input N) inputs ->
  exists s', handle_all e inputs s = Some s' /\
    Ready N (settle d e s') /\ N <= current (settle d e s') < 2 * N.
Proof.
  intros HN (HT & HL & HQ) Hc Hv.
  assert (HI : Inv N s).
  { split; [|intros _; exact Hc]. unfold Core. rewrite HQ. auto. }
  destruct (@handle_all_Inv e N inputs s HN HI Hv) as (s' & E & I').
  exists s'. split; [exact E|]. apply settle_Inv; assumption.
Qed.

Lemma settled_cursor_invariant_witness :
  let s0 := settle page3 desktop (init page3 initial) in
  exists s', handle_all desktop
               [ClickNext; ClickNext; ClickNext; ClickNext;
                PointerDown 10 {| m41 := -1100 |};
                PointerMove 400; PointerUp; ClickDot 2; ClickPrev] s0 = Some s' /\
    3 <= current (settle page3 desktop s') < 2 * 3.
Proof.
  intros s0.
  assert (HR : Ready 3 s0) by (subst s0; vm_compute; auto).
  assert (Hc : 3 <= current s0 < 2 * 3).
  { assert (E : current s0 = 3) by (subst s0; vm_compute; reflexivity).
    rewrite E. lia. }
  assert (Hv : Forall (valid_input 3)
                 [ClickNext; ClickNext; ClickNext; ClickNext;
                PointerDown 10 {| m41 := -1100 |};
                  PointerMove 400; PointerUp; ClickDot 2; ClickPrev]).
  { repeat constructor; cbn; lia. }
  destruct (@settled_cursor_invariant page3 desktop 3 s0 _ eq_refl HR Hc Hv)
    as (s' & E & _ & Hrange).
  exists s'. split; [exact E | exact Hrange].
Defined.

(** *** Closed forms for settled steps *)

Lemma rehomed_next N m :
  0 < N -> 0 <= m < N -> rehomed N (N + m + 1) = N + (m + 1) mod N.
Proof.
  intros HN Hm. unfold rehomed.
  destruct (2 * N <=? N + m + 1) eqn:E1.
  - apply Z.leb_le in E1. replace (m + 1) with N by lia.
    rewrite Z_mod_same_full. lia.
  - apply Z.leb_gt in E1.
    destruct (N + m + 1 <? N) eqn:E2; [apply Z.ltb_lt in E2; lia|].
    rewrite Z.mod_small by lia. lia.
Qed.

Lemma rehomed_prev N m :
  0 < N -> 0 <= m < N -> rehomed N (N + m - 1) = N + (m - 1) mod N.
Proof.
  intros HN Hm. unfold rehomed.
  destruct (2 * N <=? N + m - 1) eqn:E1; [apply Z.leb_le in E1; lia|].
  destruct (N + m - 1 <? N) eqn:E2.
  - apply Z.ltb_lt in E2. replace (m - 1) with (N - 1 + (-1) * N) by lia.
    rewrite Z_mod_plus_full, Z.mod_small by lia. lia.
  - apply Z.ltb_ge in E2. rewrite Z.mod_small by lia. lia.
Qed.

Lemma iter_next_closed d e N s (k : nat) :
  0 < N -> Ready N s -> N <= current s < 2 * N ->
  Ready N (Nat.iter k (next_settled d e) s) /\
  current (Nat.iter k (next_settled d e) s)
    = N + (current s - N + Z.of_nat k) mod N.
Proof.
  intros HN HR Hc. induction k as [|k (IR & IC)]; simpl Nat.iter.
  - split; [exact HR|]. rewrite Z.add_0_r, Z.mod_small by lia. lia.
  - destruct (next_settled_spec d e HN IR) as (R' & C' & _).
    split; [exact R'|]. rewrite C', IC.
    rewrite rehomed_next by (try apply Z.mod_pos_bound; lia).
    rewrite Z.add_mod_idemp_l by lia. f_equal. f_equal. lia.
Qed.

Lemma iter_prev_closed d e N s (k : nat) :
  0 < N -> Ready N s -> N <= current s < 2 * N ->
  Ready N (Nat.iter k (prev_settled d e) s) /\
  current (Nat.iter k (prev_settled d e) s)
    = N + (current s - N - Z.of_nat k) mod N.
Proof.
  intros HN HR Hc. induction k as [|k (IR & IC)]; simpl Nat.iter.
  - split; [exact HR|]. rewrite Z.sub_0_r, Z.mod_small by lia. lia.
  - destruct (prev_settled_spec d e HN IR) as (R' & C' & _).
    split; [exact R'|]. rewrite C', IC.
    rewrite rehomed_prev by (try apply Z.mod_pos_bound; lia).
    rewrite Zminus_mod_idemp_l. f_equal. f_equal. lia.
Qed.

(** X2.  From a settled state, [k] settled [next()] calls put the cursor
    at [N + ((current - N + k) mod N)]: the active dot advances by [k]
    modulo [N], and [N] calls bring the cursor back to where it was. *)
Theorem next_steps_closed_form (d : Dom) (e : Env) (N : Z) (s : Slider) (k : nat) :
  0 < N -> Ready N s -> N <= current s < 2 * N ->
  let sk := Nat.iter k (next_settled d e) s in
  current sk = N + (current s - N + Z.of_nat k) mod N /\
  getRealIndex N (current sk) = (getRealIndex N (current s) + Z.of_nat k) mod N /\
  current (Nat.iter (Z.to_nat N) (next_settled d e) s) = current s.
Proof.
  intros HN HR Hc sk.
  destruct (@iter_next_closed d e N s k HN HR Hc) as (_ & Ck). fold sk in Ck.
  split; [exact Ck|]. split.
  - rewrite !getRealIndex_mod by exact HN. rewrite Ck.
    replace (N + (current s - N + Z.of_nat k) mod N - N)
      with ((current s - N + Z.of_nat k) mod N) by lia.
    rewrite Z.mod_mod by lia. rewrite Z.add_mod_idemp_l by lia. reflexivity.
  - destruct (@iter_next_closed d e N s (Z.to_nat N) HN HR Hc) as (_ & CN).
    rewrite CN, Z2Nat.id by lia.
    replace (current s - N + N) with (current s - N + 1 * N) by lia.
    rewrite Z_mod_plus_full, Z.mod_small by lia. lia.
Qed.

Lemma next_steps_closed_form_witness :
  let s0 := settle page3 desktop (init page3 initial) in
  current (Nat.iter 5 (next_settled page3 desktop) s0) = 3 + (3 - 3 + 5) mod 3.
Proof.
  intros s0.
  assert (HR : Ready 3 s0) by (subst s0; vm_compute; auto).
  assert (E : current s0 = 3) by (subst s0; vm_compute; reflexivity).
  assert (Hc : 3 <= current s0 < 2 * 3) by (rewrite E; lia).
  destruct (@next_steps_closed_form page3 desktop 3 s0 5 eq_refl HR Hc)
    as (H & _).
  rewrite E in H. exact H.
Defined.

(** X3.  [k] settled [prev()] calls put the cursor at
    [N + ((current - N - k) mod N)]; [N] of them bring it back, and a
    settled [prev()] undoes a settled [next()] and conversely. *)
Theorem prev_steps_closed_form (d : Dom) (e : Env) (N : Z) (s : Slider) (k : nat) :
  0 < N -> Ready N s -> N <= current s < 2 * N ->
  current (Nat.iter k (prev_settled d e) s)
    = N + (current s - N - Z.of_nat k) mod N /\
  current (Nat.iter (Z.to_nat N) (prev_settled d e) s) = current s /\
  current (prev_settled d e (next_settled d e s)) = current s /\
  current (next_settled d e (prev_settled d e s)) = current s.
Proof.
  intros HN HR Hc.
  destruct (@iter_prev_closed d e N s k HN HR Hc) as (_ & Ck).
  split; [exact Ck|]. split.
  - destruct (@iter_prev_closed d e N s (Z.to_nat N) HN HR Hc) as (_ & CN).
    rewrite CN, Z2Nat.id by lia.
    replace (current s - N - N) with (current s - N + (-1) * N) by lia.
    rewrite Z_mod_plus_full, Z.mod_small by lia. lia.
  - destruct (next_settled_spec d e HN HR) as (Rn & Cn & _).
    destruct (prev_settled_spec d e HN HR) as (Rp & Cp & _).
    destruct (prev_settled_spec d e HN Rn) as (_ & Cpn & _).
    destruct (next_settled_spec d e HN Rp) as (_ & Cnp & _).
    rewrite Cpn, Cn, Cnp, Cp. unfold rehomed.
    split.
    + destruct (2 * N <=? current s + 1) eqn:E1.
      * apply Z.leb_le in E1.
        destruct (2 * N <=? N - 1) eqn:E2; [apply Z.leb_le in E2; lia|].
        destruct (N - 1 <? N) eqn:E3; [lia|apply Z.ltb_ge in E3; lia].
      * apply Z.leb_gt in E1.
        destruct (current s + 1 <? N) eqn:E2; [apply Z.ltb_lt in E2; lia|].
        destruct (2 * N <=? current s + 1 - 1) eqn:E3; [apply Z.leb_le in E3; lia|].
        destruct (current s + 1 - 1 <? N) eqn:E4; [apply Z.ltb_lt in E4; lia|lia].
    + destruct (2 * N <=? current s - 1) eqn:E1; [apply Z.leb_le in E1; lia|].
      destruct (current s - 1 <? N) eqn:E2.
      * apply Z.ltb_lt in E2.
        destruct (2 * N <=? 2 * N - 1 + 1) eqn:E3; [lia|apply Z.leb_gt in E3; lia].
      * apply Z.ltb_ge in E2.
        destruct (2 * N <=? current s - 1 + 1) eqn:E3; [apply Z.leb_le in E3; lia|].
        destruct (current s - 1 + 1 <? N) eqn:E4; [apply Z.ltb_lt in E4; lia|lia].
Qed.

Lemma prev_steps_closed_form_witness :
  let s0 := settle page3 desktop (init page3 initial) in
  current (prev_settled page3 desktop (next_settled page3 desktop s0)) = current s0.
Proof.
  intros s0.
  assert (HR : Ready 3 s0) by (subst s0; vm_compute; auto).
  assert (E : current s0 = 3) by (subst s0; vm_compute; reflexivity).
  assert (Hc : 3 <= current s0 < 2 * 3) by (rewrite E; lia).
  destruct (@prev_steps_closed_form page3 desktop 3 s0 0 eq_refl HR Hc)
    as (_ & _ & H & _).
  exact H.
Defined.

(** *** The cloned track *)

Lemma updatePagination_track s : track (updatePagination s) = track s.
Proof. unfold updatePagination. destruct (pagination s); reflexivity. Qed.

Lemma update_track e a s : track (update e a s) = track s.
Proof.
  unfold update. destruct (cards s); [reflexivity|].
  rewrite updatePagination_track. reflexivity.
Qed.

Lemma createPagination_track s : track (createPagination s) = track s.
Proof.
  unfold createPagination. destruct (pagination s); [|reflexivity].
  rewrite updatePagination_track. reflexivity.
Qed.

Lemma deferredSetup_cards e s :
  cards (deferredSetup e s) = cards (cloneCards s) /\
  track (deferredSetup e s) = track (cloneCards s).
Proof.
  unfold deferredSetup, initAutoplay. cbn [config_autoplay].
  cbn [cards track set_autoplayTimer].
  rewrite update_cards, update_track. cbn [cards track set_current].
  rewrite createPagination_track.
  destruct (createPagination_frame (cloneCards s)) as (_ & _ & C).
  split; [exact C|reflexivity].
Qed.

(** X4.  After init the track is
    [clones of the originals ++ originals ++ clones of the originals],
    each block in the original order.  Hence the card at index [N + j] is
    original [j], and the cards at [i] and [i + N] show the same original
    for every [i < 2N]: the positions a loop check swaps show the same
    cards. *)
Theorem cloned_track_layout (d : Dom) (e : Env) (originals : list Card) :
  domTrack d = Some originals -> domSlider d = true ->
  originals <> [] -> existsb cloned originals = false ->
  let n := List.length originals in
  let s0 := settle d e (init d initial) in
  cards s0 = List.map cloneNode originals ++ originals ++ List.map cloneNode originals /\
  track s0 = Some (cards s0) /\
  (forall j, (j < n)%nat -> nth_error (cards s0) (n + j) = nth_error originals j) /\
  (forall i, (i < 2 * n)%nat ->
     option_map source (nth_error (cards s0) i)
     = option_map source (nth_error (cards s0) (i + n))).
Proof.
  intros Ht Hs Hne Hcl n s0.
  assert (Hcards : cards s0 = List.map cloneNode originals ++ originals
                              ++ List.map cloneNode originals
                   /\ track s0 = Some (cards s0)).
  { subst s0. rewrite (init_found d Ht Hs Hne). unfold settle, setTimeout.
    cbn [timeouts set_timeouts set_resizeBound set_totalSlides set_pagination
         set_originalCards set_slider set_track initial app fold_left fire].
    match goal with
    | |- cards (deferredSetup e ?s) = _ /\ _ =>
        destruct (deferredSetup_cards e s) as (A & B); rewrite A, B;
        rewrite (@cloneCards_layout s originals eq_refl eq_refl Hne Hcl)
    end.
    cbn. auto. }
  destruct Hcards as (Hc & Htr).
  split; [exact Hc|]. split; [exact Htr|].
  assert (Hmap : forall k, nth_error (List.map cloneNode originals) k
                           = option_map cloneNode (nth_error originals k))
    by (intros k; apply nth_error_map).
  assert (Hlm : List.length (List.map cloneNode originals) = n)
    by apply length_map.
  split.
  - intros j Hj. rewrite Hc.
    rewrite nth_error_app2 by (rewrite Hlm; lia).
    rewrite Hlm. replace (n + j - n)%nat with j by lia.
    apply nth_error_app1. exact Hj.
  - intros i Hi. rewrite Hc.
    destruct (Nat.lt_ge_cases i n) as [Hlt|Hge].
    + rewrite nth_error_app1 by (rewrite Hlm; exact Hlt).
      rewrite nth_error_app2 by (rewrite Hlm; lia).
      rewrite Hlm. replace (i + n - n)%nat with i by lia.
      rewrite nth_error_app1 by exact Hlt.
      rewrite Hmap. destruct (nth_error originals i); reflexivity.
    + rewrite nth_error_app2 by (rewrite Hlm; exact Hge).
      rewrite Hlm. rewrite nth_error_app1 by (fold n; lia).
      rewrite nth_error_app2 by (rewrite Hlm; lia).
      rewrite Hlm. rewrite nth_error_app2 by (fold n; lia). fold n.
      replace (i + n - n - n)%nat with (i - n)%nat by lia.
      rewrite Hmap. destruct (nth_error originals (i - n)); reflexivity.
Qed.

Lemma cloned_track_layout_witness :
  cards (settle page3 desktop (init page3 initial))
  = List.map cloneNode [card 0; card 1; card 2] ++ [card 0; card 1; card 2]
    ++ List.map cloneNode [card 0; card 1; card 2].
Proof.
  assert (Hne : [card 0; card 1; card 2] <> []) by discriminate.
  destruct (@cloned_track_layout page3 desktop [card 0; card 1; card 2]
              eq_refl eq_refl Hne eq_refl) as (H & _).
  exact H.
Defined.

(** X5.  [cloneCards] clones once: on any state, a second call changes
    nothing, because the first one left a [.cloned] card in the track. *)
Theorem cloneCards_idempotent (s : Slider) :
  cloneCards (cloneCards s) = cloneCards s.
Proof.
  destruct (track s) as [children|] eqn:Et.
  - destruct (existsb cloned children) eqn:Ec.
    + assert (E : cloneCards s = s)
        by (unfold cloneCards; rewrite Et, Ec; reflexivity).
      rewrite !E. reflexivity.
    + destruct (originalCards s) as [|o os] eqn:Eo.
      * assert (E : cloneCards s = s)
          by (unfold cloneCards; rewrite Et, Ec, Eo; reflexivity).
        rewrite !E. reflexivity.
      * set (t := List.map cloneNode (o :: os) ++
                  fold_left (fun t c => t ++ [cloneNode c]) (o :: os) children).
        assert (E : cloneCards s = set_cards t (set_track (Some t) s)).
        { unfold cloneCards. rewrite Et, Ec, Eo.
          rewrite fold_prepend_clones. reflexivity. }
        rewrite E. unfold cloneCards. cbn [track set_cards set_track].
        subst t. cbn [List.map app existsb cloned cloneNode orb]. reflexivity.
  - assert (E : cloneCards s = s) by (unfold cloneCards; rewrite Et; reflexivity).
    rewrite !E. reflexivity.
Qed.

(** *** Dots *)

(** X6.  In a settled state with its [N] dots, a click on dot [i] puts the
    cursor at [N + i], inside [[N, 2N)], animates the track to that
    card's offset, schedules no loop check, and makes dot [i], and only
    dot [i], the active one. *)
Theorem goToSlide_selects (e : Env) (N i : Z) (s : Slider) (dots : list bool) :
  0 < N -> Ready N s -> pagination s = Some dots ->
  List.length dots = Z.to_nat N -> 0 <= i < N ->
  let s' := goToSlide e i s in
  current s' = N + i /\ N <= current s' < 2 * N /\
  timeouts s' = [] /\
  style s' = {| transform := translate_of e (N + i); animated := true |} /\
  getRealIndex N (current s') = i /\
  List.length (dots_of s') = Z.to_nat N /\
  (forall j, (j < Z.to_nat N)%nat -> nth j (dots_of s') false = (Z.of_nat j =? i)).
Proof.
  intros HN HR Hp Hl Hi s'. pose proof (Ready_cards HN HR) as Hc.
  destruct HR as (HT & HL & HQ).
  assert (Hcur : current s' = N + i).
  { subst s'. unfold goToSlide. rewrite update_current. cbn. lia. }
  assert (Hreal : getRealIndex N (N + i) = i).
  { rewrite getRealIndex_mod by exact HN.
    replace (N + i - N) with i by lia. apply Z.mod_small. exact Hi. }
  split; [exact Hcur|]. split; [lia|]. split.
  { subst s'. unfold goToSlide. rewrite update_timeouts. exact HQ. }
  assert (Hs' : s' = updatePagination
                  (set_style {| transform := translate_of e (N + i);
                                animated := true |}
                     (set_current (i + N) s))).
  { subst s'. unfold goToSlide, update. cbn [cards set_current totalSlides].
    destruct (cards s); [congruence|]. cbn [current set_current].
    unfold translate_of. rewrite HT. replace (i + N) with (N + i) by lia.
    reflexivity. }
  split; [rewrite Hs', updatePagination_style; reflexivity|].
  split; [rewrite Hcur; exact Hreal|].
  assert (Hd : dots_of s' = toggle_dots i 0 dots).
  { rewrite Hs'. erewrite updatePagination_dots by (cbn; exact Hp).
    cbn [totalSlides current set_style set_current]. rewrite HT.
    replace (i + N) with (N + i) by lia. rewrite Hreal. reflexivity. }
  rewrite Hd, toggle_dots_length. split; [exact Hl|].
  intros j Hj. rewrite toggle_dots_nth by (rewrite Hl; exact Hj). reflexivity.
Qed.

Lemma goToSlide_selects_witness :
  let s0 := settle page3 desktop (init page3 initial) in
  current (goToSlide desktop 2 s0) = 3 + 2 /\
  dots_of (goToSlide desktop 2 s0) = [false; false; true].
Proof.
  intros s0.
  assert (HR : Ready 3 s0) by (subst s0; vm_compute; auto).
  assert (Hp : pagination s0 = Some [true; false; false])
    by (subst s0; vm_compute; reflexivity).
  assert (Hi : 0 <= 2 < 3) by lia.
  destruct (@goToSlide_selects desktop 3 2 s0 [true; false; false]
              eq_refl HR Hp eq_refl Hi) as (A & _).
  split; [exact A|]. subst s0. vm_compute. reflexivity.
Defined.

(** *** Gestures *)

(** The move events of one gesture, in order. *)
Definition moves (xs : list Q) (s : Slider) : Slider :=
  fold_left (fun st x => drag x st) xs s.

Lemma dragv_update e a s : dragv (update e a s) = dragv s.
Proof.
  unfold update, updatePagination. destruct (cards s); [reflexivity|].
  cbn. destruct (pagination s); reflexivity.
Qed.

Lemma dragv_checkLoop s : dragv (checkLoop s) = dragv s.
Proof.
  unfold checkLoop, setTimeout.
  destruct (_ >=? _); [reflexivity|]. destruct (_ <? _); reflexivity.
Qed.

Lemma dragv_resetAutoplay s : dragv (resetAutoplay s) = dragv s.
Proof. unfold resetAutoplay, stopAutoplay. destruct (autoplayTimer s); reflexivity. Qed.

Lemma autoplay_resetAutoplay s : autoplayTimer (resetAutoplay s) = true.
Proof. unfold resetAutoplay, stopAutoplay. destruct (autoplayTimer s); reflexivity. Qed.

Lemma moves_dragging (xs : list Q) : forall s,
  isDragging (dragv s) = true -> autoplayTimer s = false ->
  let st := moves xs s in
  isDragging (dragv st) = true /\ autoplayTimer st = false /\
  animated (style st) = animated (style s) /\
  startX (dragv st) = startX (dragv s) /\
  prevTranslate (dragv st) = prevTranslate (dragv s) /\
  same_core s st /\
  (xs = [] -> transform (style st) = transform (style s)) /\
  (forall x, last xs x = x -> xs <> [] ->
     transform (style st) = (prevTranslate (dragv s) + (x - startX (dragv s)))%Q).
Proof.
  unfold moves. induction xs as [|x xs IH]; intros s Hd Ha; cbv zeta.
  - cbn. unfold same_core. repeat split; auto. intros x _ H. congruence.
  - cbn [fold_left].
    assert (Hstep : isDragging (dragv (drag x s)) = true /\
                    autoplayTimer (drag x s) = false /\
                    animated (style (drag x s)) = animated (style s) /\
                    startX (dragv (drag x s)) = startX (dragv s) /\
                    prevTranslate (dragv (drag x s)) = prevTranslate (dragv s) /\
                    transform (style (drag x s))
                    = (prevTranslate (dragv s) + (x - startX (dragv s)))%Q).
    { unfold drag. rewrite Hd. cbn. repeat split; auto. }
    destruct Hstep as (A & B & C & D & E & F).
    destruct (IH (drag x s) A B) as (A' & B' & C' & D' & E' & G' & H0 & H1).
    rewrite C', D', E', C, D, E.
    split; [exact A'|]. split; [exact B'|]. split; [reflexivity|].
    split; [reflexivity|]. split; [reflexivity|].
    split; [exact (same_core_trans (drag_core x s) G')|].
    split; [intros H; discriminate|].
    intros y Hy _. destruct xs as [|x' xs'].
    + cbn in Hy. subst y. rewrite (H0 eq_refl). exact F.
    + rewrite (H1 y); [rewrite D, E; reflexivity| |discriminate].
      exact Hy.
Qed.

(** X7.  While a gesture is in progress (a press at [x0], then move
    events of which the last is at [x]) the track follows the pointer
    with no transition: its translate is the computed translate read at
    the press, whether or not a transition was running then, plus
    [x - x0].  Autoplay is off, and the cursor, the cards and the pending
    loop checks are untouched. *)
Theorem drag_follows_pointer (s : Slider) (x0 x : Q) (matrix : DOMMatrix)
  (xs : list Q) :
  let st := moves (xs ++ [x]) (startDrag x0 matrix s) in
  (transform (style st) == m41 matrix + (x - x0))%Q /\
  animated (style st) = false /\
  isDragging (dragv st) = true /\ autoplayTimer st = false /\
  current st = current s /\ cards st = cards s /\ timeouts st = timeouts s.
Proof.
  cbv zeta.
  assert (Hp : isDragging (dragv (startDrag x0 matrix s)) = true /\
               autoplayTimer (startDrag x0 matrix s) = false /\
               animated (style (startDrag x0 matrix s)) = false /\
               startX (dragv (startDrag x0 matrix s)) = x0 /\
               prevTranslate (dragv (startDrag x0 matrix s)) = m41 matrix).
  { unfold startDrag, stopAutoplay, getTranslateX.
    destruct (autoplayTimer _) eqn:E; cbn; repeat split; auto. }
  destruct Hp as (A & B & C & D & E).
  destruct (@moves_dragging (xs ++ [x]) (startDrag x0 matrix s) A B)
    as (A' & B' & C' & _ & _ & (G1 & G2 & G3 & G4) & _ & H1).
  destruct (startDrag_core x0 matrix s) as (K1 & K2 & K3 & K4).
  rewrite (H1 x); [|apply last_last|intros H; destruct xs; discriminate].
  rewrite D, E, C', C, G2, G3, G4, K2, K3, K4.
  repeat split; auto.
Qed.

(** X8.  A release while dragging never throws on a non-empty track; it
    ends the gesture and re-arms autoplay.  Handlers that follow without
    a new press do nothing: a second release (the [mouseleave] after the
    [mouseup]) and any later move leave the state as it is. *)
Theorem release_ends_gesture (e : Env) (s : Slider) :
  isDragging (dragv s) = true -> cards s <> [] ->
  exists s', endDrag e s = Some s' /\
    isDragging (dragv s') = false /\ autoplayTimer s' = true /\
    endDrag e s' = Some s' /\ (forall x, drag x s' = s').
Proof.
  intros Hd Hc. unfold endDrag at 1. rewrite Hd. cbn [cards set_dragv].
  destruct (cards s) as [|c0 cs] eqn:Ec; [congruence|].
  eexists. split; [reflexivity|].
  match goal with |- isDragging (dragv ?t) = false /\ _ => set (s' := t) end.
  assert (Hd' : isDragging (dragv s') = false).
  { subst s'. rewrite dragv_resetAutoplay.
    destruct (release_decision e _); unfold next, prev;
      rewrite ?dragv_checkLoop, dragv_update; reflexivity. }
  split; [exact Hd'|]. split; [apply autoplay_resetAutoplay|].
  split; [unfold endDrag; rewrite Hd'; reflexivity|].
  intros x. unfold drag. rewrite Hd'. reflexivity.
Qed.

Lemma release_ends_gesture_witness :
  let pressed := drag 90 (startDrag 500 {| m41 := -972 |}
                   (settle page3 desktop (init page3 initial))) in
  exists s', endDrag desktop pressed = Some s' /\ autoplayTimer s' = true.
Proof.
  intros pressed.
  assert (Hd : isDragging (dragv pressed) = true) by reflexivity.
  assert (Hc : cards pressed <> []) by (subst pressed; vm_compute; discriminate).
  destruct (@release_ends_gesture desktop pressed Hd Hc) as (s' & E & _ & A & _).
  exists s'. split; [exact E | exact A].
Defined.

(** *** Layout *)

Lemma perView_range (w : Z) : 1 <= perView_of w <= 4.
Proof.
  unfold perView_of.
  repeat match goal with |- context [if ?b then _ else _] => destruct b end; lia.
Qed.

(** X9.  On a window wider than 480 px, [setPerView] gives every card the
    same pixel width and one side margin equal to the gap (on the right
    under left-to-right layout, on the left under right-to-left), and
    [perView] such cards with their margins fill the slider exactly:
    [perView * (cardWidth + gap) = sliderWidth], where [perView] is
    between 1 and 4 and a zero [offsetWidth] counts as 1400.  If the
    first card is rendered at that width, moving the cursor by [perView]
    moves the track by one slider width. *)
Theorem setPerView_fills_slider (e : Env) (sliderOffsetWidth : Z) (s : Slider) :
  480 < innerWidth e -> slider s = true -> cards s <> [] ->
  let sliderWidth := if sliderOffsetWidth =? 0 then 1400 else sliderOffsetWidth in
  let gap := gap_of (innerWidth e) in
  exists cardWidth st,
    setPerView e sliderOffsetWidth s = (perView_of (innerWidth e), Some st) /\
    1 <= perView_of (innerWidth e) <= 4 /\
    css_width st = Px cardWidth /\
    (inject_Z (perView_of (innerWidth e)) * (cardWidth + inject_Z gap)
     == inject_Z sliderWidth)%Q /\
    css_marginRight st = (if isRTL e then 0 else gap) /\
    css_marginLeft st = (if isRTL e then gap else 0) /\
    (forall c, (inject_Z (offsetWidth0 e) == cardWidth)%Q ->
       offset_at e (c + perView_of (innerWidth e)) - offset_at e c = sliderWidth).
Proof.
  intros Hw Hs Hc sliderWidth gap.
  pose proof (perView_range (innerWidth e)) as Hpv.
  assert (H480 : (innerWidth e <=? 480) = false) by (apply Z.leb_gt; exact Hw).
  set (g := if innerWidth e <=? 640 then 12 else 24).
  assert (Hgap : gap = g) by (subst gap g; unfold gap_of; rewrite H480; reflexivity).
  assert (Hgpos : (0 <? g) = true)
    by (unfold g; destruct (innerWidth e <=? 640); reflexivity).
  assert (Hoff : forall c, offset_at e c = (offsetWidth0 e + g) * c).
  { intros c. unfold offset_at. fold gap. rewrite Hgap. reflexivity. }
  clearbody gap. subst gap.
  set (pv := perView_of (innerWidth e)) in *.
  set (cw := (inject_Z (sliderWidth - pv * g) / inject_Z pv)%Q).
  assert (Hfill : (inject_Z pv * (cw + inject_Z g) == inject_Z sliderWidth)%Q).
  { subst cw. unfold Z.sub.
    rewrite inject_Z_plus, inject_Z_opp, inject_Z_mult.
    field. intros H. apply (inject_Z_injective pv 0) in H. lia. }
  exists cw.
  eexists. split.
  { unfold setPerView. rewrite Hs. cbn [negb orb].
    destruct (cards s) as [|c0 cs]; [congruence|]. cbn [List.length Nat.eqb].
    rewrite H480. fold pv. fold sliderWidth. fold g. fold cw. reflexivity. }
  split; [exact Hpv|]. split; [reflexivity|]. split; [exact Hfill|].
  cbn [css_marginRight css_marginLeft]. rewrite Hgpos.
  split; [reflexivity|]. split; [reflexivity|].
  intros c Hrender. rewrite !Hoff.
  assert (Hz : (inject_Z (pv * (offsetWidth0 e + g)) == inject_Z sliderWidth)%Q).
  { rewrite inject_Z_mult, inject_Z_plus, Hrender. exact Hfill. }
  pose proof (proj1 (inject_Z_injective _ _) Hz) as Hz'.
  rewrite <- Hz'. ring.
Qed.

Definition tablet : Env := {| innerWidth := 800; offsetWidth0 := 376; isRTL := true |}.

Lemma setPerView_fills_slider_witness :
  exists cardWidth st,
    setPerView tablet 800 (settle page3 tablet (init page3 initial))
    = (2, Some st) /\
    css_width st = Px cardWidth /\
    (inject_Z 2 * (cardWidth + inject_Z 24) == inject_Z 800)%Q /\
    css_marginLeft st = 24.
Proof.
  assert (Hw : 480 < innerWidth tablet) by (cbn; lia).
  assert (Hc : cards (settle page3 tablet (init page3 initial)) <> [])
    by (vm_compute; discriminate).
  destruct (@setPerView_fills_slider tablet 800
              (settle page3 tablet (init page3 initial)) Hw eq_refl Hc)
    as (cw & st & E & _ & W & F & _ & L & _).
  exists cw, st. repeat split; assumption.
Defined.

End SliderExtra.

(** ** The carousel under arbitrary input *)

Module CarouselExtra.

Import CircularTestimonials CarouselFacts.
Local Open Scope nat_scope.

Definition next1 : list Item -> list Item := rotate_order "next".
Definition prev1 : list Item -> list Item := rotate_order "prev".

(** Moving the first [k] elements behind the rest. *)
Definition shifted (k : nat) (o : list Item) : list Item :=
  skipn k o ++ firstn k o.

Lemma next1_prev1 (o : list Item) : next1 (prev1 o) = o.
Proof.
  unfold next1, prev1. destruct o as [|x r]; [reflexivity|].
  rewrite rotate_prev_cons, rotate_next_snoc. reflexivity.
Qed.

Lemma prev1_next1 (o : list Item) : prev1 (next1 o) = o.
Proof.
  unfold next1, prev1. destruct (snoc_cases o) as [->|(r & x & ->)];
    [reflexivity|].
  rewrite rotate_next_snoc, rotate_prev_cons. reflexivity.
Qed.

Lemma split_at (o : list Item) : forall k x,
  nth_error o k = Some x ->
  skipn k o = x :: skipn (S k) o /\ firstn (S k) o = firstn k o ++ [x].
Proof.
  induction o as [|y o IH]; intros k x H.
  - destruct k; discriminate.
  - destruct k as [|k].
    + cbn in H. injection H as ->. split; reflexivity.
    + cbn in H. destruct (IH k x H) as (A & B).
      split; [exact A|]. cbn [firstn app]. f_equal. exact B.
Qed.

Lemma prev1_shifted (o : list Item) (k : nat) :
  k < List.length o -> prev1 (shifted k o) = shifted (S k) o.
Proof.
  intros Hk. destruct (nth_error o k) as [x|] eqn:E;
    [|apply nth_error_None in E; lia].
  destruct (@split_at o k x E) as (A & B).
  unfold shifted, prev1. rewrite A, B. cbn [app].
  rewrite rotate_prev_cons, <- app_assoc. reflexivity.
Qed.

Lemma shifted_0 (o : list Item) : shifted 0 o = o.
Proof. unfold shifted. cbn. apply app_nil_r. Qed.

Lemma shifted_all (o : list Item) : shifted (List.length o) o = o.
Proof. unfold shifted. rewrite skipn_all, firstn_all. reflexivity. Qed.

Lemma shifted_length (k : nat) (o : list Item) :
  List.length (shifted k o) = List.length o.
Proof.
  unfold shifted. rewrite length_app, length_skipn, length_firstn. lia.
Qed.

Lemma iter_prev1 (o : list Item) (k : nat) :
  k <= List.length o -> Nat.iter k prev1 o = shifted k o.
Proof.
  induction k as [|k IH]; intros Hk; simpl Nat.iter.
  - symmetry. apply shifted_0.
  - rewrite IH by lia. apply prev1_shifted. lia.
Qed.

Lemma iter_next1_prev1 (k : nat) : forall o,
  Nat.iter k next1 (Nat.iter k prev1 o) = o.
Proof.
  induction k as [|k IH]; intros o; [reflexivity|].
  rewrite Nat.iter_succ_r. simpl Nat.iter. rewrite next1_prev1. apply IH.
Qed.

Lemma iter_next1 (o : list Item) (k : nat) :
  k <= List.length o -> Nat.iter k next1 o = shifted (List.length o - k) o.
Proof.
  intros Hk. rewrite <- iter_prev1 by lia.
  rewrite <- (shifted_all o) at 1.
  rewrite <- (@iter_prev1 o (List.length o)) by lia.
  replace (Nat.iter (List.length o) prev1 o)
    with (Nat.iter k prev1 (Nat.iter (List.length o - k) prev1 o))
    by (rewrite <- Nat.iter_add; f_equal; lia).
  apply iter_next1_prev1.
Qed.

(** X10.  [k] rotations backward move the first [k] elements of the order
    behind the rest, [k] rotations forward move the last [k] to the front
    ([k] up to the length); as many rotations as there are elements, in
    either direction, restore the order; and [k] rotations forward undo
    [k] rotations backward. *)
Theorem rotation_full_turn (o : list Item) (k : nat) :
  k <= List.length o ->
  Nat.iter k (rotate_order "prev") o = skipn k o ++ firstn k o /\
  Nat.iter k (rotate_order "next") o
    = skipn (List.length o - k) o ++ firstn (List.length o - k) o /\
  Nat.iter (List.length o) (rotate_order "next") o = o /\
  Nat.iter (List.length o) (rotate_order "prev") o = o /\
  Nat.iter k (rotate_order "next") (Nat.iter k (rotate_order "prev") o) = o.
Proof.
  intros Hk. fold next1 prev1.
  split; [apply iter_prev1; exact Hk|].
  split; [apply iter_next1; exact Hk|].
  split; [rewrite iter_next1, Nat.sub_diag by lia; apply shifted_0|].
  split; [rewrite iter_prev1 by lia; apply shifted_all|].
  apply iter_next1_prev1.
Qed.

Lemma rotation_full_turn_witness :
  Nat.iter 3 (rotate_order "next") [item 0; item 1; item 2]
  = [item 0; item 1; item 2].
Proof.
  assert (Hk : 2 <= List.length [item 0; item 1; item 2]) by (simpl; lia).
  destruct (@rotation_full_turn [item 0; item 1; item 2] 2 Hk)
    as (_ & _ & H & _).
  exact H.
Defined.

(** *** Events *)

Lemma shifted_step (o o' : list Item) (k : nat) :
  k <= List.length o -> o' = shifted k o ->
  (exists k', k' <= List.length o /\ prev1 o' = shifted k' o) /\
  (exists k', k' <= List.length o /\ next1 o' = shifted k' o).
Proof.
  intros Hk ->. split.
  - destruct (Nat.eq_dec k (List.length o)) as [->|Hne].
    + rewrite shifted_all. destruct o as [|x r].
      * exists 0. split; [lia|reflexivity].
      * exists 1. split; [simpl; lia|].
        rewrite <- (shifted_0 (x :: r)) at 1. apply prev1_shifted. simpl. lia.
    + exists (S k). split; [lia|]. apply prev1_shifted. lia.
  - destruct k as [|k].
    + rewrite shifted_0. destruct o as [|x r].
      * exists 0. split; [lia|reflexivity].
      * exists (List.length (x :: r) - 1). split; [lia|].
        rewrite <- (@iter_next1 (x :: r) 1) by (simpl; lia). reflexivity.
    + exists k. split; [lia|].
      rewrite <- (@prev1_shifted o k) by lia. apply next1_prev1.
Qed.

Lemma onImageLoad_order c : order (onImageLoad c) = order c.
Proof.
  unfold onImageLoad. cbn.
  destruct (totalImages c <=? loadedImages c + 1); reflexivity.
Qed.

Lemma step_order (ev : Event) (c : Carousel) :
  order (step ev c) = order c \/
  order (step ev c) = next1 (order c) \/
  order (step ev c) = prev1 (order c).
Proof.
  destruct ev; cbn [step].
  - right. right. reflexivity.
  - right. left. reflexivity.
  - left. unfold stopAutoRotate. destruct (autoRotateTimer c); reflexivity.
  - left. reflexivity.
  - left. destruct hidden; [|reflexivity].
    unfold stopAutoRotate. destruct (autoRotateTimer c); reflexivity.
  - left. reflexivity.
  - destruct (autoRotateTimer c); [|left; reflexivity].
    destruct hidden; [left; reflexivity|right; left; reflexivity].
  - left. destruct (existsb _ _); [apply onImageLoad_order|reflexivity].
  - left. destruct (existsb _ _); [apply onImageLoad_order|reflexivity].
Qed.

(** X11.  Whatever events reach an initialised carousel (clicks, hover,
    visibility changes, resizes, interval ticks, image events), its
    order stays a cyclic shift of the order it started with: the same
    elements in the same cyclic sequence, and the same length. *)
Theorem order_stays_cyclic (evs : list Event) (c : Carousel) :
  exists k, k <= List.length (order c) /\
    order (run evs c) = skipn k (order c) ++ firstn k (order c) /\
    List.length (order (run evs c)) = List.length (order c).
Proof.
  assert (H : forall evs c0 c k, k <= List.length (order c0) ->
            order c = shifted k (order c0) ->
            exists k', k' <= List.length (order c0) /\
                       order (run evs c) = shifted k' (order c0)).
  { clear. induction evs as [|ev evs IH]; intros c0 c k Hk Ho.
    - exists k. auto.
    - unfold run. cbn [fold_left]. fold (run evs (step ev c)).
      destruct (@shifted_step (order c0) (order c) k Hk Ho)
        as ((kp & Hkp & Ep) & (kn & Hkn & En)).
      destruct (step_order ev c) as [E|[E|E]].
      + apply (IH c0 _ k Hk). rewrite E. exact Ho.
      + apply (IH c0 _ kn Hkn). rewrite E. exact En.
      + apply (IH c0 _ kp Hkp). rewrite E. exact Ep. }
  destruct (H evs c c 0 (Nat.le_0_l _) (eq_sym (shifted_0 _))) as (k & Hk & E).
  exists k. split; [exact Hk|]. split; [exact E|].
  rewrite E. apply shifted_length.
Qed.

(** X12.  With the timer running and the tab visible, [k] ticks advance
    the order by [k] rotations forward, so as many ticks as there are
    elements bring it back.  Ticks in a hidden tab change nothing, and
    neither do ticks while the timer is stopped. *)
Theorem ticks_advance (c : Carousel) (k : nat) (hs : list bool) :
  autoRotateTimer c = true ->
  order (run (repeat (Tick false) k) c) = Nat.iter k (rotate_order "next") (order c) /\
  order (run (repeat (Tick false) (List.length (order c))) c) = order c /\
  autoRotateTimer (run (repeat (Tick false) k) c) = true /\
  run (repeat (Tick true) k) c = c /\
  run (List.map Tick hs) (stopAutoRotate c) = stopAutoRotate c.
Proof.
  intros Ht.
  assert (A : forall k c, autoRotateTimer c = true ->
              order (run (repeat (Tick false) k) c) = Nat.iter k next1 (order c)
              /\ autoRotateTimer (run (repeat (Tick false) k) c) = true).
  { clear. induction k as [|k IH]; intros c Ht; [cbn; auto|].
    cbn [repeat]. unfold run. cbn [fold_left step]. rewrite Ht.
    fold (run (repeat (Tick false) k) (rotate "next" c)).
    destruct (IH (rotate "next" c) Ht) as (E & T).
    rewrite E, T. split; [|reflexivity].
    rewrite Nat.iter_succ_r. reflexivity. }
  destruct (A k c Ht) as (A1 & A2).
  split; [exact A1|]. split.
  { destruct (A (List.length (order c)) c Ht) as (E & _). rewrite E.
    rewrite iter_next1, Nat.sub_diag by lia. apply shifted_0. }
  split; [exact A2|]. clear A A1 A2. split.
  - induction k as [|k IH]; [reflexivity|].
    cbn [repeat]. unfold run. cbn [fold_left step]. rewrite Ht. exact IH.
  - assert (Hoff : autoRotateTimer (stopAutoRotate c) = false).
    { unfold stopAutoRotate. rewrite Ht. reflexivity. }
    generalize dependent (stopAutoRotate c). clear. intros c' Hoff.
    induction hs as [|h hs IH]; [reflexivity|].
    cbn [List.map]. unfold run. cbn [fold_left step]. rewrite Hoff. exact IH.
Qed.

Lemma ticks_advance_witness :
  exists c, carousel_of (page_of [item 0; item 1] []) = Some c /\
    order (run (repeat (Tick false) 10) c) = order c.
Proof.
  eexists. split; [reflexivity|].
  match goal with
  | |- order (run _ ?c) = _ =>
      destruct (@ticks_advance c 10 [] eq_refl) as (_ & H & _)
  end.
  exact H.
Defined.

(** *** The padded order *)

Lemma fold_visit_order (imgs : list Img) : forall c,
  order (fold_left visit_image imgs c) = order c.
Proof.
  induction imgs as [|i imgs IH]; intros c; [reflexivity|].
  cbn [fold_left]. rewrite IH. unfold visit_image.
  destruct (complete i); [apply onImageLoad_order|reflexivity].
Qed.

Lemma init_order (p : Page) (b0 : Item) (rest : list Item) :
  anchored p (b0 :: rest) ->
  exists c, carousel_of p = Some c /\
            order c = pad_items b0 rest (b0 :: rest).
Proof.
  intros Ha. rewrite (init_anchored Ha). eexists. split; [reflexivity|].
  cbn [order positionItems_called].
  destruct (List.length (images p) =? 0); [reflexivity|].
  apply fold_visit_order.
Qed.

(** Item [i] shows the original [i mod N]. *)
Definition cyclic (base items : list Item) : Prop :=
  forall i, i < List.length items ->
    option_map source (nth_error items i)
    = option_map source (nth_error base (i mod List.length base)).

(** From index [from] on, every item is a clone. *)
Definition clones_from (from : nat) (items : list Item) : Prop :=
  forall i, from <= i < List.length items ->
    option_map clone (nth_error items i) = Some true.

Lemma clone_pass_cyclic (base : list Item) : forall bs pre items q,
  base = pre ++ bs ->
  List.length items = q * List.length base + List.length pre ->
  List.length base <= List.length items ->
  cyclic base items -> clones_from (List.length base) items ->
  cyclic base (clone_pass bs items) /\
  clones_from (List.length base) (clone_pass bs items) /\
  (List.length (clone_pass bs items) = (q + 1) * List.length base \/
   10 <= List.length (clone_pass bs items)).
Proof.
  induction bs as [|b bs IH]; intros pre items q Hb Hl Hn Hc Hf.
  - cbn [clone_pass]. split; [exact Hc|]. split; [exact Hf|]. left.
    rewrite app_nil_r in Hb. subst pre. lia.
  - cbn [clone_pass]. destruct (List.length items <? 10) eqn:E.
    + assert (Hpre : List.length pre < List.length base).
      { rewrite Hb, length_app. simpl. lia. }
      apply (IH (pre ++ [b]) _ q).
      * rewrite <- app_assoc. exact Hb.
      * rewrite !length_app. simpl. lia.
      * rewrite length_app. simpl. lia.
      * intros i Hi. rewrite length_app in Hi. simpl in Hi.
        destruct (Nat.eq_dec i (List.length items)) as [->|Hne].
        -- rewrite nth_error_app2, Nat.sub_diag by lia. cbn [nth_error option_map].
           rewrite Hl, Nat.add_comm, Nat.Div0.mod_add.
           rewrite Nat.mod_small by exact Hpre.
           rewrite Hb, nth_error_app2, Nat.sub_diag by lia. reflexivity.
        -- rewrite nth_error_app1 by lia. apply Hc. lia.
      * intros i Hi. rewrite length_app in Hi. simpl in Hi.
        destruct (Nat.eq_dec i (List.length items)) as [->|Hne].
        -- rewrite nth_error_app2, Nat.sub_diag by lia. reflexivity.
        -- rewrite nth_error_app1 by lia. apply Hf. lia.
    + apply Nat.ltb_ge in E. split; [exact Hc|]. split; [exact Hf|].
      right. exact E.
Qed.

Lemma pad_items_cyclic (b0 : Item) (rest items : list Item) :
  List.length (b0 :: rest) <= List.length items ->
  cyclic (b0 :: rest) items -> clones_from (List.length (b0 :: rest)) items ->
  ((exists q, List.length items = q * List.length (b0 :: rest))
   \/ 10 <= List.length items) ->
  cyclic (b0 :: rest) (pad_items b0 rest items) /\
  clones_from (List.length (b0 :: rest)) (pad_items b0 rest items).
Proof.
  funelim (pad_items b0 rest items); intros Hn Hc Hf Hq.
  - destruct Hq as [(q & Hq)|Hq]; [|lia].
    destruct (@clone_pass_cyclic (b0 :: rest) (b0 :: rest) [] items q
                eq_refl ltac:(simpl List.length in *; lia) Hn Hc Hf)
      as (C & F & L).
    pose proof (clone_pass_grows b0 rest items l) as Hg.
    match goal with
    | IH : _ -> _ -> _ -> _ -> cyclic _ (pad_items _ _ _) /\ _ |- _ =>
        apply IH; [lia|exact C|exact F|]
    end.
    destruct L as [L|L]; [left; exists (q + 1); exact L|right; exact L].
  - split; assumption.
Qed.

(** X13.  In the padded order of a carousel with [N] originals, the item
    at index [i] shows original [i mod N]: the first [N] items are the
    originals themselves, every later item is a clone, and the clones
    repeat the originals in order. *)
Theorem padded_order_is_cyclic (p : Page) (items : list Item) :
  anchored p items ->
  exists c, carousel_of p = Some c /\
    firstn (List.length items) (order c) = items /\
    (forall i, i < List.length (order c) ->
       option_map source (nth_error (order c) i)
       = option_map source (nth_error items (i mod List.length items))) /\
    (forall i, List.length items <= i < List.length (order c) ->
       option_map clone (nth_error (order c) i) = Some true).
Proof.
  intros Ha.
  destruct items as [|b0 rest]; [destruct Ha as (_ & _ & H & _); congruence|].
  destruct (init_order Ha) as (c & Hc & Ho).
  exists c. split; [exact Hc|]. rewrite Ho.
  destruct (@pad_items_cyclic b0 rest (b0 :: rest)) as (C & F).
  - lia.
  - intros i Hi. rewrite Nat.mod_small by exact Hi. reflexivity.
  - intros i Hi. lia.
  - left. exists 1. lia.
  - split; [|split; [exact C|exact F]].
    destruct (pad_items_prefix b0 rest (b0 :: rest)) as (added & ->).
    rewrite firstn_app, Nat.sub_diag, firstn_all. cbn [firstn].
    apply app_nil_r.
Qed.

Lemma padded_order_is_cyclic_witness :
  exists c, carousel_of (page_of [item 0; item 1; item 2] []) = Some c /\
    option_map source (nth_error (order c) 7) = Some 1.
Proof.
  assert (Ha : anchored (page_of [item 0; item 1; item 2] [])
                 [item 0; item 1; item 2]).
  { unfold anchored. cbn. repeat split; try reflexivity. discriminate. }
  destruct (padded_order_is_cyclic Ha) as (c & Hc & _ & Hs & _).
  exists c. split; [exact Hc|].
  assert (Hl : 7 < List.length (order c)).
  { vm_compute in Hc. injection Hc as <-. vm_compute. lia. }
  rewrite (Hs 7 Hl). reflexivity.
Defined.

(** X14.  The rotation order after init has [max N 10] elements for
    every count [N >= 1] of originals; with ten or more originals no
    clone is made: the order is the originals and the page is as it
    was. *)
Theorem order_length_is_max (p : Page) (items : list Item) :
  anchored p items ->
  exists c, carousel_of p = Some c /\
    List.length (order c) = Nat.max (List.length items) 10 /\
    (10 <= List.length items ->
     order c = items /\ fst (initCircularTestimonials p) = p).
Proof.
  intros Ha.
  destruct items as [|b0 rest]; [destruct Ha as (_ & _ & H & _); congruence|].
  destruct (init_order Ha) as (c & Hc & Ho).
  exists c. split; [exact Hc|]. rewrite Ho. split.
  - destruct (Nat.le_gt_cases (List.length (b0 :: rest)) 10) as [Hle|Hgt].
    + rewrite pad_items_length by exact Hle. lia.
    + rewrite pad_items_long by lia. lia.
  - intros Hge. rewrite pad_items_long by exact Hge. split; [reflexivity|].
    destruct Ha as (Hw & Hci & _ & Hp & Hn).
    unfold initCircularTestimonials. rewrite Hw, Hci, Hp, Hn.
    cbn [isSome negb orb List.length Nat.eqb fst].
    rewrite pad_items_long by exact Hge.
    destruct p as [w ci pb nb im]. cbn in *. subst. reflexivity.
Qed.

Lemma order_length_is_max_witness :
  exists c, carousel_of (page_of (List.map item (seq 0 12)) []) = Some c /\
    List.length (order c) = 12.
Proof.
  assert (Ha : anchored (page_of (List.map item (seq 0 12)) [])
                 (List.map item (seq 0 12))).
  { unfold anchored. cbn. repeat split; try reflexivity. discriminate. }
  destruct (order_length_is_max Ha) as (c & Hc & Hl & _).
  exists c. split; [exact Hc | exact Hl].
Defined.

End CarouselExtra.

(** ** The ray renderer's instance *)

Module RaysExtra.

Import LightRays.
Local Open Scope string_scope.

(** *** Options *)

Lemma has_false_get (o : Obj) (k : string) : has o k = false -> get o k = VUndefined.
Proof.
  induction o as [|[k' v] o IH]; cbn; [reflexivity|].
  destruct (String.eqb k' k); cbn; [discriminate|exact IH].
Qed.

Lemma get_set_same (o : Obj) (k : string) (v : JsVal) : get (set o k v) k = v.
Proof.
  induction o as [|[k' v'] o IH]; cbn.
  - now rewrite String.eqb_refl.
  - destruct (String.eqb k' k) eqn:E; cbn; rewrite E; [reflexivity|exact IH].
Qed.

Lemma get_set_other (o : Obj) (k k' : string) (v : JsVal) :
  k <> k' -> get (set o k v) k' = get o k'.
Proof.
  intros Hne. induction o as [|[k0 v0] o IH]; cbn.
  - destruct (String.eqb_spec k k'); [contradiction|reflexivity].
  - destruct (String.eqb_spec k0 k) as [->|Hk]; cbn.
    + destruct (String.eqb_spec k k'); [contradiction|reflexivity].
    + destruct (String.eqb k0 k'); [reflexivity|exact IH].
Qed.

Lemma has_In (o : Obj) (k : string) : has o k = true <-> In k (List.map fst o).
Proof.
  induction o as [|[k' v] o IH]; cbn; [split; [discriminate|tauto]|].
  rewrite orb_true_iff, IH. destruct (String.eqb_spec k' k); intuition congruence.
Qed.

Lemma get_spread (source : Obj) : forall target k,
  NoDup (List.map fst source) ->
  get (spread target source) k
  = if has source k then get source k else get target k.
Proof.
  unfold spread. induction source as [|[k0 v0] source IH]; intros target k Hnd;
    [reflexivity|].
  cbn [fold_left fst snd List.map] in *. inversion Hnd as [|? ? Hn Hnd']; subst.
  rewrite IH by exact Hnd'. cbn [has get].
  destruct (String.eqb_spec k0 k) as [->|Hk]; cbn [orb].
  - destruct (has source k) eqn:E; [apply has_In in E; contradiction|].
    apply get_set_same.
  - destruct (has source k); [reflexivity|]. apply get_set_other. exact Hk.
Qed.

(** X15.  The constructor keeps every option it is given as it is given,
    also a falsy one such as [0], [false] or the empty string; a default
    only fills a key the argument does not have.  (The [||] defaults are
    overwritten by the spread that follows them.) *)
Theorem options_given_are_kept (options : Obj) (k : string) :
  NoDup (List.map fst options) ->
  get (build_options options) k
  = if has options k then get options k else get default_options k.
Proof.
  intros Hnd. unfold build_options at 1. rewrite get_spread by exact Hnd.
  destruct (has options k) eqn:E; [reflexivity|].
  unfold default_options, build_options, spread. cbn [fold_left get].
  repeat match goal with
         | |- context [String.eqb ?a k] =>
             destruct (String.eqb_spec a k) as [<-|];
             [rewrite (has_false_get options _ E); reflexivity|]
         end.
  reflexivity.
Qed.

Lemma options_given_are_kept_witness :
  get (build_options [("noiseAmount", VNum 0); ("followMouse", VBool false)])
      "noiseAmount" = VNum 0 /\
  get (build_options [("noiseAmount", VNum 0); ("followMouse", VBool false)])
      "rayLength" = VNum 2.
Proof.
  assert (Hnd : NoDup (List.map fst
                  [("noiseAmount", VNum 0); ("followMouse", VBool false)])).
  { cbn. repeat constructor; cbn; intuition discriminate. }
  split.
  - exact (@options_given_are_kept _ "noiseAmount" Hnd).
  - exact (@options_given_are_kept _ "rayLength" Hnd).
Defined.

(** *** Pointer smoothing *)

Local Open Scope Q_scope.

Fixpoint qpow (q : Q) (n : nat) : Q :=
  match n with
  | O => 1
  | S k => q * qpow q k
  end.

Lemma smooth_gap (s m : Q) : smooth s m - m == 0.92 * (s - m).
Proof. unfold smooth. ring. Qed.

Lemma smooth_between (s m lo hi : Q) :
  lo <= s <= hi -> lo <= m <= hi -> lo <= smooth s m <= hi.
Proof.
  intros (Hs1 & Hs2) (Hm1 & Hm2). unfold smooth.
  assert (A : 0 <= 0.92) by discriminate.
  assert (B : 0 <= 1 - 0.92) by discriminate.
  split.
  - setoid_replace lo with (lo * 0.92 + lo * (1 - 0.92)) by ring.
    apply Qplus_le_compat; apply Qmult_le_compat_r; assumption.
  - setoid_replace hi with (hi * 0.92 + hi * (1 - 0.92)) by ring.
    apply Qplus_le_compat; apply Qmult_le_compat_r; assumption.
Qed.

Lemma iter_smooth_gap (n : nat) (s m : Q) :
  Nat.iter n (fun x => smooth x m) s - m == qpow 0.92 n * (s - m).
Proof.
  induction n as [|n IH]; simpl Nat.iter; cbn [qpow].
  - ring.
  - rewrite smooth_gap, IH. ring.
Qed.

(** *** Life cycle *)

Local Close Scope Q_scope.
Local Open Scope nat_scope.

(** The instance is observing its container. *)
Definition Live (r : Rays) : Prop := container r = true /\ observer r = true.

(** Out of the viewport: no context, no loop, no resize listener. *)
Definition Dormant (r : Rays) : Prop :=
  Live r /\ isVisible r = false /\
  gl r = None /\ program r = false /\ animationId r = None /\
  frames r = [] /\ resizeListeners r = [] /\
  (forall c, In c (cleanupFunctions r) -> c = RemoveMouseMove).

(** In the viewport: at most one loop, and it belongs to the current
    context, which is the one of the newest canvas. *)
Definition Active (r : Rays) : Prop :=
  Live r /\ isVisible r = true /\
  ((frames r = [] /\ animationId r = None) \/
   (exists id ctx, frames r = [(id, ctx)] /\ animationId r = Some id /\
                   gl r = Some ctx /\ program r = true)) /\
  resizeListeners r = match gl r with Some ctx => [ctx] | None => [] end /\
  (forall ctx, gl r = Some ctx ->
               ctx = canvases r /\ In (RemoveResize ctx) (cleanupFunctions r)) /\
  (forall c, In c (cleanupFunctions r) ->
             c = RemoveMouseMove \/ gl r = Some (canvases r) /\ c = RemoveResize (canvases r)).

(** No two entries into the viewport without a leave in between, and
    no [destroy]. *)
Fixpoint no_double_enter (active : bool) (evs : list RaysEvent) : Prop :=
  match evs with
  | [] => True
  | Intersect true _ _ :: rest => active = false /\ no_double_enter true rest
  | Intersect false _ _ :: rest => no_double_enter false rest
  | Destroy _ :: _ => False
  | _ :: rest => no_double_enter active rest
  end.

Definition phase (active : bool) (r : Rays) : Prop :=
  if active then Active r else Dormant r.

Lemma run_cleanups_resize (cs : list Cleanup) : forall (b : bool) (rs : list nat),
  (forall x, In x rs -> In (RemoveResize x) cs) ->
  snd (fold_left (fun l c => run_cleanup c l) cs (b, rs)) = [].
Proof.
  induction cs as [|c cs IH]; intros b rs H.
  - destruct rs as [|x rs]; [reflexivity|]. destruct (H x (or_introl eq_refl)).
  - cbn [fold_left]. destruct c as [|ctx]; cbn [run_cleanup fst snd].
    + apply IH. intros x Hx. destruct (H x Hx) as [E|E]; [discriminate|exact E].
    + apply IH. intros x Hx. apply filter_In in Hx. destruct Hx as (Hx & Hne).
      destruct (H x Hx) as [E|E]; [|exact E].
      injection E as ->. rewrite Nat.eqb_refl in Hne. discriminate.
Qed.

Lemma construct_Dormant (follow : bool) (influence : Q) :
  Dormant (construct true follow influence).
Proof.
  unfold construct, rays_init, new_rays. cbn.
  destruct follow; cbn; unfold Dormant, Live; cbn; repeat split; auto.
  - intros c [<-|[]]. reflexivity.
  - intros c [].
Qed.

Lemma enter_Active (env : GlEnv) (ext : bool) (r : Rays) :
  Dormant r -> Active (rays_step (Intersect true env ext) r).
Proof.
  intros ((Hc & Ho) & Hv & Hg & Hp & Ha & Hf & Hr & Hcl).
  cbn [rays_step]. rewrite Ho. unfold initializeWebGL.
  cbn [container set_visible canvases]. rewrite Hc.
  destruct (context_ok env).
  - destruct (vertex_ok env && fragment_ok env) eqn:Ec; cbn [andb];
      [destruct (link_ok env) eqn:El|].
    + unfold Active, Live, request_frame. cbn. rewrite Hf, Hr. cbn.
      split; [auto|]. split; [reflexivity|].
      split; [right; eexists; eexists; repeat split; reflexivity|].
      split; [reflexivity|]. split.
      * intros ctx E. injection E as <-. split; [reflexivity|].
        apply in_or_app. right. left. reflexivity.
      * intros c Hin. apply in_app_or in Hin. destruct Hin as [Hin|[<-|[]]].
        -- left. apply Hcl. exact Hin.
        -- right. split; reflexivity.
    + unfold Active, Live. cbn. rewrite Hf, Hr, Ha. cbn.
      split; [auto|]. split; [reflexivity|]. split; [left; auto|].
      split; [reflexivity|]. split.
      * intros ctx E. injection E as <-. split; [reflexivity|].
        apply in_or_app. right. left. reflexivity.
      * intros c Hin. apply in_app_or in Hin. destruct Hin as [Hin|[<-|[]]].
        -- left. apply Hcl. exact Hin.
        -- right. split; reflexivity.
    + unfold Active, Live. cbn. rewrite Hf, Hr, Ha. cbn.
      split; [auto|]. split; [reflexivity|]. split; [left; auto|].
      split; [reflexivity|]. split.
      * intros ctx E. injection E as <-. split; [reflexivity|].
        apply in_or_app. right. left. reflexivity.
      * intros c Hin. apply in_app_or in Hin. destruct Hin as [Hin|[<-|[]]].
        -- left. apply Hcl. exact Hin.
        -- right. split; reflexivity.
  - unfold Active, Live. cbn. rewrite Hf, Hr, Ha, Hg.
    split; [auto|]. split; [reflexivity|]. split; [left; auto|].
    split; [reflexivity|]. split.
    + intros ctx E. discriminate.
    + intros c Hin. left. apply Hcl. exact Hin.
Qed.

Lemma cancel_all (id : nat) (fs : list (nat * nat)) :
  (forall f, In f fs -> fst f = id) ->
  filter (fun f => negb (Nat.eqb (fst f) id)) fs = [].
Proof.
  induction fs as [|f fs IH]; intros H; [reflexivity|].
  cbn [filter]. rewrite (H f (or_introl eq_refl)), Nat.eqb_refl. cbn [negb].
  apply IH. intros g Hg. apply H. right. exact Hg.
Qed.

Lemma cleanup_released (ext : bool) (r : Rays) :
  (forall x, In x (resizeListeners r) -> In (RemoveResize x) (cleanupFunctions r)) ->
  (forall id, animationId r = Some id ->
              forall f, In f (frames r) -> fst f = id) ->
  (animationId r = None -> frames r = []) ->
  let r' := cleanup ext r in
  gl r' = None /\ program r' = false /\ animationId r' = None /\
  frames r' = [] /\ resizeListeners r' = [] /\ cleanupFunctions r' = [] /\
  container r' = container r /\ observer r' = observer r /\
  isVisible r' = isVisible r.
Proof.
  intros Hrs Hfr Hnone. cbv zeta. unfold cleanup. cbn.
  rewrite (@run_cleanups_resize _ _ _ Hrs).
  repeat split; try reflexivity.
  destruct (animationId r) as [id|] eqn:Ea; [|apply Hnone; reflexivity].
  apply cancel_all. apply Hfr. reflexivity.
Qed.

Lemma leave_Dormant (active : bool) (env : GlEnv) (ext : bool) (r : Rays) :
  phase active r -> Dormant (rays_step (Intersect false env ext) r).
Proof.
  intros H. cbn [rays_step].
  assert (Hlive : Live r) by (destruct active; apply H).
  destruct Hlive as (Hc & Ho). rewrite Ho.
  destruct (@cleanup_released ext (set_visible false r))
    as (A & B & C & D & E & F & G & I & J).
  - cbn. destruct active.
    + destruct H as (_ & _ & _ & Hr & Hg & _). intros x Hx.
      destruct (gl r) as [ctx|]; rewrite Hr in Hx; [|destruct Hx].
      destruct Hx as [<-|[]]. apply (Hg ctx eq_refl).
    + destruct H as (_ & _ & _ & _ & _ & _ & Hr & _). rewrite Hr. intros x [].
  - cbn. destruct active.
    + destruct H as (_ & _ & [(Hf & Ha)|(id & ctx & Hf & Ha & _)] & _).
      * rewrite Hf. intros ? _ f [].
      * rewrite Hf, Ha. intros ? E f [<-|[]]. injection E as <-. reflexivity.
    + destruct H as (_ & _ & _ & _ & _ & Hf & _). rewrite Hf. intros ? _ f [].
  - cbn. destruct active.
    + destruct H as (_ & _ & [(Hf & Ha)|(id & ctx & Hf & Ha & _)] & _).
      * intros _. exact Hf.
      * rewrite Ha. discriminate.
    + destruct H as (_ & _ & _ & _ & _ & Hf & _). intros _. exact Hf.
  - unfold Dormant, Live. rewrite A, B, C, D, E, F, G, I, J. cbn.
    repeat split; auto. intros c [].
Qed.

Lemma frame_phase (active : bool) (id : nat) (t : Q) (r : Rays) :
  phase active r -> phase active (rays_step (Frame id t) r).
Proof.
  intros H. cbn [rays_step]. destruct active; cbn [phase] in *.
  - destruct H as (HL & Hv & [(Hf & Ha)|(id0 & ctx & Hf & Ha & Hg & Hp)] & Hr & Hcx & Hcl).
    + rewrite Hf. cbn. unfold Active. rewrite Hf, Ha. auto 10.
    + rewrite Hf. cbn [find fst]. destruct (Nat.eqb id0 id) eqn:E.
      * unfold loop, take_frame. cbn. rewrite Hg, Hv, Hf. cbn [filter fst].
        rewrite E. cbn. unfold request_frame, Active, Live. cbn.
        split; [exact HL|]. split; [reflexivity|].
        split; [right; eexists; eexists; repeat split; auto|].
        rewrite Hg in Hr. split; [exact Hr|]. rewrite <- Hg. split; assumption.
      * unfold Active. rewrite Hf, Ha, Hg. split; [exact HL|].
        split; [exact Hv|]. split; [right; eexists; eexists; repeat split; auto|].
        rewrite Hg in Hr. split; [exact Hr|]. rewrite <- Hg. split; assumption.
  - destruct H as (HL & Hv & Hg & Hp & Ha & Hf & Hr & Hcl). rewrite Hf. cbn.
    unfold Dormant. rewrite Hf. auto 10.
Qed.

Lemma mouse_phase (active : bool) (x y : Q) (rect : ClientRect) (r : Rays) :
  phase active r -> phase active (rays_step (MouseMoved x y rect) r).
Proof.
  intros H. cbn [rays_step]. destruct (mouseListener r); [|exact H].
  unfold handleMouseMove. destruct (container r); [|exact H].
  destruct active; exact H.
Qed.

Lemma run_phase (evs : list RaysEvent) : forall active r,
  no_double_enter active evs -> phase active r ->
  exists active', phase active' (rays_run evs r).
Proof.
  induction evs as [|ev evs IH]; intros active r Hev Hr.
  - exists active. exact Hr.
  - unfold rays_run. cbn [fold_left]. fold (rays_run evs (rays_step ev r)).
    destruct ev as [v env ext|id t|x y rect|ext]; cbn [no_double_enter] in Hev.
    + destruct v.
      * destruct Hev as (-> & Hev). apply (IH true); [exact Hev|].
        apply enter_Active. exact Hr.
      * apply (IH false); [exact Hev|]. apply (leave_Dormant active). exact Hr.
    + apply (IH active); [exact Hev|]. apply frame_phase. exact Hr.
    + apply (IH active); [exact Hev|]. apply mouse_phase. exact Hr.
    + destruct Hev.
Qed.

(** X16.  For an instance with a container, as long as the observer
    never reports two entries in a row, whatever frames and mouse moves
    come in between: at most one animation frame is pending and at most
    one resize listener is registered at any time; a pending frame
    belongs to the current context, which is that of the newest canvas
    and has a linked program; and while the container is out of the
    viewport there is no context, no program, no pending frame and no
    resize listener. *)
Theorem one_loop_at_a_time (follow : bool) (influence : Q) (evs : list RaysEvent) :
  no_double_enter false evs ->
  let r := rays_run evs (construct true follow influence) in
  List.length (frames r) <= 1 /\ List.length (resizeListeners r) <= 1 /\
  (forall id ctx, In (id, ctx) (frames r) ->
     animationId r = Some id /\ gl r = Some ctx /\ ctx = canvases r /\
     program r = true /\ isVisible r = true) /\
  (isVisible r = false ->
     gl r = None /\ program r = false /\ animationId r = None /\
     frames r = [] /\ resizeListeners r = []).
Proof.
  intros Hev r.
  destruct (@run_phase evs false (construct true follow influence) Hev
              (construct_Dormant follow influence)) as (active & H).
  fold r in H. destruct active; cbn [phase] in H.
  - destruct H as (HL & Hv & Hfr & Hr & Hcx & Hcl).
    split; [destruct Hfr as [(-> & _)|(? & ? & -> & _)]; cbn; lia|].
    split; [rewrite Hr; destruct (gl r); cbn; lia|].
    split.
    + intros id ctx Hin.
      destruct Hfr as [(Hf & _)|(id0 & ctx0 & Hf & Ha & Hg & Hp)];
        rewrite Hf in Hin; [destruct Hin|].
      destruct Hin as [E|[]]. injection E as <- <-.
      destruct (Hcx _ Hg) as (Hc & _). auto.
    + rewrite Hv. discriminate.
  - destruct H as (HL & Hv & Hg & Hp & Ha & Hf & Hr & Hcl).
    rewrite Hf, Hr. cbn. split; [lia|]. split; [lia|].
    split; [intros ? ? []|]. auto.
Qed.

Definition gl_ok : GlEnv :=
  {| context_ok := true; vertex_ok := true; fragment_ok := true; link_ok := true |}.

Lemma one_loop_at_a_time_witness :
  let r := rays_run [Intersect false gl_ok true; Intersect true gl_ok true;
                     Frame 1 16; Frame 2 32; Intersect false gl_ok true;
                     Intersect true gl_ok true; Frame 4 48]
                    (construct true true 0.1) in
  List.length (frames r) <= 1 /\ gl r = Some 2.
Proof.
  intros r.
  assert (Hev : no_double_enter false
                  [Intersect false gl_ok true; Intersect true gl_ok true;
                   Frame 1 16; Frame 2 32; Intersect false gl_ok true;
                   Intersect true gl_ok true; Frame 4 48]).
  { cbn. auto. }
  destruct (@one_loop_at_a_time true 0.1 _ Hev) as (H & _).
  split; [exact H|reflexivity].
Defined.

(** *** The pointer listener *)

(** The remover of a registered pointer listener is on the cleanup
    list, and an instance that is not observing has no listener. *)
Definition Tracked (r : Rays) : Prop :=
  (mouseListener r = true -> In RemoveMouseMove (cleanupFunctions r)) /\
  (observer r = false -> mouseListener r = false).

Lemma run_cleanups_mouse (cs : list Cleanup) : forall (b : bool) (rs : list nat),
  b = false \/ In RemoveMouseMove cs ->
  fst (fold_left (fun l c => run_cleanup c l) cs (b, rs)) = false.
Proof.
  induction cs as [|c cs IH]; intros b rs H.
  - destruct H as [->|[]]. reflexivity.
  - cbn [fold_left]. destruct c as [|ctx]; cbn [run_cleanup fst snd].
    + apply IH. left. reflexivity.
    + apply IH. destruct H as [H|[H|H]]; [left; exact H|discriminate|right; exact H].
Qed.

Lemma cleanup_untracks (ext : bool) (r : Rays) :
  (mouseListener r = true -> In RemoveMouseMove (cleanupFunctions r)) ->
  mouseListener (cleanup ext r) = false.
Proof.
  intros H. unfold cleanup. cbn. apply run_cleanups_mouse.
  destruct (mouseListener r); [right; apply H; reflexivity|left; reflexivity].
Qed.

Lemma loop_listener ctx t r :
  mouseListener (loop ctx t r) = mouseListener r /\
  mouse (loop ctx t r) = mouse r /\
  cleanupFunctions (loop ctx t r) = cleanupFunctions r /\
  observer (loop ctx t r) = observer r.
Proof.
  unfold loop. destruct (gl r); [|auto]. destruct (isVisible r); cbn; auto.
Qed.

Lemma initializeWebGL_listener env r :
  mouseListener (initializeWebGL env r) = mouseListener r /\
  mouse (initializeWebGL env r) = mouse r /\
  observer (initializeWebGL env r) = observer r /\
  (forall c, In c (cleanupFunctions r) -> In c (cleanupFunctions (initializeWebGL env r))).
Proof.
  unfold initializeWebGL. destruct (container r); [|auto].
  destruct (context_ok env); [|cbn; auto].
  destruct (vertex_ok env && fragment_ok env && link_ok env); cbn;
    repeat split; auto; intros c Hc; apply in_or_app; left; exact Hc.
Qed.

Lemma step_Tracked (ev : RaysEvent) (r : Rays) :
  Tracked r -> Tracked (rays_step ev r).
Proof.
  unfold Tracked. intros (K & K').
  destruct ev as [v env ext|id t|x y rect|ext]; cbn [rays_step].
  - destruct (observer r) eqn:Eo; [|split; [exact K|intros _; exact (K' eq_refl)]].
    destruct v.
    + destruct (initializeWebGL_listener env (set_visible true r)) as (A & _ & C & D).
      rewrite A, C. cbn [mouseListener observer set_visible]. split.
      * intros H. apply D. cbn. apply K. exact H.
      * rewrite Eo. discriminate.
    + rewrite (@cleanup_untracks ext (set_visible false r) K).
      split; [discriminate|reflexivity].
  - destruct (find _ (frames r)) as [[? ctx]|]; [|split; assumption].
    destruct (loop_listener ctx t (take_frame id r)) as (A & _ & C & D).
    rewrite A, C, D. cbn. split; assumption.
  - destruct (mouseListener r) eqn:E;
      [|rewrite E; split; [discriminate|reflexivity]].
    unfold handleMouseMove. destruct (container r); cbn; rewrite ?E; split; auto.
  - unfold destroy.
    assert (H : mouseListener (if observer r then disconnect r else r) = true ->
                In RemoveMouseMove
                   (cleanupFunctions (if observer r then disconnect r else r))).
    { destruct (observer r); cbn; exact K. }
    rewrite (cleanup_untracks ext _ H). split; [discriminate|reflexivity].
Qed.

Lemma run_Tracked (evs : list RaysEvent) : forall r,
  Tracked r -> Tracked (rays_run evs r).
Proof.
  induction evs as [|ev evs IH]; intros r H; [exact H|].
  unfold rays_run. cbn [fold_left]. apply IH. apply step_Tracked. exact H.
Qed.

Lemma construct_Tracked hasContainer follow influence :
  Tracked (construct hasContainer follow influence).
Proof.
  unfold construct, rays_init, new_rays, Tracked. cbn.
  destruct hasContainer, follow; cbn; split; auto; try discriminate.
Qed.

Lemma step_untracked (ev : RaysEvent) (r : Rays) :
  mouseListener r = false ->
  mouseListener (rays_step ev r) = false /\ mouse (rays_step ev r) = mouse r.
Proof.
  intros H. destruct ev as [v env ext|id t|x y rect|ext]; cbn [rays_step].
  - destruct (observer r); [|auto]. destruct v.
    + destruct (initializeWebGL_listener env (set_visible true r)) as (A & B & _).
      rewrite A, B. cbn. auto.
    + split; [|reflexivity]. apply cleanup_untracks. cbn. rewrite H. discriminate.
  - destruct (find _ (frames r)) as [[? ctx]|]; [|auto].
    destruct (loop_listener ctx t (take_frame id r)) as (A & B & _).
    rewrite A, B. cbn. auto.
  - rewrite H. auto.
  - unfold destroy. split.
    + apply cleanup_untracks. destruct (observer r); cbn; rewrite H; discriminate.
    + destruct (observer r); reflexivity.
Qed.

Lemma run_untracked (evs : list RaysEvent) : forall r,
  mouseListener r = false ->
  mouseListener (rays_run evs r) = false /\ mouse (rays_run evs r) = mouse r.
Proof.
  induction evs as [|ev evs IH]; intros r H; [auto|].
  unfold rays_run. cbn [fold_left]. fold (rays_run evs (rays_step ev r)).
  destruct (@step_untracked ev r H) as (A & B).
  destruct (IH _ A) as (A' & B'). rewrite A', B', B. auto.
Qed.

(** X17.  The pointer listener does not survive a leave.  After the
    observer has once reported the container outside the viewport (also
    when that is its very first report), or after [destroy], the
    instance has no pointer listener, and nothing that follows brings it
    back: entering the viewport again starts a new loop, but [mouse]
    keeps the value it had. *)
Theorem pointer_listener_is_lost (hasContainer follow : bool) (influence : Q)
  (before after : list RaysEvent) (env : GlEnv) (ext viaDestroy : bool) :
  let leave := if viaDestroy then Destroy ext else Intersect false env ext in
  let r := rays_run (before ++ [leave]) (construct hasContainer follow influence) in
  mouseListener r = false /\
  mouseListener (rays_run after r) = false /\
  mouse (rays_run after r) = mouse r.
Proof.
  intros leave r.
  assert (H : mouseListener r = false).
  { subst r. unfold rays_run. rewrite fold_left_app. cbn [fold_left].
    fold (rays_run before (construct hasContainer follow influence)).
    pose proof (@run_Tracked before _
                  (construct_Tracked hasContainer follow influence)) as (K & K').
    set (r0 := rays_run before (construct hasContainer follow influence)) in *.
    subst leave. destruct viaDestroy; cbn [rays_step].
    - unfold destroy. apply cleanup_untracks.
      destruct (observer r0); cbn; exact K.
    - destruct (observer r0) eqn:Eo; [|apply K'; reflexivity].
      apply cleanup_untracks. cbn. exact K. }
  split; [exact H|]. apply run_untracked. exact H.
Qed.

(** *** Frames *)

Local Open Scope Q_scope.

(** The pending frame of the instance fires at time [t]. *)
Definition next_frame (t : Q) (r : Rays) : Rays :=
  match animationId r with
  | Some id => rays_step (Frame id t) r
  | None => r
  end.

(** One loop is running, on context [ctx]. *)
Definition Running (ctx : nat) (r : Rays) : Prop :=
  exists id, frames r = [(id, ctx)] /\ animationId r = Some id /\
             gl r = Some ctx /\ isVisible r = true.

Lemma next_frame_running (ctx : nat) (t : Q) (r : Rays) :
  Running ctx r -> followMouse r = true -> 0 < mouseInfluence r ->
  let r' := next_frame t r in
  Running ctx r' /\ followMouse r' = true /\ mouseInfluence r' = mouseInfluence r /\
  mouse r' = mouse r /\
  smoothMouse r' = (smooth (fst (smoothMouse r)) (fst (mouse r)),
                    smooth (snd (smoothMouse r)) (snd (mouse r))) /\
  time r' = t * 0.001 /\ drawn r' = ctx :: drawn r.
Proof.
  intros (id & Hf & Ha & Hg & Hv) Hfo Hi. cbv zeta.
  unfold next_frame. rewrite Ha. cbn [rays_step]. rewrite Hf.
  cbn [find fst]. rewrite Nat.eqb_refl.
  unfold loop, take_frame. cbn. rewrite Hg, Hv, Hf, Hfo.
  assert (Hpos : Qltb0 (mouseInfluence r) = true).
  { unfold Qltb0. destruct (Qle_bool (mouseInfluence r) 0) eqn:E; [|reflexivity].
    apply Qle_bool_iff in E. exfalso. exact (Qlt_not_le _ _ Hi E). }
  rewrite Hpos. cbn. rewrite Nat.eqb_refl. cbn.
  unfold Running. cbn. repeat split; eauto.
Qed.

(** X18.  While one loop runs with pointer following on, every frame
    redraws on the loop's context and moves [smoothMouse] toward [mouse]:
    after [n] frames with the pointer at rest, the remaining distance in
    each coordinate is [0.92^n] times the initial one, and [smoothMouse]
    never leaves an interval that held both it and [mouse]. *)
Theorem smoothing_converges (ctx : nat) (r : Rays) (ts : list Q) :
  Running ctx r -> followMouse r = true -> 0 < mouseInfluence r ->
  let n := List.length ts in
  let r' := fold_left (fun st t => next_frame t st) ts r in
  Running ctx r' /\ mouse r' = mouse r /\
  fst (smoothMouse r') - fst (mouse r)
    == qpow 0.92 n * (fst (smoothMouse r) - fst (mouse r)) /\
  snd (smoothMouse r') - snd (mouse r)
    == qpow 0.92 n * (snd (smoothMouse r) - snd (mouse r)) /\
  drawn r' = (repeat ctx n ++ drawn r)%list /\
  (forall lo hi,
     lo <= fst (smoothMouse r) <= hi -> lo <= fst (mouse r) <= hi ->
     lo <= fst (smoothMouse r') <= hi) /\
  (forall lo hi,
     lo <= snd (smoothMouse r) <= hi -> lo <= snd (mouse r) <= hi ->
     lo <= snd (smoothMouse r') <= hi).
Proof.
  intros HR Hf Hi. cbv zeta. revert r HR Hf Hi.
  induction ts as [|t ts IH]; intros r HR Hf Hi.
  - cbn. split; [exact HR|]. split; [reflexivity|].
    split; [ring|]. split; [ring|]. split; [reflexivity|]. split; auto.
  - cbn [fold_left List.length qpow repeat].
    destruct (@next_frame_running ctx t r HR Hf Hi) as (R1 & F1 & I1 & M1 & S1 & _ & D1).
    assert (Hi1 : 0 < mouseInfluence (next_frame t r)) by (rewrite I1; exact Hi).
    destruct (IH _ R1 F1 Hi1) as (R' & M' & X' & Y' & D' & Bx & By).
    rewrite M1, S1 in *. cbn [fst snd] in *.
    split; [exact R'|]. split; [exact M'|].
    split; [rewrite X', smooth_gap; ring|].
    split; [rewrite Y', smooth_gap; ring|].
    split.
    { rewrite D', D1. clear.
      induction (List.length ts) as [|k IHk]; cbn; [reflexivity|].
      f_equal. exact IHk. }
    split; intros lo hi Hs Hm.
    + apply Bx; [apply smooth_between; assumption|exact Hm].
    + apply By; [apply smooth_between; assumption|exact Hm].
Qed.

Lemma smoothing_converges_witness :
  let r := rays_run [Intersect true gl_ok true;
                     MouseMoved 500 50 {| rect_left := 100; rect_top := 0;
                                          rect_width := 400; rect_height := 200 |}]
                    (construct true true 0.1) in
  let r' := fold_left (fun st t => next_frame t st) [16; 32] r in
  fst (mouse r) == 1 /\ snd (mouse r) == 0.25 /\
  fst (smoothMouse r) == 0.5 /\ snd (smoothMouse r) == 0.5 /\
  fst (smoothMouse r') - fst (mouse r)
    == qpow 0.92 2 * (fst (smoothMouse r) - fst (mouse r)) /\
  snd (smoothMouse r') - snd (mouse r)
    == qpow 0.92 2 * (snd (smoothMouse r) - snd (mouse r)) /\
  fst (smoothMouse r') == 0.5768 /\ snd (smoothMouse r') == 0.4616.
Proof.
  intros r r'.
  assert (HR : Running 1 r) by (exists 1%nat; repeat split; reflexivity).
  assert (Hi : 0 < mouseInfluence r) by reflexivity.
  destruct (@smoothing_converges 1 r [16; 32] HR eq_refl Hi)
    as (_ & _ & Hx & Hy & _).
  split; [vm_compute; reflexivity|]. split; [vm_compute; reflexivity|].
  split; [vm_compute; reflexivity|]. split; [vm_compute; reflexivity|].
  split; [exact Hx|]. split; [exact Hy|].
  split; vm_compute; reflexivity.
Defined.

(** X19.  With the pointer inside the container's rectangle (of positive
    width and height), [handleMouseMove] stores coordinates in the unit
    square: 0 at the left and top edges, 1 at the right and bottom
    edges. *)
Theorem mouse_in_unit_square (x y : Q) (rect : ClientRect) (r : Rays) :
  container r = true ->
  0 < rect_width rect -> 0 < rect_height rect ->
  rect_left rect <= x <= rect_left rect + rect_width rect ->
  rect_top rect <= y <= rect_top rect + rect_height rect ->
  let m := mouse (handleMouseMove x y rect r) in
  (0 <= fst m <= 1 /\ 0 <= snd m <= 1) /\
  (x == rect_left rect -> fst m == 0) /\
  (x == rect_left rect + rect_width rect -> fst m == 1) /\
  (y == rect_top rect -> snd m == 0) /\
  (y == rect_top rect + rect_height rect -> snd m == 1).
Proof.
  intros Hc Hw Hh (Hx1 & Hx2) (Hy1 & Hy2). cbv zeta.
  unfold handleMouseMove. rewrite Hc. cbn [mouse set_mouse fst snd].
  assert (Unit : forall a lo len, 0 < len -> lo <= a <= lo + len ->
                   0 <= (a - lo) / len <= 1).
  { intros a lo len Hlen (H1 & H2). split.
    - apply Qle_shift_div_l; [exact Hlen|]. rewrite Qmult_0_l.
      unfold Qminus. rewrite <- Qle_minus_iff. exact H1.
    - apply Qle_shift_div_r; [exact Hlen|]. rewrite Qmult_1_l.
      apply (Qplus_le_l _ _ lo). setoid_replace (a - lo + lo) with a by ring.
      rewrite Qplus_comm. exact H2. }
  assert (Hwn : ~ rect_width rect == 0).
  { intros E. rewrite E in Hw. discriminate. }
  assert (Hhn : ~ rect_height rect == 0).
  { intros E. rewrite E in Hh. discriminate. }
  split; [split; apply Unit; auto|].
  split; [intros ->; field; exact Hwn|].
  split; [intros ->; field; exact Hwn|].
  split; [intros ->; field; exact Hhn|].
  intros ->; field; exact Hhn.
Qed.

Lemma mouse_in_unit_square_witness :
  let m := mouse (handleMouseMove 300 100
                    {| rect_left := 100; rect_top := 0;
                       rect_width := 400; rect_height := 200 |}
                    (construct true true 0.1)) in
  0 <= fst m <= 1 /\ 0 <= snd m <= 1.
Proof.
  assert (Hx : 100 <= 300 <= 100 + 400) by (split; discriminate).
  assert (Hy : 0 <= 100 <= 0 + 200) by (split; discriminate).
  destruct (@mouse_in_unit_square 300 100
              {| rect_left := 100; rect_top := 0;
                 rect_width := 400; rect_height := 200 |}
              (construct true true 0.1) eq_refl eq_refl eq_refl Hx Hy) as (H & _).
  exact H.
Defined.

End RaysExtra.

(* ------------------------------------------------------------------ *)
(** ** The page's other handlers                                        *)
(* ------------------------------------------------------------------ *)

Module ThemeFacts.

Import LightRays Theme1.

Local Open Scope N_scope.

(** *** Paths *)

Definition slash_free (s : JsString) : Prop :=
  forallb (fun c => negb (c =? 47)) s = true.

(** A path segment: not empty and without a slash. *)
Definition segment (s : JsString) : Prop :=
  nonempty s = true /\ slash_free s.

(** The prefix [loadLanguageFile] builds from the directory's segments. *)
Definition dir_prefix (parts : list JsString) : JsString :=
  match parts with
  | [] => []
  | _ :: _ => 47 :: join_slash parts ++ [47]
  end.

Lemma split_slash_cons (s : JsString) :
  exists hd tl, split_slash s = hd :: tl.
Proof.
  induction s as [|c r [hd [tl E]]]; simpl.
  - eauto.
  - rewrite E. destruct (c =? 47); eauto.
Qed.

Lemma split_slash_free (a : JsString) :
  slash_free a -> split_slash a = [a].
Proof.
  unfold slash_free. induction a as [|c a IH]; simpl; intros H; [reflexivity|].
  apply andb_true_iff in H. destruct H as [Hc Ha].
  rewrite (IH Ha). apply negb_true_iff in Hc. now rewrite Hc.
Qed.

Lemma split_slash_app (a r : JsString) :
  slash_free a -> split_slash (a ++ 47 :: r) = a :: split_slash r.
Proof.
  unfold slash_free. induction a as [|c a IH]; simpl; intros H.
  - destruct (split_slash_cons r) as [hd [tl E]]. now rewrite E.
  - apply andb_true_iff in H. destruct H as [Hc Ha].
    rewrite (IH Ha). apply negb_true_iff in Hc. now rewrite Hc.
Qed.

Lemma split_slash_segments (s : JsString) :
  Forall slash_free (split_slash s).
Proof.
  induction s as [|c r IH]; simpl.
  - repeat constructor.
  - destruct (split_slash r) as [|hd tl] eqn:E.
    + constructor; [|constructor]. unfold slash_free. simpl.
      destruct (split_slash_cons r) as [hd [tl E']]. congruence.
    + inversion IH as [|? ? Hhd Htl]; subst.
      destruct (c =? 47) eqn:Ec.
      * constructor; [reflexivity|]. now constructor.
      * constructor; [|assumption].
        unfold slash_free in *. simpl. now rewrite Ec, Hhd.
Qed.

Lemma split_join_app (parts : list JsString) (f : JsString) :
  parts <> [] -> Forall slash_free parts -> slash_free f ->
  split_slash (join_slash parts ++ 47 :: f) = parts ++ [f].
Proof.
  intros Hne Hall Hf. induction Hall as [|p rest Hp Hrest IH]; [congruence|].
  destruct rest as [|q rest].
  - simpl. rewrite (split_slash_app _ Hp), (split_slash_free Hf). reflexivity.
  - change (join_slash (p :: q :: rest)) with (p ++ 47 :: join_slash (q :: rest)).
    rewrite <- app_assoc, <- app_comm_cons.
    rewrite (split_slash_app _ Hp), IH by discriminate. reflexivity.
Qed.

Lemma split_join (parts : list JsString) :
  parts <> [] -> Forall slash_free parts ->
  split_slash (join_slash parts) = parts.
Proof.
  intros Hne Hall. induction Hall as [|p rest Hp Hrest IH]; [congruence|].
  destruct rest as [|q rest].
  - simpl. apply (split_slash_free Hp).
  - change (join_slash (p :: q :: rest)) with (p ++ 47 :: join_slash (q :: rest)).
    rewrite (split_slash_app _ Hp), IH by discriminate. reflexivity.
Qed.

Lemma filter_segments (parts : list JsString) :
  Forall segment parts -> filter nonempty parts = parts.
Proof.
  induction 1 as [|p rest [Hp _] _ IH]; simpl; [reflexivity|].
  now rewrite Hp, IH.
Qed.

Lemma filter_empty_segment (parts : list JsString) :
  filter nonempty ([] :: parts) = filter nonempty parts.
Proof. reflexivity. Qed.

Lemma segments_slash_free (parts : list JsString) :
  Forall segment parts -> Forall slash_free parts.
Proof. apply Forall_impl. now intros ? [_ ?]. Qed.

(** The segments [loadLanguageFile] keeps of the current path. *)
Lemma pathParts_segments (cur : JsString) :
  Forall segment (filter nonempty (split_slash cur)).
Proof.
  apply Forall_forall. intros p Hp. apply filter_In in Hp. destruct Hp as [Hin Hn].
  split; [assumption|].
  exact (proj1 (Forall_forall _ _) (split_slash_segments cur) p Hin).
Qed.

(** What [full_path] does with a relative file, in terms of the
    segments that are left after the file name is dropped. *)
Definition directory (cur : JsString) : list JsString :=
  let pathParts := filter nonempty (split_slash cur) in
  match rev pathParts with
  | fileName :: _ =>
      if nonempty fileName && includes (js ".html") fileName
      then removelast pathParts else pathParts
  | [] => pathParts
  end.

Lemma full_path_relative (cur g : JsString) :
  startsWith [47] g = false ->
  full_path cur g = dir_prefix (directory cur) ++ g.
Proof.
  intros Hg. unfold full_path. rewrite Hg. fold (directory cur).
  destruct (directory cur); reflexivity.
Qed.

Lemma Forall_removelast (A : Type) (P : A -> Prop) (l : list A) :
  Forall P l -> Forall P (removelast l).
Proof.
  induction 1 as [|x l Hx Hl IH]; simpl; [constructor|].
  destruct l; [constructor|]. constructor; assumption.
Qed.

Lemma directory_segments (cur : JsString) :
  Forall segment (directory cur).
Proof.
  unfold directory. pose proof (pathParts_segments cur) as H.
  destruct (rev _) as [|fileName ?]; [assumption|].
  destruct (_ && _); [now apply Forall_removelast | assumption].
Qed.

(** The path parts of a prefix followed by a file name. *)
Lemma pathParts_prefix (parts : list JsString) (f : JsString) :
  Forall segment parts -> segment f ->
  filter nonempty (split_slash (dir_prefix parts ++ f)) = parts ++ [f].
Proof.
  intros Hparts Hf.
  assert (Hall : Forall segment (parts ++ [f])).
  { apply Forall_app. split; [assumption|]. now constructor. }
  destruct parts as [|p rest].
  - simpl dir_prefix. simpl app at 1.
    rewrite (split_slash_free (proj2 Hf)). now apply filter_segments.
  - unfold dir_prefix.
    change ((47 :: join_slash (p :: rest) ++ [47]) ++ f)
      with ([] ++ 47 :: ((join_slash (p :: rest) ++ [47]) ++ f)).
    rewrite split_slash_app by reflexivity.
    rewrite <- app_assoc. simpl app at 2.
    rewrite split_join_app;
      [| discriminate | now apply segments_slash_free | exact (proj2 Hf)].
    rewrite filter_empty_segment. now apply filter_segments.
Qed.

Lemma directory_prefix (parts : list JsString) (f : JsString) :
  Forall segment parts -> segment f ->
  directory (dir_prefix parts ++ f) =
    if includes (js ".html") f then parts else parts ++ [f].
Proof.
  intros Hparts Hf. unfold directory.
  rewrite (pathParts_prefix Hparts Hf), rev_unit, (proj1 Hf), removelast_last.
  reflexivity.
Qed.

(** X20. Switching between the pages of one directory is stable: for a
    file name [f] with [.html] in it and any other relative path [g],
    resolving [g] from the path [f] was resolved to gives what
    resolving [g] from the current path gives, whatever the current
    path is. *)
Theorem relative_path_keeps_directory (cur f g : JsString) :
  segment f -> includes (js ".html") f = true -> startsWith [47] g = false ->
  full_path (full_path cur f) g = full_path cur g.
Proof.
  intros Hf Hhtml Hg.
  assert (Hrel : startsWith [47] f = false).
  { destruct Hf as [_ Hfree]. destruct f as [|c f]; [reflexivity|].
    unfold slash_free in Hfree. simpl in Hfree.
    apply andb_true_iff in Hfree. destruct Hfree as [Hc _].
    apply negb_true_iff in Hc. simpl. now rewrite Hc. }
  rewrite (@full_path_relative cur f Hrel), (@full_path_relative cur g Hg).
  rewrite (@full_path_relative _ g Hg).
  rewrite (@directory_prefix _ f (directory_segments cur) Hf), Hhtml.
  reflexivity.
Qed.

Lemma relative_path_keeps_directory_witness :
  full_path (full_path (js "/site/ar/index.html") (js "index-en.html"))
            (js "index.html")
  = full_path (js "/site/ar/index.html") (js "index.html").
Proof.
  apply (@relative_path_keeps_directory
           (js "/site/ar/index.html") (js "index-en.html") (js "index.html"));
    [split; reflexivity | reflexivity | reflexivity].
Defined.

(** X21. From a path [/d1/.../dn/file], whose segments are not empty,
    a relative [filePath] resolves to the same directory
    [/d1/.../dn/] followed by [filePath] when [file] has [.html] in
    its name, and to [/d1/.../dn/file/] followed by [filePath] when it
    has not; at the root of the site ([n = 0], an html file) the
    result is [filePath] alone.  A [filePath] that starts with a slash
    is used as it is. *)
Theorem full_path_closed_form (dirs : list JsString) (file g : JsString) :
  Forall segment dirs -> segment file ->
  full_path (47 :: join_slash (dirs ++ [file])) g =
    if startsWith [47] g then g
    else if includes (js ".html") file then dir_prefix dirs ++ g
         else dir_prefix (dirs ++ [file]) ++ g.
Proof.
  intros Hdirs Hfile.
  destruct (startsWith [47] g) eqn:Hg.
  - unfold full_path. now rewrite Hg.
  - rewrite (@full_path_relative _ g Hg).
    assert (Hall : Forall segment (dirs ++ [file])).
    { apply Forall_app. split; [assumption|]. now constructor. }
    assert (Hparts : filter nonempty (split_slash (47 :: join_slash (dirs ++ [file])))
                     = dirs ++ [file]).
    { change (47 :: join_slash (dirs ++ [file]))
        with ([] ++ 47 :: join_slash (dirs ++ [file])).
      rewrite split_slash_app by reflexivity.
      rewrite split_join;
        [| now destruct dirs | now apply segments_slash_free ].
      rewrite filter_empty_segment. now apply filter_segments. }
    unfold directory. rewrite Hparts, rev_unit, (proj1 Hfile), removelast_last.
    simpl andb. destruct (includes (js ".html") file); reflexivity.
Qed.

Lemma full_path_closed_form_witness :
  full_path (47 :: join_slash ([js "site"; js "ar"] ++ [js "index.html"]))
            (js "index-en.html")
  = js "/site/ar/index-en.html".
Proof.
  refine (@full_path_closed_form [js "site"; js "ar"] (js "index.html")
            (js "index-en.html") _ _).
  - repeat constructor.
  - split; reflexivity.
Defined.

(** *** The contact form *)

Lemma match_plus_cons (cls : N -> bool) (rest : list Atom) (x : N) (s : JsString) :
  match_atoms (Plus cls :: rest) (x :: s)
  = cls x && (match_atoms (Plus cls :: rest) s || match_atoms rest s).
Proof. reflexivity. Qed.

Lemma match_plus_nil (cls : N -> bool) (rest : list Atom) :
  match_atoms (Plus cls :: rest) [] = false.
Proof. reflexivity. Qed.

(** [cls+] followed by [rest] matches exactly the strings that split
    into a non-empty run of [cls] and a match of [rest]. *)
Lemma match_plus (cls : N -> bool) (rest : list Atom) (s : JsString) :
  match_atoms (Plus cls :: rest) s = true <->
  exists a s', s = a ++ s' /\ a <> [] /\ forallb cls a = true
               /\ match_atoms rest s' = true.
Proof.
  induction s as [|x s IH].
  - rewrite match_plus_nil. split; [discriminate|].
    intros [a [s' [E [Hne _]]]]. destruct a; [congruence | discriminate].
  - rewrite match_plus_cons, andb_true_iff, orb_true_iff, IH. split.
    + intros [Hx [[a [s' [E [Hne [Ha Hr]]]]] | Hr]].
      * exists (x :: a), s'. subst s. simpl. rewrite Hx, Ha.
        repeat split; [discriminate | assumption].
      * exists [x], s. simpl. rewrite Hx.
        repeat split; [discriminate | assumption].
    + intros [a [s' [E [Hne [Ha Hr]]]]].
      destruct a as [|y a]; [congruence|].
      simpl in E. injection E as -> ->. simpl in Ha.
      apply andb_true_iff in Ha. destruct Ha as [Hy Ha].
      split; [assumption|].
      destruct a as [|z a].
      * right. assumption.
      * left. exists (z :: a), s'. repeat split; [discriminate | assumption..].
Qed.

Lemma match_lit (c : N) (rest : list Atom) (s : JsString) :
  match_atoms (Lit c :: rest) s = true <->
  exists s', s = c :: s' /\ match_atoms rest s' = true.
Proof.
  destruct s as [|x s]; simpl.
  - split; [discriminate | intros [s' [E _]]; discriminate].
  - rewrite andb_true_iff, N.eqb_eq. split.
    + intros [-> H]. eauto.
    + intros [s' [E H]]. injection E as -> ->. auto.
Qed.

Lemma match_end (s : JsString) : match_atoms [] s = true <-> s = [].
Proof. destruct s; simpl; split; congruence. Qed.

(** A non-empty run of units that are neither white space nor [@]. *)
Definition email_part (a : JsString) : Prop :=
  a <> [] /\ forallb email_unit a = true.

(** X22. The e-mail pattern of the contact form accepts exactly the
    strings [a @ b . c] whose three parts are not empty and hold
    neither white space nor [@]. *)
Theorem email_pattern_shape (s : JsString) :
  match_atoms emailRegex s = true <->
  exists a b c, s = a ++ 64 :: b ++ 46 :: c
                /\ email_part a /\ email_part b /\ email_part c.
Proof.
  unfold emailRegex, email_part. rewrite match_plus. split.
  - intros [a [s1 [-> [Ha1 [Ha2 H]]]]].
    apply match_lit in H. destruct H as [s2 [-> H]].
    apply match_plus in H. destruct H as [b [s3 [-> [Hb1 [Hb2 H]]]]].
    apply match_lit in H. destruct H as [s4 [-> H]].
    apply match_plus in H. destruct H as [c [s5 [-> [Hc1 [Hc2 H]]]]].
    apply match_end in H. subst s5. rewrite app_nil_r.
    exists a, b, c. auto 10.
  - intros [a [b [c [-> [[Ha1 Ha2] [[Hb1 Hb2] [Hc1 Hc2]]]]]]].
    exists a, (64 :: b ++ 46 :: c). repeat split; [assumption..|].
    apply match_lit. exists (b ++ 46 :: c). split; [reflexivity|].
    apply match_plus. exists b, (46 :: c). repeat split; [assumption..|].
    apply match_lit. exists c. split; [reflexivity|].
    apply match_plus. exists c, []. rewrite app_nil_r. auto.
Qed.

Lemma part_no_at (a : JsString) :
  forallb email_unit a = true -> count_occ N.eq_dec a 64 = 0%nat.
Proof.
  induction a as [|x a IH]; simpl; [reflexivity|].
  intros H. apply andb_true_iff in H. destruct H as [Hx Ha].
  unfold email_unit in Hx. apply andb_true_iff in Hx. destruct Hx as [_ Hx].
  apply negb_true_iff, N.eqb_neq in Hx.
  destruct (N.eq_dec x 64); [congruence | auto].
Qed.

Lemma part_no_space (a : JsString) :
  forallb email_unit a = true -> forallb (fun c => negb (is_space c)) a = true.
Proof.
  induction a as [|x a IH]; simpl; [reflexivity|].
  intros H. apply andb_true_iff in H. destruct H as [Hx Ha].
  unfold email_unit in Hx. apply andb_true_iff in Hx. destruct Hx as [Hx _].
  now rewrite Hx, IH.
Qed.

Lemma truthy_string_text (v : option JsString) :
  truthy_string v = true -> v = Some (text_of v) /\ text_of v <> [].
Proof.
  destruct v as [[|c s]|]; simpl; try discriminate. intros _. split; congruence.
Qed.

(** X23. A submission is thanked and the form reset only if all four
    fields are filled and the e-mail has exactly one [@], no white
    space and a dot somewhere after the [@]. *)
Theorem accepted_submission (data : FormData) :
  submit data = ThankedAndReset ->
  truthy_string (form_name data) = true
  /\ truthy_string (form_phone data) = true
  /\ truthy_string (form_message data) = true
  /\ exists e, form_email data = Some e
       /\ count_occ N.eq_dec e 64 = 1%nat
       /\ forallb (fun c => negb (is_space c)) e = true
       /\ exists a b, e = a ++ 64 :: b /\ In 46 b.
Proof.
  unfold submit.
  destruct (match_atoms emailRegex (text_of (form_email data))) eqn:Hm;
    destruct (truthy_string (form_name data));
    destruct (truthy_string (form_email data)) eqn:He;
    destruct (truthy_string (form_phone data));
    destruct (truthy_string (form_message data)); try discriminate.
  intros _. split; [reflexivity|]. split; [reflexivity|]. split; [reflexivity|].
  apply truthy_string_text in He. destruct He as [He _].
  exists (text_of (form_email data)). split; [assumption|].
  apply email_pattern_shape in Hm.
  destruct Hm as [a [b [c [-> [[_ Ha] [[_ Hb] [_ Hc]]]]]]].
  split; [|split].
  - rewrite count_occ_app. simpl.
    destruct (N.eq_dec 64 64); [|congruence].
    rewrite count_occ_app. simpl.
    destruct (N.eq_dec 46 64); [discriminate|].
    rewrite (part_no_at _ Ha), (part_no_at _ Hb), (part_no_at _ Hc).
    reflexivity.
  - rewrite forallb_app. simpl. rewrite forallb_app. simpl.
    now rewrite (part_no_space _ Ha), (part_no_space _ Hb), (part_no_space _ Hc).
  - exists a, (b ++ 46 :: c). split; [reflexivity|].
    apply in_or_app. right. now left.
Qed.

Definition filled_form : FormData :=
  {| form_name := Some (js "Sara"); form_email := Some (js "sara@mail.example");
     form_phone := Some (js "0100"); form_message := Some (js "Hello") |}.

Lemma accepted_submission_witness :
  submit filled_form = ThankedAndReset
  /\ exists e, form_email filled_form = Some e
       /\ count_occ N.eq_dec e 64 = 1%nat
       /\ forallb (fun c => negb (is_space c)) e = true
       /\ exists a b, e = a ++ 64 :: b /\ In 46 b.
Proof.
  split; [reflexivity|].
  apply (@accepted_submission filled_form). reflexivity.
Defined.

(** *** The course modules *)

(** Card [j] after a click on header [k], by whether card [k] was
    open before the click. *)
Definition after_click (k : nat) (was_open : bool) (j : nat) (c : ModuleCard)
  : ModuleCard :=
  if was_open then (if Nat.eqb j k then close_card c else c)
  else if Nat.eqb j k then open_card c
       else if card_active c then close_card c else c.

Lemma nth_error_close_others (index pos : nat) (cards : list ModuleCard) (j : nat) :
  nth_error (close_others index pos cards) j
  = option_map (fun c => if negb (Nat.eqb (pos + j) index) && card_active c
                         then close_card c else c)
      (nth_error cards j).
Proof.
  revert pos j. induction cards as [|c rest IH]; intros pos j.
  - destruct j; reflexivity.
  - destruct j as [|j]; simpl.
    + now rewrite Nat.add_0_r.
    + rewrite IH. now rewrite Nat.add_succ_r.
Qed.

Lemma nth_error_update_nth (k : nat) (f : ModuleCard -> ModuleCard)
  (cards : list ModuleCard) (j : nat) :
  nth_error (update_nth k f cards) j
  = if Nat.eqb j k then option_map f (nth_error cards j) else nth_error cards j.
Proof.
  revert k j. induction cards as [|c rest IH]; intros k j.
  - destruct j, k; simpl; try reflexivity. now destruct (Nat.eqb j k).
  - destruct k as [|k], j as [|j]; simpl; try reflexivity. apply IH.
Qed.

Lemma toggle_module_nth (k : nat) (cards cards' : list ModuleCard) (c : ModuleCard) :
  nth_error cards k = Some c -> toggle_module k cards = Some cards' ->
  forall j, nth_error cards' j
            = option_map (after_click k (card_active c) j) (nth_error cards j).
Proof.
  intros Hk H j. unfold toggle_module in H. rewrite Hk in H.
  unfold after_click. destruct (card_active c) eqn:Hc.
  - injection H as <-. rewrite nth_error_update_nth.
    destruct (Nat.eqb j k); [reflexivity|]. now destruct (nth_error cards j).
  - injection H as <-. rewrite nth_error_update_nth, nth_error_close_others.
    simpl. destruct (Nat.eqb j k) eqn:Ej.
    + apply Nat.eqb_eq in Ej. subst j. rewrite Hk. reflexivity.
    + simpl. reflexivity.
Qed.

Lemma nth_error_length_eq (A B : Type) (l : list A) (l' : list B) :
  (forall j, nth_error l' j = None <-> nth_error l j = None) ->
  List.length l' = List.length l.
Proof.
  intros H. apply Nat.le_antisymm.
  - apply nth_error_None, H, nth_error_None. apply Nat.le_refl.
  - apply nth_error_None, H, nth_error_None. apply Nat.le_refl.
Qed.

Lemma toggle_module_length (k : nat) (cards cards' : list ModuleCard) :
  toggle_module k cards = Some cards' -> List.length cards' = List.length cards.
Proof.
  intros H. destruct (nth_error cards k) as [c|] eqn:Hk.
  - apply nth_error_length_eq. intros j.
    rewrite (@toggle_module_nth k cards cards' c Hk H j). now destruct (nth_error cards j).
  - unfold toggle_module in H. now rewrite Hk in H.
Qed.

(** X24. A click on the header (or the toggle) of module [k]: when the
    card was closed it becomes the only open card, whatever was open
    before, and shows the minus sign if it has an icon; when it was
    open it is closed, shows the plus sign, and the other cards are
    left as they are. *)
Theorem module_click_effect (k : nat) (cards : list ModuleCard) :
  (k < List.length cards)%nat ->
  exists c cards',
    nth_error cards k = Some c
    /\ toggle_module k cards = Some cards'
    /\ List.length cards' = List.length cards
    /\ (card_active c = false ->
        forall j c', nth_error cards' j = Some c' ->
                     card_active c' = Nat.eqb j k
                     /\ (j = k -> icon c' = set_icon minus_sign c))
    /\ (card_active c = true ->
        forall j c', nth_error cards' j = Some c' ->
                     if Nat.eqb j k
                     then c' = close_card c
                     else nth_error cards j = Some c').
Proof.
  intros Hk. destruct (nth_error cards k) as [c|] eqn:Ek;
    [| apply nth_error_None in Ek; lia ].
  destruct (toggle_module k cards) as [cards'|] eqn:Et;
    [| unfold toggle_module in Et; rewrite Ek in Et;
       destruct (card_active c); discriminate ].
  exists c, cards'. split; [reflexivity|]. split; [reflexivity|].
  split; [exact (@toggle_module_length k cards cards' Et)|].
  pose proof (@toggle_module_nth k cards cards' c Ek Et) as Hn. split.
  - intros Hc j c' Hj. rewrite Hn, Hc in Hj. unfold after_click in Hj.
    destruct (nth_error cards j) as [cj|] eqn:Ej; [|discriminate].
    simpl in Hj. destruct (Nat.eqb j k) eqn:Ejk.
    + injection Hj as <-. split; [reflexivity|]. intros ->.
      rewrite Ek in Ej. now injection Ej as ->.
    + split.
      * destruct (card_active cj) eqn:Ecj; injection Hj as <-;
          [reflexivity | assumption].
      * intros ->. now rewrite Nat.eqb_refl in Ejk.
  - intros Hc j c' Hj. rewrite Hn, Hc in Hj. unfold after_click in Hj.
    destruct (nth_error cards j) as [cj|] eqn:Ej; [|discriminate].
    simpl in Hj. destruct (Nat.eqb j k) eqn:Ejk.
    + apply Nat.eqb_eq in Ejk. subst j. rewrite Ek in Ej.
      injection Ej as ->. now injection Hj as <-.
    + assumption.
Qed.

Definition three_modules : list ModuleCard :=
  [ {| card_active := true; icon := Some minus_sign |};
    {| card_active := false; icon := Some plus_sign |};
    {| card_active := true; icon := None |} ].

Lemma module_click_effect_witness :
  (1 < List.length three_modules)%nat
  /\ exists c cards', nth_error three_modules 1 = Some c
       /\ toggle_module 1 three_modules = Some cards'
       /\ List.length cards' = List.length three_modules
       /\ (card_active c = false ->
           forall j c', nth_error cards' j = Some c' ->
                        card_active c' = Nat.eqb j 1
                        /\ (j = 1%nat -> icon c' = set_icon minus_sign c))
       /\ (card_active c = true ->
           forall j c', nth_error cards' j = Some c' ->
                        if Nat.eqb j 1
                        then c' = close_card c
                        else nth_error three_modules j = Some c').
Proof.
  split; [simpl; lia|].
  apply (@module_click_effect 1 three_modules). simpl. lia.
Defined.

(** The clicks of a session, in order; [None] as soon as one throws. *)
Fixpoint click_modules (clicks : list nat) (cards : list ModuleCard)
  : option (list ModuleCard) :=
  match clicks with
  | [] => Some cards
  | k :: rest =>
      match toggle_module k cards with
      | Some cards' => click_modules rest cards'
      | None => None
      end
  end.

(** At most one card is open. *)
Definition single_open (cards : list ModuleCard) : Prop :=
  forall i j ci cj,
    nth_error cards i = Some ci -> nth_error cards j = Some cj ->
    card_active ci = true -> card_active cj = true -> i = j.

(** A card's icon, when it has one, shows its state. *)
Definition icon_in_sync (c : ModuleCard) : Prop :=
  match icon c with
  | Some t => t = if card_active c then minus_sign else plus_sign
  | None => True
  end.

Lemma after_click_sync (k : nat) (b : bool) (j : nat) (c : ModuleCard) :
  icon_in_sync c -> icon_in_sync (after_click k b j c).
Proof.
  unfold after_click, icon_in_sync, close_card, open_card, set_icon.
  destruct b, (Nat.eqb j k), (card_active c) eqn:E, (icon c); simpl;
    try rewrite E; auto.
Qed.

Lemma toggle_module_invariant (k : nat) (cards cards' : list ModuleCard) :
  toggle_module k cards = Some cards' ->
  single_open cards -> Forall icon_in_sync cards ->
  single_open cards' /\ Forall icon_in_sync cards'.
Proof.
  intros Ht Hone Hsync.
  destruct (nth_error cards k) as [c|] eqn:Ek;
    [| unfold toggle_module in Ht; now rewrite Ek in Ht ].
  pose proof (@toggle_module_nth k cards cards' c Ek Ht) as Hn. split.
  - intros i j ci cj Hi Hj Ai Aj. rewrite Hn in Hi, Hj.
    destruct (nth_error cards i) as [di|] eqn:Ei; [|discriminate].
    destruct (nth_error cards j) as [dj|] eqn:Ej; [|discriminate].
    simpl in Hi, Hj. injection Hi as <-. injection Hj as <-.
    unfold after_click in Ai, Aj.
    destruct (card_active c) eqn:Ec.
    + destruct (Nat.eqb i k); [discriminate|].
      destruct (Nat.eqb j k); [discriminate|].
      exact (Hone i j di dj Ei Ej Ai Aj).
    + destruct (Nat.eqb i k) eqn:Eik.
      * destruct (Nat.eqb j k) eqn:Ejk.
        -- apply Nat.eqb_eq in Eik, Ejk. congruence.
        -- destruct (card_active dj) eqn:Edj; [discriminate | congruence].
      * destruct (card_active di) eqn:Edi; [discriminate | congruence].
  - apply Forall_forall. intros c' Hin.
    apply In_nth_error in Hin. destruct Hin as [j Hj].
    rewrite Hn in Hj. destruct (nth_error cards j) as [cj|] eqn:Ej; [|discriminate].
    injection Hj as <-. apply after_click_sync.
    exact (proj1 (Forall_forall _ _) Hsync cj (nth_error_In _ _ Ej)).
Qed.

(** X25. Over any session of clicks on headers that have a card, no
    handler throws, the number of cards does not change, and a page
    that starts with at most one module open and its icons in step
    with the cards stays so: never two modules open, and every icon
    shows minus on an open card and plus on a closed one. *)
Theorem module_accordion_invariant (clicks : list nat) (cards : list ModuleCard) :
  Forall (fun k => (k < List.length cards)%nat) clicks ->
  single_open cards -> Forall icon_in_sync cards ->
  exists cards',
    click_modules clicks cards = Some cards'
    /\ List.length cards' = List.length cards
    /\ single_open cards' /\ Forall icon_in_sync cards'.
Proof.
  revert cards. induction clicks as [|k rest IH]; intros cards Hks Hone Hsync.
  - exists cards. simpl. auto.
  - inversion Hks as [|? ? Hk Hrest]; subst.
    destruct (@module_click_effect k cards Hk) as [c [cards1 [_ [Ht [Hlen _]]]]].
    destruct (@toggle_module_invariant k cards cards1 Ht Hone Hsync) as [Hone1 Hsync1].
    destruct (IH cards1) as [cards' [Hc [Hl [H1 H2]]]]; [|assumption..|].
    { rewrite Hlen. assumption. }
    exists cards'. simpl. rewrite Ht. repeat split; try assumption. congruence.
Qed.

Definition closed_modules : list ModuleCard :=
  [ {| card_active := false; icon := Some plus_sign |};
    {| card_active := false; icon := Some plus_sign |};
    {| card_active := false; icon := None |} ].

Lemma module_accordion_invariant_witness :
  exists cards',
    click_modules [0; 2; 2; 1]%nat closed_modules = Some cards'
    /\ List.length cards' = List.length closed_modules
    /\ single_open cards' /\ Forall icon_in_sync cards'.
Proof.
  apply (@module_accordion_invariant [0; 2; 2; 1]%nat closed_modules).
  - repeat constructor.
  - intros i j ci cj Hi Hj Ai Aj.
    destruct i as [|[|[|[|i]]]]; simpl in Hi; try discriminate;
      injection Hi as <-; discriminate.
  - repeat constructor.
Defined.

(** *** The questions *)

Lemma nth_error_faq_update (k : nat) (f : FaqItem -> FaqItem)
  (items : list FaqItem) (j : nat) :
  nth_error (faq_update k f items) j
  = if Nat.eqb j k then option_map f (nth_error items j) else nth_error items j.
Proof.
  revert k j. induction items as [|c rest IH]; intros k j.
  - destruct j, k; simpl; try reflexivity. now destruct (Nat.eqb j k).
  - destruct k as [|k], j as [|j]; simpl; try reflexivity. apply IH.
Qed.

(** X26. After a click on question [k], whatever the items looked like
    before: item [k] is open exactly when it was closed, every other
    item is closed, and every question's [aria-expanded] says whether
    its item is open. *)
Theorem faq_click_effect (k : nat) (items : list FaqItem) (item : FaqItem) :
  nth_error items k = Some item ->
  List.length (toggle_faq k items) = List.length items
  /\ forall j i', nth_error (toggle_faq k items) j = Some i' ->
       faq_active i' = Nat.eqb j k && negb (faq_active item)
       /\ aria_expanded i' = Some (faq_active i').
Proof.
  intros Hk. unfold toggle_faq. rewrite Hk.
  assert (Hclosed : forall j i', nth_error (List.map faq_close items) j = Some i' ->
                                 i' = {| faq_active := false; aria_expanded := Some false |}).
  { intros j i' Hj. rewrite nth_error_map in Hj.
    destruct (nth_error items j); [|discriminate]. now injection Hj as <-. }
  destruct (faq_active item) eqn:Ea.
  - split; [apply length_map|]. intros j i' Hj.
    rewrite (Hclosed _ _ Hj). simpl. now rewrite andb_false_r.
  - split.
    + apply nth_error_length_eq. intros j.
      rewrite nth_error_faq_update, !nth_error_map.
      destruct (Nat.eqb j k), (nth_error items j); simpl; split; congruence.
    + intros j i' Hj. rewrite nth_error_faq_update in Hj.
      destruct (Nat.eqb j k).
      * destruct (nth_error (List.map faq_close items) j); [|discriminate].
        injection Hj as <-. split; reflexivity.
      * rewrite (Hclosed _ _ Hj). split; reflexivity.
Qed.

Definition two_open_faq : list FaqItem :=
  [ {| faq_active := true; aria_expanded := None |};
    {| faq_active := true; aria_expanded := Some false |};
    {| faq_active := false; aria_expanded := None |} ].

Lemma faq_click_effect_witness :
  List.length (toggle_faq 2 two_open_faq) = List.length two_open_faq
  /\ forall j i', nth_error (toggle_faq 2 two_open_faq) j = Some i' ->
       faq_active i' = Nat.eqb j 2 && negb false
       /\ aria_expanded i' = Some (faq_active i').
Proof.
  apply (@faq_click_effect 2 two_open_faq
           {| faq_active := false; aria_expanded := None |}).
  reflexivity.
Defined.

(** *** The pricing toggle *)

Definition is_monthly (p : Period) : bool :=
  match p with Monthly => true | Yearly => false end.

(** The toggle and the prices both show period [p]. *)
Definition shows (p : Period) (s0 s : Pricing) : Prop :=
  monthly_active s = is_monthly p
  /\ yearly_active s = negb (is_monthly p)
  /\ prices s = List.map (show p) (prices s0).

Lemma show_show (p q : Period) (x : Price) : show p (show q x) = show p x.
Proof. destruct p; reflexivity. Qed.

Lemma click_period_shows (p q : Period) (s0 s : Pricing) :
  shows p s0 s -> shows q s0 (click_period q s).
Proof.
  intros [Hm [Hy Hp]]. unfold click_period, shows, updatePrices.
  destruct q.
  - destruct (monthly_active s) eqn:Em.
    + destruct p; [auto | discriminate].
    + simpl. repeat split. rewrite Hp, map_map.
      apply map_ext. intros x. apply show_show.
  - destruct (yearly_active s) eqn:Ey.
    + destruct p; [discriminate | auto].
    + simpl. repeat split. rewrite Hp, map_map.
      apply map_ext. intros x. apply show_show.
Qed.

Lemma last_cons (A : Type) (a d : A) (l : list A) :
  last (a :: l) d = last l a.
Proof.
  revert a d. induction l as [|b l IH]; intros a d; [reflexivity|].
  change (last (a :: b :: l) d) with (last (b :: l) d).
  now rewrite (IH b d), (IH b a).
Qed.

(** X27. After the start and any clicks on the two buttons, exactly
    one button is active, the one clicked last, or without a click
    the yearly one on a right-to-left page and the monthly one
    otherwise; and every price shows the attribute of that period. *)
Theorem pricing_shows_active_period (rtl : bool) (s0 : Pricing)
  (clicks : list Period) :
  prices s0 <> [] ->
  shows (last clicks (if rtl then Yearly else Monthly)) s0
    (fold_left (fun s p => click_period p s) clicks (initPricingToggle rtl s0)).
Proof.
  intros Hne.
  assert (H0 : shows (if rtl then Yearly else Monthly) s0 (initPricingToggle rtl s0)).
  { unfold initPricingToggle. destruct (prices s0) eqn:E; [congruence|].
    destruct rtl; unfold shows, updatePrices; simpl; rewrite E; auto. }
  revert H0. generalize (initPricingToggle rtl s0) as s.
  generalize (if rtl then Yearly else Monthly) as p.
  induction clicks as [|q rest IH]; intros p s H; [exact H|].
  rewrite last_cons. simpl. apply IH. exact (@click_period_shows p q s0 s H).
Qed.

Definition two_prices : Pricing :=
  {| monthly_active := true; yearly_active := true;
     prices := [ {| data_monthly := Some (js "10"); data_yearly := Some (js "99");
                    price_text := js "?" |};
                 {| data_monthly := Some (js "20"); data_yearly := None;
                    price_text := js "?" |} ] |}.

Lemma pricing_shows_active_period_witness :
  shows (last [Monthly; Yearly; Yearly] Yearly) two_prices
    (fold_left (fun s p => click_period p s) [Monthly; Yearly; Yearly]
       (initPricingToggle true two_prices)).
Proof.
  apply (@pricing_shows_active_period true two_prices [Monthly; Yearly; Yearly]).
  discriminate.
Defined.

(** *** The language menu *)

Lemma js_eqb_eq (a b : JsString) : js_eqb a b = true <-> a = b.
Proof.
  unfold js_eqb. destruct (list_eq_dec N.eq_dec a b); split; congruence.
Qed.

Lemma opt_eqb_eq (a b : option JsString) : opt_eqb a b = true <-> a = b.
Proof.
  destruct a, b; simpl; try (split; congruence).
  rewrite js_eqb_eq. split; congruence.
Qed.

Lemma init_storage_in_step (pathname : JsString) (st : Storage) (dd : bool)
  (opts : list LangOption) :
  let s := initLanguageDropdown pathname st dd opts in
  selectedLanguage (storage s) = stored (currentLang s)
  /\ truthy_string (currentLang s) = true.
Proof.
  unfold initLanguageDropdown.
  destruct (truthy_string (selectedLanguage st)) eqn:E.
  - simpl. split; [|assumption]. now destruct (selectedLanguage st).
  - destruct (includes (js "index-en.html") pathname); simpl; auto.
Qed.

(** What a run of [initLanguageDropdown] makes of the document's
    direction and language. *)
Lemma init_direction (pathname : JsString) (st : Storage) (dd : bool)
  (opts : list LangOption) :
  let s := initLanguageDropdown pathname st dd opts in
  (dir s = js "rtl" <-> currentLang s = Some (js "ar"))
  /\ (lang s = js "ar" <-> currentLang s = Some (js "ar")).
Proof.
  unfold initLanguageDropdown.
  destruct (truthy_string (selectedLanguage st)).
  - simpl. rewrite <- opt_eqb_eq.
    destruct (opt_eqb (selectedLanguage st) (Some (js "ar")));
      split; split; intros H; try reflexivity; vm_compute in H; discriminate.
  - destruct (includes (js "index-en.html") pathname);
      vm_compute; split; split; intros H; (reflexivity || discriminate).
Qed.

Lemma activate_only_data_lang (k : nat) (opts : list LangOption) :
  List.map data_lang (activate_only k opts) = List.map data_lang opts.
Proof.
  revert k. induction opts as [|x opts IH]; intros k; [now destruct k|].
  destruct k; simpl.
  - f_equal. rewrite map_map. reflexivity.
  - f_equal. apply IH.
Qed.

(** Options at the same place of two menus with the same [data-lang]
    attributes. *)
Lemma nth_data_lang (l1 l : list LangOption) (k : nat) (o1 : LangOption) :
  List.map data_lang l1 = List.map data_lang l ->
  nth_error l1 k = Some o1 ->
  exists o, nth_error l k = Some o /\ data_lang o = data_lang o1.
Proof.
  intros Hm H1.
  assert (E : nth_error (List.map data_lang l1) k
              = nth_error (List.map data_lang l) k) by now rewrite Hm.
  rewrite !nth_error_map, H1 in E. simpl in E.
  destruct (nth_error l k) as [o|]; [|discriminate].
  exists o. split; [reflexivity|]. simpl in E. congruence.
Qed.

(** The three ways the click handler can go. *)
Lemma select_language_cases (k : nat) (s : LangState) :
  let s' := select_language k s in
  dir s' = dir s /\ lang s' = lang s
  /\ List.map data_lang (options s') = List.map data_lang (options s)
  /\ ((nth_error (options s) k = None /\ s' = s)
      \/ (exists o, nth_error (options s) k = Some o
            /\ data_lang o = currentLang s
            /\ storage s' = storage s /\ currentLang s' = currentLang s)
      \/ (exists o, nth_error (options s) k = Some o
            /\ selectedLanguage (storage s') = stored (data_lang o)
            /\ currentLang s' = data_lang o)).
Proof.
  unfold select_language.
  destruct (nth_error (options s) k) as [o|] eqn:Ek; [|auto 6].
  destruct (opt_eqb (data_lang o) (currentLang s)) eqn:E; simpl.
  - apply opt_eqb_eq in E. repeat split. right. left. exists o. auto.
  - split; [reflexivity|]. split; [reflexivity|].
    split; [apply activate_only_data_lang|].
    right. right. exists o. auto.
Qed.

Lemma handler_effect (k : nat) (cur : option JsString) (s : LangState) :
  let s1 := snd (handler k cur s) in
  currentLang s1 = currentLang s /\ dir s1 = dir s /\ lang s1 = lang s
  /\ List.map data_lang (options s1) = List.map data_lang (options s)
  /\ (selectedLanguage (storage s1) = selectedLanguage (storage s)
      \/ exists o, nth_error (options s) k = Some o
           /\ selectedLanguage (storage s1) = stored (data_lang o)).
Proof.
  unfold handler. cbn [snd].
  destruct (select_language_cases k (with_currentLang cur s))
    as (D & L & M & C).
  cbn [with_currentLang currentLang dir lang options storage] in *.
  split; [reflexivity|]. split; [exact D|]. split; [exact L|].
  split; [exact M|].
  destruct C as [(_ & ->) | [(o & _ & _ & -> & _) | (o & Ho & Hs & _)]].
  - left. reflexivity.
  - left. reflexivity.
  - right. exists o. auto.
Qed.

Lemma run_older_effect (k : nat) (olds : list (option JsString)) :
  forall s,
  let s1 := snd (run_older k olds s) in
  currentLang s1 = currentLang s /\ dir s1 = dir s /\ lang s1 = lang s
  /\ List.map data_lang (options s1) = List.map data_lang (options s)
  /\ (selectedLanguage (storage s1) = selectedLanguage (storage s)
      \/ exists o, nth_error (options s) k = Some o
           /\ selectedLanguage (storage s1) = stored (data_lang o)).
Proof.
  induction olds as [|cur rest IH]; intros s; cbv zeta.
  - simpl. auto 6.
  - cbn [run_older].
    pose proof (handler_effect k cur s) as H1. cbv zeta in H1.
    destruct (handler k cur s) as [cur' s1]. cbn [snd] in H1.
    pose proof (IH s1) as H2. cbv zeta in H2.
    destruct (run_older k rest s1) as [rest' s2]. cbn [snd] in *.
    destruct H1 as (C1 & D1 & L1 & M1 & S1).
    destruct H2 as (C2 & D2 & L2 & M2 & S2).
    split; [congruence|]. split; [congruence|]. split; [congruence|].
    split; [congruence|].
    destruct S2 as [E2 | (o1 & Ho1 & E2)].
    + rewrite E2. exact S1.
    + right. destruct (@nth_data_lang (options s1) (options s) k o1 M1 Ho1)
        as (o & Ho & Hd).
      exists o. split; [exact Ho|]. now rewrite Hd.
Qed.

(** A click leaves the stored language in step with the variable of
    the newest run, and does not touch the direction. *)
Lemma click_option_effect (k : nat) (m : MenuSession) :
  selectedLanguage (storage (page m)) = stored (currentLang (page m)) ->
  let m' := click_option k m in
  selectedLanguage (storage (page m')) = stored (currentLang (page m'))
  /\ dir (page m') = dir (page m) /\ lang (page m') = lang (page m).
Proof.
  intros HA. unfold click_option.
  pose proof (run_older_effect k (older m) (page m)) as H1. cbv zeta in H1.
  destruct (run_older k (older m) (page m)) as [olds s1]. cbn [snd] in H1.
  destruct H1 as (C1 & D1 & L1 & M1 & S1). cbn [page].
  destruct (select_language_cases k s1) as (D & L & _ & C).
  split; [|split; congruence].
  destruct C as [(Hn & ->) | [(o1 & Ho1 & Hd & -> & ->) | (o1 & _ & -> & ->)]].
  - rewrite C1. destruct S1 as [-> | (o & Ho & _)]; [exact HA|].
    symmetry in M1.
    destruct (@nth_data_lang (options (page m)) (options s1) k o M1 Ho)
      as (o1 & Ho1 & _).
    congruence.
  - destruct S1 as [-> | (o & Ho & ->)]; [now rewrite C1|].
    destruct (@nth_data_lang (options s1) (options (page m)) k o1 M1 Ho1)
      as (o' & Ho' & Hd').
    rewrite Ho in Ho'. injection Ho' as <-. now rewrite Hd', Hd.
  - reflexivity.
Qed.

(** The language found by the latest run of [initLanguageDropdown]
    that found the menu, [found] being that of the runs before. *)
Fixpoint language_found (pathname : JsString) (evs : list MenuEvent)
  (m : MenuSession) (found : option JsString) : option JsString :=
  match evs with
  | [] => found
  | ev :: rest =>
      let m' := menu_step pathname ev m in
      language_found pathname rest m'
        (match ev with
         | InitAgain SameMenu | InitAgain (NewMenu _ _) => currentLang (page m')
         | InitAgain NoMenu | ClickOption _ => found
         end)
  end.

Lemma init_again_effect (pathname : JsString) (menu : Menu) (m : MenuSession) :
  menu <> NoMenu ->
  let m' := init_again pathname menu m in
  selectedLanguage (storage (page m')) = stored (currentLang (page m'))
  /\ truthy_string (currentLang (page m')) = true
  /\ (dir (page m') = js "rtl" <-> currentLang (page m') = Some (js "ar"))
  /\ (lang (page m') = js "ar" <-> currentLang (page m') = Some (js "ar")).
Proof.
  intros Hm. destruct menu as [|dd opts|]; [| |congruence]; cbv zeta;
    cbn [init_again page with_loads storage currentLang dir lang];
    (split; [|split]);
    try apply init_storage_in_step; apply init_direction.
Qed.

Lemma menu_run_invariant (pathname : JsString) (evs : list MenuEvent) :
  forall (m : MenuSession) (f : option JsString),
  selectedLanguage (storage (page m)) = stored (currentLang (page m))
  /\ (dir (page m) = js "rtl" <-> f = Some (js "ar"))
  /\ (lang (page m) = js "ar" <-> f = Some (js "ar")) ->
  selectedLanguage (storage (page (menu_run pathname evs m)))
  = stored (currentLang (page (menu_run pathname evs m)))
  /\ (dir (page (menu_run pathname evs m)) = js "rtl"
      <-> language_found pathname evs m f = Some (js "ar"))
  /\ (lang (page (menu_run pathname evs m)) = js "ar"
      <-> language_found pathname evs m f = Some (js "ar")).
Proof.
  unfold menu_run.
  induction evs as [|ev rest IH]; intros m f (A & D & L).
  - cbn [fold_left language_found]. auto.
  - cbn [fold_left language_found]. apply IH.
    destruct ev as [k | [|dd opts|]].
    + cbn [menu_step].
      destruct (@click_option_effect k m A) as (A' & D' & L').
      rewrite D', L'. auto.
    + cbn [menu_step].
      destruct (@init_again_effect pathname SameMenu m) as (A' & _ & D' & L');
        [discriminate | auto].
    + cbn [menu_step].
      destruct (@init_again_effect pathname (NewMenu dd opts) m)
        as (A' & _ & D' & L'); [discriminate | auto].
    + cbn [menu_step init_again page with_options storage currentLang dir lang].
      auto.
Qed.

(** X28.  Over a session of clicks on options and of re-runs of [init]
    after a loaded section was swapped in, in any order: the stored
    language is always the string form of the current language of the
    newest run.  The direction and the language of the document are
    those of the language found by the latest run that found the menu,
    the first one included: right-to-left and [ar] exactly when that
    language was Arabic.  No click changes them by itself; every
    re-run that finds the menu sets them from the stored language, so
    after a click on another language they change at the re-run that
    follows the load, without a load of the page. *)
Theorem stored_language_follows_clicks (pathname : JsString) (st : Storage)
  (dd : bool) (opts : list LangOption) (evs : list MenuEvent) :
  let m0 := menu_start pathname st dd opts in
  let m := menu_run pathname evs m0 in
  let found := language_found pathname evs m0 (currentLang (page m0)) in
  selectedLanguage (storage (page m)) = stored (currentLang (page m))
  /\ (dir (page m) = js "rtl" <-> found = Some (js "ar"))
  /\ (lang (page m) = js "ar" <-> found = Some (js "ar"))
  /\ (forall k, dir (page (click_option k m)) = dir (page m)
                /\ lang (page (click_option k m)) = lang (page m))
  /\ (forall menu, menu <> NoMenu ->
        let m' := init_again pathname menu m in
        (dir (page m') = js "rtl"
         <-> selectedLanguage (storage (page m')) = Some (js "ar"))
        /\ (lang (page m') = js "ar"
            <-> selectedLanguage (storage (page m')) = Some (js "ar"))).
Proof.
  intros m0 m found.
  assert (H0 : selectedLanguage (storage (page m0)) = stored (currentLang (page m0))
               /\ (dir (page m0) = js "rtl" <-> currentLang (page m0) = Some (js "ar"))
               /\ (lang (page m0) = js "ar" <-> currentLang (page m0) = Some (js "ar"))).
  { subst m0. cbn [menu_start page]. split; [apply init_storage_in_step|].
    apply init_direction. }
  destruct (@menu_run_invariant pathname evs m0 (currentLang (page m0)) H0)
    as (A & D & L).
  fold m in A, D, L. fold found in D, L.
  split; [exact A|]. split; [exact D|]. split; [exact L|]. split.
  - intros k. destruct (@click_option_effect k m A) as (_ & D' & L'). auto.
  - intros menu Hm.
    destruct (@init_again_effect pathname menu m Hm) as (A' & T' & D' & L').
    cbv zeta. rewrite A'.
    destruct (currentLang (page (init_again pathname menu m))) as [c|];
      [|discriminate]. cbn [stored]. auto.
Qed.

(** The file a click on option [o] asks for. *)
Definition requested_file (o : LangOption) : JsString :=
  if truthy_string (href o) then text_of (href o)
  else if opt_eqb (data_lang o) (Some (js "ar"))
       then js "index.html" else js "index-en.html".

Lemma nth_error_activate_only (k : nat) (opts : list LangOption) (j : nat)
  (o : LangOption) :
  nth_error (activate_only k opts) j = Some o -> option_active o = Nat.eqb j k.
Proof.
  revert k j. induction opts as [|x opts IH]; intros k j H.
  - destruct k, j; discriminate.
  - destruct k as [|k], j as [|j]; simpl in H.
    + now injection H as <-.
    + rewrite nth_error_map in H. destruct (nth_error opts j); [|discriminate].
      now injection H as <-.
    + now injection H as <-.
    + exact (IH k j H).
Qed.

(** X29. Choosing another language is remembered: after a click on an
    option whose [data-lang] is a non-empty [l] other than the current
    language and whose [data-lang-name] is [n], exactly that option is
    active, one file is asked for (the option's [href], or the page of
    the language when there is none), and the next start of the
    script, on whatever page and menu, finds [l] as the language,
    shows [n], sets the direction right-to-left exactly when [l] is
    Arabic, and leaves the storage as it is. *)
Theorem language_choice_persists (pathname pathname' : JsString) (st : Storage)
  (dd dd' : bool) (opts opts' : list LangOption) (k : nat) (o : LangOption)
  (l n : JsString) :
  let s0 := initLanguageDropdown pathname st dd opts in
  nth_error opts k = Some o ->
  data_lang o = Some l -> l <> [] -> data_lang_name o = Some n ->
  currentLang s0 <> Some l ->
  let s1 := select_language k s0 in
  let s2 := initLanguageDropdown pathname' (storage s1) dd' opts' in
  loads s1 = [requested_file o]
  /\ dropdownActive s1 = false
  /\ (forall j oj, nth_error (options s1) j = Some oj ->
                   option_active oj = Nat.eqb j k)
  /\ currentLang s2 = Some l
  /\ langCurrentText s2 = n
  /\ (dir s2 = js "rtl" <-> l = js "ar")
  /\ storage s2 = storage s1.
Proof.
  intros s0 Hk Hl Hne Hn Hcur s1 s2.
  assert (Hopt : nth_error (options s0) k = Some (mark_current (currentLang s0) o)).
  { subst s0. unfold initLanguageDropdown.
    destruct (truthy_string (selectedLanguage st));
      [| destruct (includes (js "index-en.html") pathname) ]; simpl;
      rewrite nth_error_map, Hk; reflexivity. }
  assert (Hloads : loads s0 = []).
  { subst s0. unfold initLanguageDropdown.
    destruct (truthy_string (selectedLanguage st));
      [| destruct (includes (js "index-en.html") pathname) ]; reflexivity. }
  assert (Hmark : mark_current (currentLang s0) o = o).
  { unfold mark_current. rewrite Hl.
    destruct (opt_eqb (Some l) (currentLang s0)) eqn:E; [|reflexivity].
    apply opt_eqb_eq in E. congruence. }
  rewrite Hmark in Hopt.
  assert (Hs1 : s1 =
    {| storage := {| selectedLanguage := Some l; selectedLanguageName := Some n |};
       currentLang := Some l; langCurrentText := n;
       dir := dir s0; lang := lang s0; dropdownActive := false;
       options := activate_only k (options s0);
       loads := [requested_file o] |}).
  { subst s1. unfold select_language, requested_file. rewrite Hopt, Hl.
    destruct (opt_eqb (Some l) (currentLang s0)) eqn:E.
    - apply opt_eqb_eq in E. congruence.
    - rewrite Hn, Hloads. reflexivity. }
  assert (Ht : truthy_string (Some l) = true).
  { destruct l; [congruence | reflexivity]. }
  subst s2. rewrite Hs1. simpl. unfold initLanguageDropdown. simpl selectedLanguage.
  rewrite Ht. simpl.
  repeat split; try reflexivity.
  - intros j oj. apply nth_error_activate_only.
  - destruct (js_eqb l (js "ar")) eqn:E.
    + intros _. now apply js_eqb_eq.
    + intros H. vm_compute in H. discriminate.
  - intros ->. reflexivity.
Qed.

Definition two_languages : list LangOption :=
  [ {| data_lang := Some (js "ar"); data_lang_name := Some arabic_name;
       href := Some (js "index.html"); option_active := false |};
    {| data_lang := Some (js "en"); data_lang_name := Some (js "English");
       href := None; option_active := false |} ].

Definition empty_storage : Storage :=
  {| selectedLanguage := None; selectedLanguageName := None |}.

Lemma language_choice_persists_witness :
  let s0 := initLanguageDropdown (js "/site/index.html") empty_storage false
              two_languages in
  let s1 := select_language 1 s0 in
  let s2 := initLanguageDropdown (js "/site/index.html") (storage s1) false
              two_languages in
  currentLang s0 = Some (js "ar")
  /\ loads s1 = [js "index-en.html"]
  /\ currentLang s2 = Some (js "en")
  /\ langCurrentText s2 = js "English"
  /\ (dir s2 = js "rtl" <-> js "en" = js "ar").
Proof.
  intros s0 s1 s2.
  destruct (@language_choice_persists (js "/site/index.html")
              (js "/site/index.html") empty_storage false false
              two_languages two_languages 1
              {| data_lang := Some (js "en"); data_lang_name := Some (js "English");
                 href := None; option_active := false |}
              (js "en") (js "English") eq_refl eq_refl)
    as [A [_ [_ [B [C [D _]]]]]].
  - discriminate.
  - reflexivity.
  - discriminate.
  - split; [reflexivity|]. split; [exact A|]. split; [exact B|].
    split; [exact C | exact D].
Defined.

(** A click on the other language leaves the direction as it is; the
    re-run of [init] that follows the load changes it. *)
Lemma direction_changes_at_rerun :
  let m0 := menu_start (js "/site/index.html") empty_storage false
              two_languages in
  let m1 := click_option 1 m0 in
  let m2 := init_again (js "/site/index.html") SameMenu m1 in
  dir (page m0) = js "rtl" /\ currentLang (page m0) = Some (js "ar")
  /\ dir (page m1) = js "rtl" /\ currentLang (page m1) = Some (js "en")
  /\ dir (page m2) = js "ltr" /\ lang (page m2) = js "en"
  /\ older m2 = [Some (js "en")].
Proof. vm_compute. repeat split; reflexivity. Qed.

End ThemeFacts.
